(** * Secret reconstruction from shares: exact rationals, Lagrange
      interpolation at the origin, subset enumeration and consensus.

    Shallow embedding of [src/index.js].  The file holds two programs:
    the first one ([bigGcd], [Fraction], [lagrangeAtZeroFraction])
    interpolates the first [k] points; the second one ([gcdBigInt],
    [Rational], [reconstructAtOrigin], [chooseCombos],
    [recoverSecretFromJSON]) interpolates every size-[k] subset and
    keeps the value most subsets agree on.

    JavaScript [BigInt] is modelled by [Z]: [/] is [Z.quot] (truncating),
    [%] is [Z.rem] (sign of the dividend).  A [throw] is the left
    injection of [result]. *)

From Stdlib Require Import Ascii String DecimalString DecimalZ DecimalPos.
From Stdlib Require Import ZArith List Lia Bool Arith Permutation Sorted.
From Stdlib Require Import Znumtheory QArith Qcanon Qreduction Field.
Import ListNotations.

Local Open Scope Z_scope.

(** ** Errors and the error monad *)

(** One constructor per [throw new Error(...)] message of the source. *)
Inductive Error : Type :=
| DenominatorCannotBeZero   (* 'Denominator cannot be 0'  (Fraction)   *)
| DenominatorZero           (* 'Denominator zero'         (Rational)   *)
| DivideByZero              (* 'Divide by zero'           (Rational.div) *)
| NotEnoughShares           (* 'Not enough shares in input'            *)
| NoConsensus.              (* 'Could not determine consensus secret'  *)

(** The error kinds of the specification. *)
Definition DivisionByZeroError (e : Error) : Prop :=
  e = DenominatorCannotBeZero \/ e = DenominatorZero \/ e = DivideByZero.
Definition InsufficientSharesError (e : Error) : Prop := e = NotEnoughShares.
Definition NoConsensusError (e : Error) : Prop := e = NoConsensus.

Definition result (A : Type) : Type := (Error + A)%type.
Definition ret {A} (a : A) : result A := inr a.
Definition throw {A} (e : Error) : result A := inl e.
Definition bind {A B} (m : result A) (f : A -> result B) : result B :=
  match m with
  | inl e => inl e
  | inr a => f a
  end.

Notation "x <- m ;; k" := (bind m (fun x => k))
  (at level 61, m at next level, right associativity).

(** [for (let i = 0; i < n; i++) body], threading the loop state and
    stopping at the first [throw]. *)
Fixpoint forLoop {S : Type} (body : nat -> S -> result S) (idx : list nat)
  (s : S) : result S :=
  match idx with
  | [] => ret s
  | i :: idx' => s' <- body i s ;; forLoop body idx' s'
  end.

(** [arr.map(f)] with a callback that may throw: the results in order,
    or the first error. *)
Fixpoint mapM {A B : Type} (f : A -> result B) (l : list A) : result (list B) :=
  match l with
  | [] => ret []
  | a :: l' => b <- f a ;; bs <- mapM f l' ;; ret (b :: bs)
  end.

(** ** Greatest common divisor *)

(** The loop [while (b !== 0n) { const t = a % b; a = b; b = t; }] followed
    by [return a], unrolled at most [steps] times. *)
Fixpoint gcdLoop (steps : nat) (a b : Z) : Z :=
  match steps with
  | O => a
  | S steps' => if b =? 0 then a else gcdLoop steps' b (Z.rem a b)
  end.

(** A number of iterations the loop never exceeds on non-negative
    arguments (see [gcdLoop_enough]): the remainder at least halves
    every second iteration. *)
Definition gcdSteps (a b : Z) : nat :=
  S (S (Z.to_nat (Z.log2 a + Z.log2 b))).

Definition gcdBigInt (a b : Z) : Z :=
  let a := if a <? 0 then - a else a in
  let b := if b <? 0 then - b else b in
  gcdLoop (gcdSteps a b) a b.

(** The first program carries its own copy of the same function. *)
Definition bigGcd (a b : Z) : Z :=
  let a := if a <? 0 then - a else a in
  let b := if b <? 0 then - b else b in
  gcdLoop (gcdSteps a b) a b.

(** ** The first program: class [Fraction] and [lagrangeAtZeroFraction] *)

Module Fraction.

Record t : Type := mk { n : Z; d : Z }.

(** [constructor(numer, denom = 1n)] *)
Definition new (numer denom : Z) : result t :=
  if denom =? 0 then throw DenominatorCannotBeZero else
  let numer' := if denom <? 0 then - numer else numer in
  let denom' := if denom <? 0 then - denom else denom in
  let g := bigGcd numer' denom' in
  ret (mk (Z.quot numer' g) (Z.quot denom' g)).

Definition fromBigInt (n : Z) : result t := new n 1.

Definition add (this other : t) : result t :=
  new (n this * d other + n other * d this) (d this * d other).

Definition mul (this other : t) : result t :=
  new (n this * n other) (d this * d other).

(** [{ whole: true, value }] is [inl value], [{ whole: false, frac }]
    is [inr frac]. *)
Definition asIntegerIfWhole (this : t) : Z + t :=
  if d this =? 1 then inl (n this)
  else if Z.rem (n this) (d this) =? 0 then inl (Z.quot (n this) (d this))
  else inr this.

End Fraction.

(** A point of the first program is the array [[x, y]]. *)
Definition Point : Type := (Z * Z)%type.

Definition lagrangeAtZeroFraction (pointsSubset : list Point) : result Fraction.t :=
  res0 <- Fraction.new 0 1 ;;
  let n := length pointsSubset in
  forLoop (fun i res =>
    let xi := fst (nth i pointsSubset (0, 0)) in
    yi <- Fraction.fromBigInt (snd (nth i pointsSubset (0, 0))) ;;
    Li0 <- Fraction.new 1 1 ;;
    Li <- forLoop (fun j Li =>
            if (j =? i)%nat then ret Li else
            let xj := fst (nth j pointsSubset (0, 0)) in
            f <- Fraction.new (- xj) (xi - xj) ;;
            Fraction.mul Li f)
          (seq 0 n) Li0 ;;
    term <- Fraction.mul yi Li ;;
    Fraction.add res term)
  (seq 0 n) res0.

(** ** The second program: class [Rational] *)

Module Rational.

Record t : Type := mk { num : Z; den : Z }.

(** [constructor(num, den = 1n)] *)
Definition new (num den : Z) : result t :=
  if den =? 0 then throw DenominatorZero else
  let num' := if den <? 0 then - num else num in
  let den' := if den <? 0 then - den else den in
  let g := gcdBigInt num' den' in
  ret (mk (Z.quot num' g) (Z.quot den' g)).

Definition zero : result t := new 0 1.
Definition fromBigInt (b : Z) : result t := new b 1.

Definition isZero (this : t) : bool := num this =? 0.

Definition add (this other : t) : result t :=
  let n := num this * den other + num other * den this in
  let d := den this * den other in
  new n d.

Definition sub (this other : t) : result t :=
  let n := num this * den other - num other * den this in
  let d := den this * den other in
  new n d.

Definition mul (this other : t) : result t :=
  new (num this * num other) (den this * den other).

Definition div (this other : t) : result t :=
  if num other =? 0 then throw DivideByZero else
  new (num this * den other) (den this * num other).

Definition neg (this : t) : result t := new (- num this) (den this).

(** [null] is [None]. *)
Definition toIntegerIfExact (this : t) : option Z :=
  if den this =? 1 then Some (num this)
  else if Z.rem (num this) (den this) =? 0
       then Some (Z.quot (num this) (den this))
       else None.

End Rational.

(** ** Shares and [reconstructAtOrigin] *)

Module Share.
(** The object [{ x, y }], both fields [BigInt]. *)
Record t : Type := mk { x : Z; y : Z }.
End Share.

Definition noShare : Share.t := Share.mk 0 0.

Definition reconstructAtOrigin (dataSubset : list Share.t) : result Rational.t :=
  total0 <- Rational.zero ;;
  forLoop (fun i total =>
    let xPos := Share.x (nth i dataSubset noShare) in
    yVal <- Rational.fromBigInt (Share.y (nth i dataSubset noShare)) ;;
    basisPoly0 <- Rational.fromBigInt 1 ;;
    basisPoly <- forLoop (fun j basisPoly =>
            if (j =? i)%nat then ret basisPoly else
            let xOther := Share.x (nth j dataSubset noShare) in
            numerator <- Rational.new (- xOther) 1 ;;
            denominator <- Rational.new (xPos - xOther) 1 ;;
            q <- Rational.div numerator denominator ;;
            Rational.mul basisPoly q)
          (seq 0 (length dataSubset)) basisPoly0 ;;
    term <- Rational.mul yVal basisPoly ;;
    Rational.add total term)
  (seq 0 (length dataSubset)) total0.

(** ** [chooseCombos] *)

Section ChooseCombos.
Context {A : Type}.
Variable undefined : A.
Variable arr : list A.
Variable k : nat.

(** [backtrack(start, chosen)] returns what it pushes on [result].
    The loop [for (i = start; i <= n - (k - chosen.length); i++)] is
    computed on integers, as the source does.  [depth] bounds the nesting
    of the recursive calls; every call adds one element to [chosen] and
    the nesting stops when [chosen.length === k], so [k] levels are all
    that [chooseCombos] ever uses (see [backtrack_depth]). *)
Fixpoint backtrack (depth : nat) (start : nat) (chosen : list A)
  : list (list A) :=
  if (length chosen =? k)%nat then [chosen]
  else
    match depth with
    | O => []
    | S depth' =>
        flat_map
          (fun i => backtrack depth' (i + 1) (chosen ++ [nth i arr undefined]))
          (seq start
             (Z.to_nat (Z.of_nat (length arr)
                        - (Z.of_nat k - Z.of_nat (length chosen))
                        - Z.of_nat start + 1)))
    end.

Definition chooseCombos : list (list A) := backtrack k 0 [].
End ChooseCombos.

(** ** [recoverSecretFromJSON], from the decoded shares on *)

(** The tally key is the string [`${num}/${den}`]; decimal rendering of a
    [BigInt] is injective and [BigInt(str)] inverts it, so the key is
    modelled by the pair it renders. *)
Definition Key : Type := (Z * Z)%type.

Definition keyOf (r : Rational.t) : Key := (Rational.num r, Rational.den r).

Definition key_eqb (a b : Key) : bool :=
  (fst a =? fst b) && (snd a =? snd b).

(** A JavaScript [Map]: entries in insertion order; [set] on a present
    key replaces the value in place, on an absent key appends. *)
Section JsMap.
Context {V : Type}.

Definition JsMap : Type := list (Key * V).

Fixpoint mapGet (m : JsMap) (key : Key) : option V :=
  match m with
  | [] => None
  | (k', v) :: m' => if key_eqb k' key then Some v else mapGet m' key
  end.

Definition mapHas (m : JsMap) (key : Key) : bool :=
  match mapGet m key with Some _ => true | None => false end.

Fixpoint mapSet (m : JsMap) (key : Key) (v : V) : JsMap :=
  match m with
  | [] => [(key, v)]
  | (k', v') :: m' =>
      if key_eqb k' key then (k', v) :: m' else (k', v') :: mapSet m' key v
  end.
End JsMap.
Arguments JsMap : clear implicits.

(** [shares.sort((a, b) => (a.x < b.x ? -1 : a.x > b.x ? 1 : 0))].
    [Array.prototype.sort] is stable; a stable insertion sort stands for
    it. *)
Definition compareShares (a b : Share.t) : Z :=
  if Share.x a <? Share.x b then -1
  else if Share.x a >? Share.x b then 1 else 0.

Fixpoint insertShare (s : Share.t) (l : list Share.t) : list Share.t :=
  match l with
  | [] => [s]
  | h :: l' => if compareShares s h <=? 0 then s :: h :: l'
               else h :: insertShare s l'
  end.

Definition sortShares (l : list Share.t) : list Share.t :=
  fold_right insertShare [] l.

(** The two result shapes, [{ secret, subset }] and
    [{ secretFraction, subset }]; [subset] is what [comboTrace.get]
    returned ([None] for [undefined]). *)
Inductive Outcome : Type :=
| Secret (intValue : Z) (subset : option (list Share.t))
| SecretFraction (secretFrac : Rational.t) (subset : option (list Share.t)).

Record Tally : Type := mkTally {
  frequency : JsMap Z;
  comboTrace : JsMap (list Share.t)
}.

(** One iteration of [for (const c of allCombos)]. *)
Definition tallyStep (shares : list Share.t) (c : list nat) (st : Tally)
  : result Tally :=
  let subset := map (fun i => nth i shares noShare) c in
  candidate <- reconstructAtOrigin subset ;;
  let key := keyOf candidate in
  let frequency' :=
    mapSet (frequency st) key
           ((match mapGet (frequency st) key with Some v => v | None => 0 end) + 1) in
  let comboTrace' :=
    if negb (mapHas (comboTrace st) key)
    then mapSet (comboTrace st) key subset
    else comboTrace st in
  ret (mkTally frequency' comboTrace').

Fixpoint tallyLoop (shares : list Share.t) (allCombos : list (list nat))
  (st : Tally) : result Tally :=
  match allCombos with
  | [] => ret st
  | c :: rest => st' <- tallyStep shares c st ;; tallyLoop shares rest st'
  end.

(** [for (const [kstr, v] of frequency.entries()) if (v > topCount) ...] *)
Fixpoint selectTop (entries : JsMap Z) (topKey : option Key) (topCount : Z)
  : option Key * Z :=
  match entries with
  | [] => (topKey, topCount)
  | (kstr, v) :: rest =>
      if v >? topCount then selectTop rest (Some kstr) v
      else selectTop rest topKey topCount
  end.

(** The end of [recoverSecretFromJSON]: choice of [topKey] among the
    entries of [frequency], then the result object. *)
Definition selectSecret (st : Tally) : result Outcome :=
  match fst (selectTop (frequency st) None (-1)) with
  | None => throw NoConsensus
  | Some topKey =>
      secretFrac <- Rational.new (fst topKey) (snd topKey) ;;
      match Rational.toIntegerIfExact secretFrac with
      | None => ret (SecretFraction secretFrac (mapGet (comboTrace st) topKey))
      | Some intValue => ret (Secret intValue (mapGet (comboTrace st) topKey))
      end
  end.

(** [recoverSecretFromJSON] once the test case is decoded: [shares] is
    the array as pushed (before the sort), [k] is [testcase.keys.k], a
    non-negative integer.  Reading the JSON object and decoding the digit
    strings are left out. *)
Definition recoverSecretFromJSON (shares : list Share.t) (k : nat) : result Outcome :=
  let shares := sortShares shares in
  if (length shares <? k)%nat then throw NotEnoughShares else
  let indices := seq 0 (length shares) in
  let allCombos := chooseCombos 0%nat indices k in
  st <- tallyLoop shares allCombos (mkTally [] []) ;;
  selectSecret st.

(** ** Digit strings, rendering and [processFile] *)

(** A character is a UTF-16 code unit below 256 (Latin-1); strings are
    sequences of such units.  [charCodeAt(0)]: *)
Definition charCode (ch : ascii) : Z := Z.of_N (N_of_ascii ch).

(** [ch.toLowerCase()] on Latin-1: A-Z and the accented capitals
    U+00C0-U+00DE (but not U+00D7) move up by 32. *)
Definition toLowerCase (ch : ascii) : ascii :=
  let c := charCode ch in
  if ((65 <=? c) && (c <=? 90))
     || ((192 <=? c) && (c <=? 222) && negb (c =? 215))
  then ascii_of_N (Z.to_N (c + 32))
  else ch.





(** The errors of the digit parsers:
    ['Invalid digit char: ' + ch] and [`Digit ${ch} >= base ${base}`]. *)
Inductive ParseError : Type :=
| InvalidDigitChar (ch : ascii)
| DigitNotBelowBase (ch : ascii) (base : Z).

(** [BigInt.prototype.toString()]: the decimal rendering. *)
Definition showZ (z : Z) : string := NilZero.string_of_int (Z.to_int z).

(** The first program. *)
Module IndexJs.

Definition charToDigit (ch : ascii) : ParseError + Z :=
  if (48 <=? charCode ch) && (charCode ch <=? 57)
  then inr (charCode ch - 48)
  else
    let lower := toLowerCase ch in
    if (97 <=? charCode lower) && (charCode lower <=? 122)
    then inr (charCode lower - 97 + 10)
    else inl (InvalidDigitChar ch).

(** The loop of [parseBigIntInBase] from position [i] on, [acc] being
    the accumulator. *)
Fixpoint parseLoop (b : Z) (str : string) (acc : Z) : ParseError + Z :=
  match str with
  | EmptyString => inr acc
  | String ch rest =>
      match charToDigit ch with
      | inl e => inl e
      | inr d =>
          if d >=? b then inl (DigitNotBelowBase ch b)
          else parseLoop b rest (acc * b + d)
      end
  end.

Definition parseBigIntInBase (str : string) (base : Z) : ParseError + Z :=
  parseLoop base str 0.

(** [Fraction.prototype.toString] *)
Definition toString (this : Fraction.t) : string :=
  if Fraction.d this =? 1 then showZ (Fraction.n this)
  else showZ (Fraction.n this) ++ "/" ++ showZ (Fraction.d this).

(** What [processFile] can throw. *)
Inductive FileError : Type :=
| DigitError (e : ParseError)
| NotEnoughPoints (have need : nat)   (* 'Not enough points in ...' *)
| FractionError (e : Error).

(** [points.sort((a, b) => a[0] - b[0])], stable. *)
Fixpoint insertPoint (p : Point) (l : list Point) : list Point :=
  match l with
  | [] => [p]
  | h :: l' => if (fst p - fst h <=? 0)%Z then p :: h :: l'
               else h :: insertPoint p l'
  end.

Definition sortPoints (l : list Point) : list Point :=
  fold_right insertPoint [] l.

(** One entry of the input object: the key as a number, [base] as a
    number and the digit string [value]. *)
Record Entry : Type := mkEntry { key : Z; base : Z; value : string }.

(** The loop [for (const key of Object.keys(data))] that builds
    [points], on the entries other than ["keys"]. *)
Fixpoint readPoints (entries : list Entry) : ParseError + list Point :=
  match entries with
  | [] => inr []
  | e :: rest =>
      match parseBigIntInBase (value e) (base e) with
      | inl err => inl err
      | inr yBig =>
          match readPoints rest with
          | inl err => inl err
          | inr points => inr ((key e, yBig) :: points)
          end
      end
  end.

(** [processFile] once the file is read and parsed as JSON: [entries]
    are the members of the object other than ["keys"], in the order of
    [Object.keys], and [k] is [data.keys.k]. *)
Definition processFile (entries : list Entry) (k : nat) : FileError + string :=
  match readPoints entries with
  | inl err => inl (DigitError err)
  | inr points =>
      let points := sortPoints points in
      if (length points <? k)%nat
      then inl (NotEnoughPoints (length points) k)
      else
        let subset := firstn k points in
        match lagrangeAtZeroFraction subset with
        | inl e => inl (FractionError e)
        | inr cFrac =>
            match Fraction.asIntegerIfWhole cFrac with
            | inl value => inr (showZ value)
            | inr _ => inr (toString cFrac)
            end
        end
  end.

End IndexJs.

(** The second program. *)
Module SecretJs.

(** Here the character is lowered in place, so the error carries the
    lowered character. *)
Definition charToDigit (ch : ascii) : ParseError + Z :=
  if (48 <=? charCode ch) && (charCode ch <=? 57)
  then inr (charCode ch - 48)
  else
    let ch := toLowerCase ch in
    if (97 <=? charCode ch) && (charCode ch <=? 122)
    then inr (charCode ch - 97 + 10)
    else inl (InvalidDigitChar ch).

(** The loop [for (let ch of str.trim())] of [parseBigIntFromBase]. *)
Fixpoint parseLoop (b : Z) (str : string) (val : Z) : ParseError + Z :=
  match str with
  | EmptyString => inr val
  | String ch rest =>
      if Ascii.eqb ch "_" then parseLoop b rest val
      else
        match charToDigit ch with
        | inl e => inl e
        | inr d =>
            if d >=? b then inl (DigitNotBelowBase ch b)
            else parseLoop b rest (val * b + d)
        end
  end.


(** [Rational.prototype.toString] *)
Definition toString (this : Rational.t) : string :=
  if Rational.den this =? 1 then showZ (Rational.num this)
  else showZ (Rational.num this) ++ "/" ++ showZ (Rational.den this).

(** The tally key [`${candidate.num.toString()}/${candidate.den.toString()}`]. *)
Definition keyString (candidate : Rational.t) : string :=
  showZ (Rational.num candidate) ++ "/" ++ showZ (Rational.den candidate).

(** [topKey.split('/')] for a one-character separator: the pieces
    between the separators, in order. *)
Fixpoint split (sep : ascii) (s : string) : list string :=
  match s with
  | EmptyString => [EmptyString]
  | String ch rest =>
      if Ascii.eqb ch sep then EmptyString :: split sep rest
      else match split sep rest with
           | [] => [String ch EmptyString]
           | piece :: pieces => String ch piece :: pieces
           end
  end.

End SecretJs.

(** ** Specification-side definitions *)

(** Normal form of a rational: positive denominator, numerator and
    denominator coprime. *)
Definition normal (r : Rational.t) : Prop :=
  0 < Rational.den r /\ Z.gcd (Rational.num r) (Rational.den r) = 1.

(** The rational number a [Rational] stands for, as a canonical
    rational of the Standard Library. *)
Definition Zc (z : Z) : Qc := Q2Qc (inject_Z z).

Definition toQc (r : Rational.t) : Qc :=
  Q2Qc (Qmake (Rational.num r) (Z.to_pos (Rational.den r))).

Definition represents (r : Rational.t) (q : Qc) : Prop :=
  normal r /\ toQc r = q.

Section Interpolation.
Local Open Scope Qc_scope.

(** Sums and products over a list of indices. *)
Fixpoint sumQc (f : nat -> Qc) (l : list nat) : Qc :=
  match l with
  | [] => 0
  | i :: l' => f i + sumQc f l'
  end.

Fixpoint prodQc (f : nat -> Qc) (l : list nat) : Qc :=
  match l with
  | [] => 1
  | i :: l' => f i * prodQc f l'
  end.

(** The Lagrange basis polynomial of node [i] among the nodes [xs],
    evaluated at [t], and the interpolating sum
    [sum_i y_i * prod_(j<>i) (t - x_j) / (x_i - x_j)]. *)
Definition lagrangeFactor (xs : list Qc) (t : Qc) (i j : nat) : Qc :=
  if (j =? i)%nat then 1
  else (t - nth j xs 0) / (nth i xs 0 - nth j xs 0).

Definition lagrangeBasis (xs : list Qc) (t : Qc) (i : nat) : Qc :=
  prodQc (lagrangeFactor xs t i) (seq 0 (length xs)).

Definition lagrangeSum (xs ys : list Qc) (t : Qc) : Qc :=
  sumQc (fun i => nth i ys 0 * lagrangeBasis xs t i) (seq 0 (length xs)).

(** Polynomials as coefficient lists, lowest degree first. *)
Fixpoint peval (p : list Qc) (t : Qc) : Qc :=
  match p with
  | [] => 0
  | c :: p' => c + t * peval p' t
  end.

(** Coefficient-wise sum, multiplication by a constant, and the
    quotient of [p] by [t - a] (synthetic division). *)
Fixpoint padd (p q : list Qc) : list Qc :=
  match p, q with
  | [], _ => q
  | _, [] => p
  | c :: p', e :: q' => (c + e) :: padd p' q'
  end.

Definition pscale (c : Qc) (p : list Qc) : list Qc := map (Qcmult c) p.

Fixpoint pdivlin (a : Qc) (p : list Qc) : list Qc :=
  match p with
  | [] => []
  | _ :: p' =>
      match p' with
      | [] => []
      | _ :: _ => peval p' a :: pdivlin a p'
      end
  end.

(** [f] is a polynomial function with at most [d] coefficients, that
    is of degree less than [d]. *)
Definition polyfun (d : nat) (f : Qc -> Qc) : Prop :=
  exists p, (length p <= d)%nat /\ forall t, f t = peval p t.

End Interpolation.

(** Some index of [js] other than [i] carries the x-coordinate of
    node [i]: the inner loop divides by zero there. *)
Definition clash (dataSubset : list Share.t) (i : nat) (js : list nat) : bool :=
  existsb (fun j => negb (j =? i)%nat
                    && (Share.x (nth j dataSubset noShare)
                        =? Share.x (nth i dataSubset noShare))) js.

(** Some node of [idx] clashes with another node: the outer loop throws. *)
Definition anyClash (dataSubset : list Share.t) (idx : list nat) : bool :=
  existsb (fun i => clash dataSubset i (seq 0 (length dataSubset))) idx.

(** The two programs hold the same data in different shapes. *)
Definition pointOfShare (s : Share.t) : Point := (Share.x s, Share.y s).

Definition fractionOfRational (r : Rational.t) : Fraction.t :=
  Fraction.mk (Rational.num r) (Rational.den r).

Definition sameValue (f : Fraction.t) (r : Rational.t) : Prop :=
  f = fractionOfRational r.

(** Two runs agree: both throw, or both return related values. *)
Definition agree {S T : Type} (R : S -> T -> Prop)
  (a : result S) (b : result T) : Prop :=
  match a, b with
  | inl _, inl _ => True
  | inr u, inr v => R u v
  | _, _ => False
  end.

(** What one iteration of the tally loop computes from a combination:
    the key of the interpolated value and the subset. *)
Definition candidateOf (shares : list Share.t) (c : list nat)
  : result (Key * list Share.t) :=
  let subset := map (fun i => nth i shares noShare) c in
  candidate <- reconstructAtOrigin subset ;;
  ret (keyOf candidate, subset).

(** ... and how it updates the two maps. *)
Definition recordResult (st : Tally) (ks : Key * list Share.t) : Tally :=
  mkTally
    (mapSet (frequency st) (fst ks)
       ((match mapGet (frequency st) (fst ks) with Some v => v | None => 0 end) + 1))
    (if negb (mapHas (comboTrace st) (fst ks))
     then mapSet (comboTrace st) (fst ks) (snd ks)
     else comboTrace st).

(** Number of subsets that produced [key], and position of the first
    one in enumeration order ([length keys] when there is none). *)
Fixpoint countKey (key : Key) (keys : list Key) : Z :=
  match keys with
  | [] => 0
  | k' :: keys' => (if key_eqb k' key then 1 else 0) + countKey key keys'
  end.

Fixpoint firstIdx (key : Key) (keys : list Key) : nat :=
  match keys with
  | [] => 0
  | k' :: keys' => if key_eqb k' key then 0 else S (firstIdx key keys')
  end.

(** What the two maps hold once the results [rs] are recorded: every
    key is mapped to its number of occurrences, the keys of [frequency]
    come in the order of their first occurrence, and [comboTrace] maps a
    key to the subset of its first occurrence. *)
Definition tallyInv (rs : list (Key * list Share.t)) (st : Tally) : Prop :=
  (forall key,
      mapGet (frequency st) key
      = if countKey key (map fst rs) =? 0 then None
        else Some (countKey key (map fst rs)))
  /\ StronglySorted
       (fun a b => (firstIdx a (map fst rs) < firstIdx b (map fst rs))%nat)
       (map fst (frequency st))
  /\ (forall key, mapGet (comboTrace st) key = mapGet rs key).

(** The line of the consensus example. *)
Definition onLine (s : Share.t) : Prop := Share.y s = 2 * Share.x s + 3.

(** Where the chord through two shares meets the axis [x = 0], and the
    key under which the subset made of these two shares is tallied. *)
Definition chordAtZero (a b : Share.t) : Qc :=
  (Zc (Share.y a) * ((0 - Zc (Share.x b)) / (Zc (Share.x a) - Zc (Share.x b)))
   + Zc (Share.y b) * ((0 - Zc (Share.x a)) / (Zc (Share.x b) - Zc (Share.x a))))%Qc.

Definition pairKey (a b : Share.t) : Key :=
  match reconstructAtOrigin [a; b] with
  | inr r => keyOf r
  | inl _ => (0, 0)
  end.

(** The binomial coefficient C(n, k), by Pascal's rule. *)
Fixpoint binomial (n k : nat) : nat :=
  match n, k with
  | _, O => 1
  | O, S _ => 0
  | S n', S k' => binomial n' k' + binomial n' (S k')
  end.

(** [l] is strictly increasing and its elements are at least [lo]. *)
Fixpoint ascending (lo : nat) (l : list nat) : Prop :=
  match l with
  | [] => True
  | i :: l' => (lo <= i)%nat /\ ascending (S i) l'
  end.

Fixpoint pevalZ (p : list Z) (t : Z) : Z :=
  match p with
  | [] => 0
  | c :: p' => c + t * pevalZ p' t
  end.

(** ASCII digits and letters, and the digit value read off a
    character: 0-9 for digits, 10-35 for letters of either case. *)
Definition isAlnum (ch : ascii) : bool :=
  let c := charCode ch in
  ((48 <=? c) && (c <=? 57)) || ((65 <=? c) && (c <=? 90))
  || ((97 <=? c) && (c <=? 122)).

Definition digitValue (ch : ascii) : Z :=
  let c := charCode ch in
  if c <=? 57 then c - 48 else if c <=? 90 then c - 55 else c - 87.

(** Everything the two [charToDigit] do on one character, as a test. *)
Definition charToDigitCheck (ch : ascii) : bool :=
  match IndexJs.charToDigit ch with
  | inr d =>
      isAlnum ch && (d =? digitValue ch) && (0 <=? d) && (d <=? 35)
      && (charCode (toLowerCase ch) =? (if d <? 10 then d + 48 else d + 87))
      && match SecretJs.charToDigit ch with
         | inr d' => d' =? d
         | inl _ => false
         end
      && match IndexJs.charToDigit (toLowerCase ch) with
         | inr d' => d' =? d
         | inl _ => false
         end
  | inl (InvalidDigitChar c) =>
      negb (isAlnum ch) && Ascii.eqb c ch
      && match SecretJs.charToDigit ch with
         | inl (InvalidDigitChar c') => Ascii.eqb c' (toLowerCase ch)
         | _ => false
         end
  | inl (DigitNotBelowBase _ _) => false
  end.




Fixpoint allChars (P : ascii -> Prop) (s : string) : Prop :=
  match s with
  | EmptyString => True
  | String ch s' => P ch /\ allChars P s'
  end.


(** ** Running the model *)

Example gcd_ex : gcdBigInt (-12) 18 = 6.
Proof. reflexivity. Qed.

Example gcd_big : gcdBigInt 123456789012345678901234567890 987654321 = 9.
Proof. vm_compute. reflexivity. Qed.

Example combos_4_2 :
  chooseCombos 0%nat (seq 0 4) 2
  = [[0;1];[0;2];[0;3];[1;2];[1;3];[2;3]]%nat.
Proof. reflexivity. Qed.

Example reconstruct_line :
  reconstructAtOrigin [Share.mk 1 3; Share.mk 2 5; Share.mk 3 7]
  = inr (Rational.mk 1 1).
Proof. vm_compute. reflexivity. Qed.

Example recover_half :
  recoverSecretFromJSON [Share.mk 1 1; Share.mk 3 2] 2
  = inr (SecretFraction (Rational.mk 1 2) (Some [Share.mk 1 1; Share.mk 3 2])).
Proof. vm_compute. reflexivity. Qed.

Example recover_line_bad0 :
  recoverSecretFromJSON [Share.mk 1 5; Share.mk 2 7; Share.mk 3 9; Share.mk 0 7] 2
  = inr (Secret 7 (Some [Share.mk 0 7; Share.mk 1 5])).
Proof. vm_compute. reflexivity. Qed.

Example recover_k0 :
  recoverSecretFromJSON [Share.mk 1 5; Share.mk 2 7] 0 = inr (Secret 0 (Some [])).
Proof. vm_compute. reflexivity. Qed.

(** * Properties *)

(** ** The gcd loop *)

Lemma gcdLoop_enough (steps : nat) :
  forall a b, 0 <= b <= a ->
    b = 0 \/ Z.log2 a + Z.log2 b < Z.of_nat steps ->
    gcdLoop steps a b = Z.gcd a b.
Proof.
  induction steps as [|steps IH]; intros a b Hab Hfuel.
  - destruct Hfuel as [-> | Hlt].
    + cbn. rewrite Z.gcd_0_r, Z.abs_eq; lia.
    + pose proof (Z.log2_nonneg a). pose proof (Z.log2_nonneg b). lia.
  - cbn [gcdLoop]. destruct (Z.eqb_spec b 0) as [-> | Hb].
    + rewrite Z.gcd_0_r, Z.abs_eq; lia.
    + assert (Hr : 0 <= Z.rem a b < b) by (apply Z.rem_bound_pos; lia).
      rewrite IH.
      * rewrite (Z.gcd_comm b), Z.gcd_rem by assumption. apply Z.gcd_comm.
      * lia.
      * destruct (Z.eq_dec (Z.rem a b) 0) as [Hz | Hnz]; [now left | right].
        destruct Hfuel as [? | Hlt]; [lia |].
        assert (Hq : 1 <= Z.quot a b)
          by (apply Z.quot_le_lower_bound; lia).
        pose proof (Z.quot_rem' a b) as Hdiv.
        assert (H2 : 2 * Z.rem a b <= a) by nia.
        apply Z.log2_le_mono in H2.
        rewrite Z.log2_double in H2 by lia. lia.
Qed.

Lemma gcdLoop_S steps a b :
  gcdLoop (S steps) a b = if b =? 0 then a else gcdLoop steps b (Z.rem a b).
Proof. reflexivity. Qed.

Lemma gcdLoop_steps a b :
  0 <= a -> 0 <= b -> gcdLoop (gcdSteps a b) a b = Z.gcd a b.
Proof.
  intros Ha Hb. unfold gcdSteps.
  pose proof (Z.log2_nonneg a). pose proof (Z.log2_nonneg b).
  destruct (Z_le_gt_dec b a) as [Hle | Hgt].
  - apply gcdLoop_enough; [lia | right; lia].
  - rewrite gcdLoop_S. destruct (Z.eqb_spec b 0) as [-> | Hnz]; [lia |].
    rewrite Z.rem_small by lia.
    rewrite gcdLoop_enough; [apply Z.gcd_comm | lia | right; lia].
Qed.

Lemma gcdBigInt_spec a b : gcdBigInt a b = Z.gcd a b.
Proof.
  unfold gcdBigInt.
  destruct (Z.ltb_spec a 0), (Z.ltb_spec b 0);
    rewrite gcdLoop_steps by lia;
    rewrite ?Z.gcd_opp_l, ?Z.gcd_opp_r; reflexivity.
Qed.

Lemma bigGcd_spec a b : bigGcd a b = Z.gcd a b.
Proof. exact (gcdBigInt_spec a b). Qed.

(** ** Reduction to lowest terms *)

Lemma reduce_spec n d :
  0 < d ->
  let g := Z.gcd n d in
  0 < Z.quot d g /\ Z.gcd (Z.quot n g) (Z.quot d g) = 1
  /\ Z.quot n g * d = n * Z.quot d g.
Proof.
  intros Hd g.
  assert (Hg : 0 < g).
  { pose proof (Z.gcd_nonneg n d).
    destruct (Z.eq_dec g 0) as [E | E]; [| subst g; lia].
    apply Z.gcd_eq_0_r in E. lia. }
  destruct (Z.gcd_divide_l n d) as [a Ha].
  destruct (Z.gcd_divide_r n d) as [b Hb].
  assert (Hm : Z.gcd (g * a) (g * b) = g * Z.gcd a b)
    by (apply Z.gcd_mul_mono_l_nonneg; lia).
  rewrite (Z.mul_comm g a), (Z.mul_comm g b) in Hm.
  fold g in Ha, Hb. rewrite <- Ha, <- Hb in Hm. fold g in Hm.
  clearbody g.
  assert (Hqa : Z.quot n g = a) by (subst n; apply Z.quot_mul; lia).
  assert (Hqb : Z.quot d g = b) by (subst d; apply Z.quot_mul; lia).
  rewrite Hqa, Hqb. pose proof (Z.gcd_nonneg a b).
  repeat split; nia.
Qed.

Lemma Rational_new_spec n d :
  d <> 0 ->
  exists r, Rational.new n d = inr r /\ normal r
            /\ Rational.num r * d = n * Rational.den r.
Proof.
  intros Hd. unfold Rational.new.
  destruct (Z.eqb_spec d 0) as [? | _]; [contradiction |].
  rewrite gcdBigInt_spec. eexists; split; [reflexivity |].
  unfold normal; cbn [Rational.num Rational.den].
  destruct (Z.ltb_spec d 0) as [Hneg | Hpos].
  - destruct (reduce_spec (- n) (- d)) as (H1 & H2 & H3); [lia |].
    repeat split; [assumption | assumption | lia].
  - destruct (reduce_spec n d) as (H1 & H2 & H3); [lia |].
    repeat split; assumption.
Qed.

Lemma Fraction_new_Rational_new n d :
  Fraction.new n d
  = match Rational.new n d with
    | inl _ => inl DenominatorCannotBeZero
    | inr r => inr (Fraction.mk (Rational.num r) (Rational.den r))
    end.
Proof.
  unfold Fraction.new, Rational.new.
  destruct (d =? 0); [reflexivity |].
  rewrite bigGcd_spec, gcdBigInt_spec. reflexivity.
Qed.

Lemma normal_unique r1 r2 :
  normal r1 -> normal r2 ->
  Rational.num r1 * Rational.den r2 = Rational.num r2 * Rational.den r1 ->
  r1 = r2.
Proof.
  destruct r1 as [n1 d1], r2 as [n2 d2]. unfold normal; cbn.
  intros [Hd1 Hg1] [Hd2 Hg2] Hx.
  assert (H12 : (d1 | d2)).
  { apply Z.gauss with n1; [| now rewrite Z.gcd_comm].
    exists n2. exact Hx. }
  assert (H21 : (d2 | d1)).
  { apply Z.gauss with n2; [| now rewrite Z.gcd_comm].
    exists n1. symmetry. exact Hx. }
  assert (d1 = d2) by (apply Z.divide_antisym_nonneg; (lia || assumption)).
  subst d2. f_equal. nia.
Qed.

(** ** Rationals as canonical rationals *)

Ltac qc_canon :=
  apply Qc_is_canon; unfold Zc, toQc, Qcplus, Qcmult, Qcopp;
  cbn [this Q2Qc]; rewrite ?Qred_correct.

Lemma Zc_add a b : Zc (a + b) = (Zc a + Zc b)%Qc.
Proof. qc_canon. rewrite inject_Z_plus. reflexivity. Qed.

Lemma Zc_mul a b : Zc (a * b) = (Zc a * Zc b)%Qc.
Proof. qc_canon. rewrite inject_Z_mult. reflexivity. Qed.

Lemma Zc_opp a : Zc (- a) = (- Zc a)%Qc.
Proof. qc_canon. rewrite inject_Z_opp. reflexivity. Qed.

Lemma Zc_sub a b : Zc (a - b) = (Zc a - Zc b)%Qc.
Proof.
  unfold Z.sub, Qcminus. rewrite Zc_add, Zc_opp. reflexivity.
Qed.

Lemma Zc_inj a b : Zc a = Zc b -> a = b.
Proof.
  unfold Zc. intros H. apply Q2Qc_eq_iff in H.
  unfold Qeq in H. simpl in H. lia.
Qed.

Lemma Zc_nonzero z : z <> 0 -> Zc z <> 0%Qc.
Proof. intros Hz E. apply Hz. apply Zc_inj. exact E. Qed.

Lemma toQc_den r :
  0 < Rational.den r -> (toQc r * Zc (Rational.den r))%Qc = Zc (Rational.num r).
Proof.
  destruct r as [n d]; cbn [Rational.num Rational.den]. intros Hd.
  qc_canon. cbn [Rational.num Rational.den].
  destruct d as [| p | p]; try lia.
  unfold Qeq; simpl. rewrite Pos.mul_1_r. lia.
Qed.

Lemma toQc_frac r :
  0 < Rational.den r ->
  toQc r = (Zc (Rational.num r) / Zc (Rational.den r))%Qc.
Proof.
  intros Hd. rewrite <- (toQc_den r Hd). field.
  apply Zc_nonzero. lia.
Qed.

Lemma toQc_inj r1 r2 : normal r1 -> normal r2 -> toQc r1 = toQc r2 -> r1 = r2.
Proof.
  intros N1 N2 E. apply normal_unique; try assumption.
  destruct N1 as [D1 _], N2 as [D2 _].
  apply Zc_inj. rewrite !Zc_mul.
  rewrite <- (toQc_den r1 D1), <- (toQc_den r2 D2), E. ring.
Qed.

Lemma Rational_new_value n d :
  d <> 0 ->
  exists r, Rational.new n d = inr r /\ represents r (Zc n / Zc d)%Qc.
Proof.
  intros Hd. destruct (Rational_new_spec n d Hd) as (r & Hr & Hn & Hx).
  exists r. split; [assumption |]. split; [assumption |].
  destruct Hn as [Hpos _].
  apply (f_equal Zc) in Hx. rewrite !Zc_mul, <- (toQc_den r Hpos) in Hx.
  pose proof (Zc_nonzero d Hd) as Hd'.
  pose proof (Zc_nonzero (Rational.den r) ltac:(lia)) as Hr'.
  assert (E : (toQc r * Zc d = Zc n)%Qc).
  { transitivity (toQc r * Zc (Rational.den r) * Zc d / Zc (Rational.den r))%Qc;
      [field; assumption | rewrite Hx; field; assumption]. }
  rewrite <- E. field. assumption.
Qed.

Section RationalOps.
Variables (a b : Rational.t) (qa qb : Qc).
Hypothesis Ha : represents a qa.
Hypothesis Hb : represents b qb.

Let dens_nonzero : Rational.den a * Rational.den b <> 0.
Proof. destruct Ha as [[? _] _], Hb as [[? _] _]. nia. Qed.

Let Zc_den_a : Zc (Rational.den a) <> 0%Qc.
Proof. destruct Ha as [[? _] _]. apply Zc_nonzero. lia. Qed.

Let Zc_den_b : Zc (Rational.den b) <> 0%Qc.
Proof. destruct Hb as [[? _] _]. apply Zc_nonzero. lia. Qed.

Let qa_eq : qa = (Zc (Rational.num a) / Zc (Rational.den a))%Qc.
Proof. destruct Ha as [[? _] <-]. now apply toQc_frac. Qed.

Let qb_eq : qb = (Zc (Rational.num b) / Zc (Rational.den b))%Qc.
Proof. destruct Hb as [[? _] <-]. now apply toQc_frac. Qed.

Lemma Rational_add_value :
  exists r, Rational.add a b = inr r /\ represents r (qa + qb)%Qc.
Proof.
  unfold Rational.add.
  destruct (Rational_new_value
              (Rational.num a * Rational.den b + Rational.num b * Rational.den a)
              (Rational.den a * Rational.den b) dens_nonzero) as (r & Hr & Hn & Hv).
  exists r. split; [exact Hr |]. split; [exact Hn |].
  rewrite Hv, Zc_add, !Zc_mul, qa_eq, qb_eq. field. split; assumption.
Qed.

Lemma Rational_sub_value :
  exists r, Rational.sub a b = inr r /\ represents r (qa - qb)%Qc.
Proof.
  unfold Rational.sub.
  destruct (Rational_new_value
              (Rational.num a * Rational.den b - Rational.num b * Rational.den a)
              (Rational.den a * Rational.den b) dens_nonzero) as (r & Hr & Hn & Hv).
  exists r. split; [exact Hr |]. split; [exact Hn |].
  rewrite Hv, Zc_sub, !Zc_mul, qa_eq, qb_eq. field. split; assumption.
Qed.

Lemma Rational_mul_value :
  exists r, Rational.mul a b = inr r /\ represents r (qa * qb)%Qc.
Proof.
  unfold Rational.mul.
  destruct (Rational_new_value
              (Rational.num a * Rational.num b)
              (Rational.den a * Rational.den b) dens_nonzero) as (r & Hr & Hn & Hv).
  exists r. split; [exact Hr |]. split; [exact Hn |].
  rewrite Hv, !Zc_mul, qa_eq, qb_eq. field. split; assumption.
Qed.

Lemma Rational_neg_value :
  exists r, Rational.neg a = inr r /\ represents r (- qa)%Qc.
Proof.
  unfold Rational.neg.
  assert (Hd : Rational.den a <> 0) by (destruct Ha as [[? _] _]; lia).
  destruct (Rational_new_value (- Rational.num a) (Rational.den a) Hd)
    as (r & Hr & Hn & Hv).
  exists r. split; [exact Hr |]. split; [exact Hn |].
  rewrite Hv, Zc_opp, qa_eq. field. assumption.
Qed.

Lemma Rational_div_value :
  Rational.num b <> 0 ->
  exists r, Rational.div a b = inr r /\ represents r (qa / qb)%Qc.
Proof.
  intros Hnb. unfold Rational.div.
  destruct (Z.eqb_spec (Rational.num b) 0) as [? | _]; [contradiction |].
  assert (Hd : Rational.den a * Rational.num b <> 0)
    by (destruct Ha as [[? _] _]; nia).
  destruct (Rational_new_value (Rational.num a * Rational.den b)
              (Rational.den a * Rational.num b) Hd) as (r & Hr & Hn & Hv).
  exists r. split; [exact Hr |]. split; [exact Hn |].
  pose proof (Zc_nonzero _ Hnb).
  rewrite Hv, !Zc_mul, qa_eq, qb_eq. field. repeat split; assumption.
Qed.
End RationalOps.

Lemma represents_self r : normal r -> represents r (toQc r).
Proof. intros Hn. split; [assumption | reflexivity]. Qed.

(** ** What [reconstructAtOrigin] computes *)

Lemma Rational_new_1 n : Rational.new n 1 = inr (Rational.mk n 1).
Proof.
  unfold Rational.new. cbn [Z.eqb Z.ltb Z.compare].
  rewrite gcdBigInt_spec, Z.gcd_1_r, !Z.quot_1_r. reflexivity.
Qed.

Lemma normal_int n : normal (Rational.mk n 1).
Proof. split; cbn; [lia | apply Z.gcd_1_r]. Qed.

Lemma toQc_int n : toQc (Rational.mk n 1) = Zc n.
Proof. reflexivity. Qed.

Lemma represents_int n : represents (Rational.mk n 1) (Zc n).
Proof. split; [apply normal_int | apply toQc_int]. Qed.

Section Reconstruct.
Variable dataSubset : list Share.t.

Let xs : list Qc := map (fun s => Zc (Share.x s)) dataSubset.
Let ys : list Qc := map (fun s => Zc (Share.y s)) dataSubset.

Lemma nth_xs j : nth j xs 0%Qc = Zc (Share.x (nth j dataSubset noShare)).
Proof.
  unfold xs. change 0%Qc with ((fun s => Zc (Share.x s)) noShare).
  apply map_nth.
Qed.

Lemma nth_ys j : nth j ys 0%Qc = Zc (Share.y (nth j dataSubset noShare)).
Proof.
  unfold ys. change 0%Qc with ((fun s => Zc (Share.y s)) noShare).
  apply map_nth.
Qed.

Lemma basis_loop (i : nat) (js : list nat) :
  forall acc q, represents acc q ->
  match forLoop (fun j basisPoly =>
          if (j =? i)%nat then ret basisPoly else
          let xOther := Share.x (nth j dataSubset noShare) in
          numerator <- Rational.new (- xOther) 1 ;;
          denominator <-
            Rational.new (Share.x (nth i dataSubset noShare) - xOther) 1 ;;
          q <- Rational.div numerator denominator ;;
          Rational.mul basisPoly q) js acc
  with
  | inl e => e = DivideByZero /\ clash dataSubset i js = true
  | inr r => clash dataSubset i js = false
             /\ represents r (q * prodQc (lagrangeFactor xs 0%Qc i) js)%Qc
  end.
Proof.
  induction js as [| j js IH]; intros acc q Hacc.
  - cbn. split; [reflexivity |]. destruct Hacc as [Hn Hv].
    split; [assumption |]. rewrite Hv. ring.
  - cbn [forLoop clash existsb prodQc]. fold (clash dataSubset i js).
    unfold lagrangeFactor at 1.
    destruct (Nat.eqb_spec j i) as [-> | Hji].
    + cbn [bind ret negb andb orb].
      specialize (IH acc q Hacc).
      replace (q * (1 * prodQc (lagrangeFactor xs 0%Qc i) js))%Qc
        with (q * prodQc (lagrangeFactor xs 0%Qc i) js)%Qc by ring.
      exact IH.
    + rewrite !Rational_new_1. cbn [bind negb andb].
      unfold Rational.div. cbn [Rational.num Rational.den].
      set (xi := Share.x (nth i dataSubset noShare)).
      set (xj := Share.x (nth j dataSubset noShare)).
      rewrite (Z.eqb_sym xj xi).
      destruct (Z.eqb_spec (xi - xj) 0) as [E0 | Hne].
      * cbn [bind throw]. split; [reflexivity |].
        replace (xi =? xj) with true by (symmetry; apply Z.eqb_eq; lia).
        reflexivity.
      * replace (xi =? xj) with false by (symmetry; apply Z.eqb_neq; lia).
        cbn [orb].
        assert (Hd : 1 * (xi - xj) <> 0) by lia.
        destruct (Rational_new_value (- xj * 1) (1 * (xi - xj)) Hd)
          as (f & Hf & Hfr).
        rewrite Hf. cbn [bind].
        destruct (Rational_mul_value acc f _ _ Hacc Hfr) as (m & Hm & Hmr).
        rewrite Hm. specialize (IH m _ Hmr).
        rewrite !nth_xs. fold xi xj.
        assert (Hq : (Zc xi - Zc xj)%Qc <> 0%Qc)
          by (rewrite <- Zc_sub; apply Zc_nonzero; exact Hne).
        replace (q * ((0 - Zc xj) / (Zc xi - Zc xj)
                      * prodQc (lagrangeFactor xs 0%Qc i) js))%Qc
          with (q * (Zc (- xj * 1) / Zc (1 * (xi - xj)))
                * prodQc (lagrangeFactor xs 0%Qc i) js)%Qc.
        -- exact IH.
        -- rewrite !Zc_mul, Zc_opp, Zc_sub.
           change (Zc 1) with 1%Qc. field. exact Hq.
Qed.

Lemma length_xs : length xs = length dataSubset.
Proof. apply length_map. Qed.

Lemma total_loop (idx : list nat) :
  forall total q, represents total q ->
  match forLoop (fun i total =>
      let xPos := Share.x (nth i dataSubset noShare) in
      yVal <- Rational.fromBigInt (Share.y (nth i dataSubset noShare)) ;;
      basisPoly0 <- Rational.fromBigInt 1 ;;
      basisPoly <- forLoop (fun j basisPoly =>
          if (j =? i)%nat then ret basisPoly else
          let xOther := Share.x (nth j dataSubset noShare) in
          numerator <- Rational.new (- xOther) 1 ;;
          denominator <- Rational.new (xPos - xOther) 1 ;;
          q <- Rational.div numerator denominator ;;
          Rational.mul basisPoly q)
        (seq 0 (length dataSubset)) basisPoly0 ;;
      term <- Rational.mul yVal basisPoly ;;
      Rational.add total term) idx total
  with
  | inl e => e = DivideByZero /\ anyClash dataSubset idx = true
  | inr r => anyClash dataSubset idx = false
             /\ represents r
                  (q + sumQc (fun i => nth i ys 0 * lagrangeBasis xs 0 i) idx)%Qc
  end.
Proof.
  induction idx as [| i idx IH]; intros total q Htot.
  - cbn. split; [reflexivity |]. destruct Htot as [Hn Hv].
    split; [assumption |]. rewrite Hv. ring.
  - cbn [forLoop anyClash existsb sumQc]. fold (anyClash dataSubset idx).
    unfold Rational.fromBigInt. rewrite !Rational_new_1.
    cbn [bind].
    pose proof (basis_loop i (seq 0 (length dataSubset)) _ _ (represents_int 1))
      as Hb.
    cbv zeta.
    destruct (forLoop _ (seq 0 (length dataSubset)) (Rational.mk 1 1))
      as [e | basisPoly] eqn:Hloop.
    + destruct Hb as [-> ->]. cbn. split; reflexivity.
    + destruct Hb as [-> Hbr]. cbn [bind orb].
      destruct (Rational_mul_value _ _ _ _
                  (represents_int (Share.y (nth i dataSubset noShare))) Hbr)
        as (term & Hterm & Htr).
      rewrite Hterm. cbn [bind].
      destruct (Rational_add_value _ _ _ _ Htot Htr) as (t' & Ht' & Ht'r).
      rewrite Ht'. specialize (IH t' _ Ht'r).
      unfold lagrangeBasis at 1. rewrite length_xs, nth_ys.
      change (Zc 1) with 1%Qc in IH.
      replace (q + (Zc (Share.y (nth i dataSubset noShare))
                    * prodQc (lagrangeFactor xs 0 i) (seq 0 (length dataSubset))
                    + sumQc (fun i0 => nth i0 ys 0 * lagrangeBasis xs 0 i0) idx))%Qc
        with (q + Zc (Share.y (nth i dataSubset noShare))
                  * (1 * prodQc (lagrangeFactor xs 0 i) (seq 0 (length dataSubset)))
              + sumQc (fun i0 => nth i0 ys 0 * lagrangeBasis xs 0 i0) idx)%Qc
        by ring.
      exact IH.
Qed.

Lemma reconstructAtOrigin_sem :
  match reconstructAtOrigin dataSubset with
  | inl e => e = DivideByZero
             /\ anyClash dataSubset (seq 0 (length dataSubset)) = true
  | inr r => anyClash dataSubset (seq 0 (length dataSubset)) = false
             /\ represents r (lagrangeSum xs ys 0)
  end.
Proof.
  unfold reconstructAtOrigin, Rational.zero. rewrite Rational_new_1.
  cbn [bind].
  pose proof (total_loop (seq 0 (length dataSubset)) _ _ (represents_int 0))
    as H.
  destruct (forLoop _ (seq 0 (length dataSubset)) (Rational.mk 0 1))
    as [e | r]; [exact H |].
  destruct H as [Hc Hr]. split; [exact Hc |].
  unfold lagrangeSum. rewrite length_xs.
  change (Zc 0) with 0%Qc in Hr. rewrite Qcplus_0_l in Hr. exact Hr.
Qed.

Lemma anyClash_false_iff :
  anyClash dataSubset (seq 0 (length dataSubset)) = false
  <-> NoDup (map Share.x dataSubset).
Proof.
  unfold anyClash, clash. split.
  - intros H. apply (NoDup_nth _ 0). rewrite length_map.
    intros i j Hi Hj E.
    change 0 with (Share.x noShare) in E. rewrite !map_nth in E.
    destruct (Nat.eq_dec i j) as [? | Hne]; [assumption | exfalso].
    assert (Hex : existsb (fun i0 =>
             existsb (fun j0 => negb (j0 =? i0)%nat
                && (Share.x (nth j0 dataSubset noShare)
                    =? Share.x (nth i0 dataSubset noShare)))
               (seq 0 (length dataSubset))) (seq 0 (length dataSubset)) = true).
    { apply existsb_exists. exists i. split; [apply in_seq; lia |].
      apply existsb_exists. exists j. split; [apply in_seq; lia |].
      apply andb_true_iff. split.
      - apply negb_true_iff, Nat.eqb_neq. congruence.
      - apply Z.eqb_eq. congruence. }
    congruence.
  - intros Hnd.
    destruct (existsb _ (seq 0 (length dataSubset))) eqn:Hex; [| reflexivity].
    exfalso. apply existsb_exists in Hex. destruct Hex as (i & Hi & Hex).
    apply existsb_exists in Hex. destruct Hex as (j & Hj & Hex).
    apply andb_true_iff in Hex. destruct Hex as [Hne Heq].
    apply negb_true_iff, Nat.eqb_neq in Hne. apply Z.eqb_eq in Heq.
    apply in_seq in Hi. apply in_seq in Hj.
    apply Hne.
    apply (proj1 (NoDup_nth (map Share.x dataSubset) 0) Hnd);
      rewrite ?length_map; try lia.
    change 0 with (Share.x noShare). rewrite !map_nth. exact Heq.
Qed.
End Reconstruct.

(** ** Polynomials and Lagrange interpolation over the rationals *)

Section PolynomialFacts.
Local Open Scope Qc_scope.

Lemma peval_padd p q t : peval (padd p q) t = peval p t + peval q t.
Proof.
  revert q. induction p as [| c p IH]; intros [| e q]; cbn; try ring.
  rewrite IH. ring.
Qed.

Lemma length_padd p q : length (padd p q) = Nat.max (length p) (length q).
Proof.
  revert q. induction p as [| c p IH]; intros [| e q]; cbn; try reflexivity.
  now rewrite IH.
Qed.

Lemma peval_pscale c p t : peval (pscale c p) t = c * peval p t.
Proof.
  induction p as [| e p IH]; cbn; [ring |].
  fold (pscale c p). rewrite IH. ring.
Qed.

Lemma length_pscale c p : length (pscale c p) = length p.
Proof. apply length_map. Qed.

Lemma pdivlin_spec a p t :
  peval p t = peval p a + (t - a) * peval (pdivlin a p) t.
Proof.
  induction p as [| c p IH]; cbn [pdivlin peval]; [ring |].
  destruct p as [| e p]; [cbn; ring |].
  cbn [peval] in *. rewrite IH. ring.
Qed.

Lemma length_pdivlin a p : length (pdivlin a p) = pred (length p).
Proof.
  induction p as [| c p IH]; [reflexivity |].
  cbn [pdivlin]. destruct p as [| e p]; [reflexivity |].
  cbn [length] in *. now rewrite IH.
Qed.

Lemma polyfun_ext d f g : (forall t, f t = g t) -> polyfun d g -> polyfun d f.
Proof.
  intros E (p & Hl & Hp). exists p. split; [assumption |].
  intros t. now rewrite E.
Qed.

Lemma polyfun_le d d' f : (d <= d')%nat -> polyfun d f -> polyfun d' f.
Proof. intros Hle (p & Hl & Hp). exists p. split; [lia | assumption]. Qed.

Lemma polyfun_zero d : polyfun d (fun _ => 0).
Proof. exists []. split; [cbn; lia | reflexivity]. Qed.

Lemma polyfun_const c : polyfun 1 (fun _ => c).
Proof. exists [c]. split; [cbn; lia | intros t; cbn; ring]. Qed.

Lemma polyfun_add d f g :
  polyfun d f -> polyfun d g -> polyfun d (fun t => f t + g t).
Proof.
  intros (p & Hlp & Hp) (q & Hlq & Hq). exists (padd p q). split.
  - rewrite length_padd. lia.
  - intros t. now rewrite peval_padd, Hp, Hq.
Qed.

Lemma polyfun_scale d c f : polyfun d f -> polyfun d (fun t => c * f t).
Proof.
  intros (p & Hl & Hp). exists (pscale c p). split.
  - now rewrite length_pscale.
  - intros t. now rewrite peval_pscale, Hp.
Qed.

Lemma polyfun_mul_linear d a c f :
  polyfun d f -> polyfun (S d) (fun t => (t - a) / c * f t).
Proof.
  intros (p & Hl & Hp).
  exists (pscale (/ c) (padd (0 :: p) (pscale (- a) p))). split.
  - rewrite length_pscale, length_padd, length_pscale. cbn [length]. lia.
  - intros t. rewrite peval_pscale, peval_padd, peval_pscale, Hp.
    cbn [peval]. unfold Qcdiv. ring.
Qed.

(** A polynomial of degree less than [n] with [n] distinct roots
    vanishes everywhere. *)
Lemma polyfun_roots xs :
  forall f, NoDup xs -> polyfun (length xs) f ->
            (forall x, In x xs -> f x = 0) -> forall t, f t = 0.
Proof.
  induction xs as [| a xs IH]; intros f Hnd (p & Hl & Hp) Hroot t.
  - destruct p; [| cbn in Hl; lia]. now rewrite Hp.
  - inversion Hnd as [| ? ? Hnotin Hnd']; subst.
    assert (Hq : forall u, peval (pdivlin a p) u = 0).
    { apply IH; [assumption | |].
      - exists (pdivlin a p). split; [| reflexivity].
        rewrite length_pdivlin. cbn in Hl. lia.
      - intros x Hx.
        assert (Hfx : f x = 0) by (apply Hroot; now right).
        assert (Hfa : f a = 0) by (apply Hroot; now left).
        rewrite Hp, (pdivlin_spec a p x), <- Hp, Hfa, Qcplus_0_l in Hfx.
        apply Qcmult_integral in Hfx. destruct Hfx as [E | E]; [| exact E].
        exfalso. apply Hnotin.
        replace a with x; [exact Hx |].
        transitivity (x - a + a); [| rewrite E]; ring. }
    rewrite Hp, (pdivlin_spec a p t), Hq, <- Hp.
    rewrite (Hroot a (or_introl eq_refl)). ring.
Qed.

Lemma prodQc_ones f js : (forall j, In j js -> f j = 1) -> prodQc f js = 1.
Proof.
  induction js as [| j js IH]; intros H; cbn; [reflexivity |].
  rewrite H, IH; [ring | | now left].
  intros j' Hj'. apply H. now right.
Qed.

Lemma prodQc_zero f js j : In j js -> f j = 0 -> prodQc f js = 0.
Proof.
  induction js as [| j' js IH]; intros Hin Hz; [contradiction |].
  cbn. destruct Hin as [-> | Hin].
  - rewrite Hz. ring.
  - rewrite IH by assumption. ring.
Qed.

Lemma sumQc_single f idx m :
  NoDup idx -> In m idx -> (forall i, In i idx -> i <> m -> f i = 0) ->
  sumQc f idx = f m.
Proof.
  induction idx as [| i idx IH]; intros Hnd Hin Hz; [contradiction |].
  inversion Hnd as [| ? ? Hnotin Hnd']; subst. cbn.
  destruct Hin as [-> | Hin].
  - assert (E : sumQc f idx = 0).
    { clear IH Hnd Hnd'. induction idx as [| i idx IH]; [reflexivity |].
      cbn. rewrite (Hz i), IH.
      - ring.
      - intro H. apply Hnotin. now right.
      - intros i' Hi' Hne. apply Hz; [| assumption].
        destruct Hi' as [-> | Hi']; [now left | right; now right].
      - right; now left.
      - intros ->. apply Hnotin. now left. }
    rewrite E. ring.
  - rewrite IH; try assumption.
    + rewrite (Hz i); [ring | now left |].
      intros ->. contradiction.
    + intros i' Hi' Hne. apply Hz; [now right | assumption].
Qed.

Lemma filter_neq_seq_out i len :
  forall s, (i < s \/ s + len <= i)%nat ->
    filter (fun j => negb (j =? i)%nat) (seq s len) = seq s len.
Proof.
  induction len as [| len IH]; intros s Hout; [reflexivity |].
  cbn [seq filter].
  destruct (Nat.eqb_spec s i) as [-> | Hne]; [lia |].
  cbn [negb]. f_equal. apply IH. lia.
Qed.

Lemma filter_neq_seq_in i len :
  forall s, (s <= i < s + len)%nat ->
    length (filter (fun j => negb (j =? i)%nat) (seq s len)) = (len - 1)%nat.
Proof.
  induction len as [| len IH]; intros s Hin; [lia |].
  cbn [seq filter].
  destruct (Nat.eqb_spec s i) as [-> | Hne]; cbn [negb length].
  - rewrite filter_neq_seq_out by lia. rewrite length_seq. lia.
  - rewrite IH by lia. lia.
Qed.

Section Lagrange.
Variables xs ys : list Qc.
Hypothesis xs_distinct : NoDup xs.

Lemma polyfun_basis_over i js :
  polyfun (S (length (filter (fun j => negb (j =? i)%nat) js)))
          (fun t => prodQc (lagrangeFactor xs t i) js).
Proof.
  induction js as [| j js IH]; cbn [prodQc filter].
  - apply polyfun_const.
  - unfold lagrangeFactor at 1.
    destruct (Nat.eqb_spec j i) as [-> | Hne]; cbn [negb length].
    + apply polyfun_ext with (2 := IH). intros t. ring.
    + apply polyfun_mul_linear. exact IH.
Qed.

Lemma polyfun_basis i :
  (i < length xs)%nat -> polyfun (length xs) (fun t => lagrangeBasis xs t i).
Proof.
  intros Hi. unfold lagrangeBasis.
  apply polyfun_le with (2 := polyfun_basis_over i (seq 0 (length xs))).
  rewrite filter_neq_seq_in by lia. lia.
Qed.

Lemma polyfun_sum (c : nat -> Qc) idx :
  (forall i, In i idx -> (i < length xs)%nat) ->
  polyfun (length xs)
          (fun t => sumQc (fun i => c i * lagrangeBasis xs t i) idx).
Proof.
  induction idx as [| i idx IH]; intros Hlt; cbn [sumQc].
  - apply polyfun_zero.
  - apply polyfun_add.
    + apply polyfun_scale. apply polyfun_basis. apply Hlt. now left.
    + apply IH. intros i' Hi'. apply Hlt. now right.
Qed.

Lemma lagrangeBasis_node i m :
  (i < length xs)%nat -> (m < length xs)%nat ->
  lagrangeBasis xs (nth m xs 0) i = if (i =? m)%nat then 1 else 0.
Proof.
  intros Hi Hm. unfold lagrangeBasis.
  destruct (Nat.eqb_spec i m) as [-> | Hne].
  - apply prodQc_ones. intros j Hj. apply in_seq in Hj.
    unfold lagrangeFactor.
    destruct (Nat.eqb_spec j m) as [? | Hjm]; [reflexivity |].
    field. intros E. apply Hjm.
    apply (proj1 (NoDup_nth xs 0) xs_distinct); try lia.
    symmetry. transitivity (nth m xs 0 - nth j xs 0 + nth j xs 0);
      [ring | rewrite E; ring].
  - apply prodQc_zero with m; [apply in_seq; lia |].
    unfold lagrangeFactor.
    destruct (Nat.eqb_spec m i) as [? | _]; [congruence |].
    unfold Qcdiv. ring.
Qed.

Lemma lagrangeSum_node m :
  (m < length xs)%nat -> lagrangeSum xs ys (nth m xs 0) = nth m ys 0.
Proof.
  intros Hm. unfold lagrangeSum.
  rewrite (sumQc_single _ _ m).
  - rewrite lagrangeBasis_node by assumption.
    rewrite Nat.eqb_refl. ring.
  - apply seq_NoDup.
  - apply in_seq. lia.
  - intros i Hi Hne. apply in_seq in Hi.
    rewrite lagrangeBasis_node by lia.
    destruct (Nat.eqb_spec i m); [contradiction | ring].
Qed.

(** Lagrange interpolation reproduces every polynomial of degree
    less than the number of nodes. *)
Lemma lagrangeSum_exact p :
  (length p <= length xs)%nat ->
  (forall i, (i < length xs)%nat -> nth i ys 0 = peval p (nth i xs 0)) ->
  forall t, lagrangeSum xs ys t = peval p t.
Proof.
  intros Hl Hy t.
  assert (H0 : lagrangeSum xs ys t + (- (1)) * peval p t = 0).
  { apply (polyfun_roots xs
             (fun t => lagrangeSum xs ys t + (- (1)) * peval p t)).
    - exact xs_distinct.
    - apply polyfun_add.
      + unfold lagrangeSum. apply polyfun_sum.
        intros i Hi. apply in_seq in Hi. lia.
      + apply polyfun_scale. exists p. split; [assumption | reflexivity].
    - intros x Hx. destruct (In_nth xs x 0 Hx) as (m & Hm & <-).
      rewrite lagrangeSum_node, Hy by assumption. ring. }
  transitivity (lagrangeSum xs ys t + - (1) * peval p t + peval p t);
    [ring | rewrite H0; ring].
Qed.
End Lagrange.
End PolynomialFacts.

(** ** Interpolation results *)

Lemma reconstructAtOrigin_distinct (dataSubset : list Share.t) :
  NoDup (map Share.x dataSubset) ->
  exists r, reconstructAtOrigin dataSubset = inr r
            /\ represents r
                 (lagrangeSum (map (fun s => Zc (Share.x s)) dataSubset)
                              (map (fun s => Zc (Share.y s)) dataSubset) 0%Qc).
Proof.
  intros Hnd. apply anyClash_false_iff in Hnd.
  pose proof (reconstructAtOrigin_sem dataSubset) as H.
  destruct (reconstructAtOrigin dataSubset) as [e | r].
  - destruct H as [_ H]. congruence.
  - exists r. split; [reflexivity | apply H].
Qed.

Lemma reconstructAtOrigin_clash (dataSubset : list Share.t) :
  ~ NoDup (map Share.x dataSubset) ->
  reconstructAtOrigin dataSubset = inl DivideByZero.
Proof.
  intros Hnd.
  pose proof (reconstructAtOrigin_sem dataSubset) as H.
  destruct (reconstructAtOrigin dataSubset) as [e | r].
  - destruct H as [-> _]. reflexivity.
  - destruct H as [H _]. apply anyClash_false_iff in H. contradiction.
Qed.

Lemma peval_Zc (p : list Z) (t : Z) :
  peval (map Zc p) (Zc t) = Zc (pevalZ p t).
Proof.
  induction p as [| c p IH]; cbn [map peval pevalZ]; [reflexivity |].
  now rewrite IH, Zc_add, Zc_mul.
Qed.

Lemma NoDup_map_Zc (dataSubset : list Share.t) :
  NoDup (map Share.x dataSubset) ->
  NoDup (map (fun s => Zc (Share.x s)) dataSubset).
Proof.
  intros H. rewrite <- (map_map Share.x Zc).
  apply NoDup_map_NoDup_ForallPairs; [| assumption].
  intros u v _ _. apply Zc_inj.
Qed.

(** C2: for points with pairwise-distinct x-coordinates that lie on a
    polynomial with integer coefficients [coeffs] of degree less than the
    number of points, [reconstructAtOrigin] returns exactly the value of
    that polynomial at 0, as the rational [p(0)/1]; no bound on the size
    of the coordinates is needed. *)
Theorem reconstructAtOrigin_exact (coeffs : list Z) (dataSubset : list Share.t) :
  NoDup (map Share.x dataSubset) ->
  (length coeffs <= length dataSubset)%nat ->
  (forall s, In s dataSubset -> Share.y s = pevalZ coeffs (Share.x s)) ->
  reconstructAtOrigin dataSubset = inr (Rational.mk (pevalZ coeffs 0) 1).
Proof.
  intros Hnd Hlen Hon.
  destruct (reconstructAtOrigin_distinct dataSubset Hnd) as (r & Hr & Hn & Hv).
  rewrite Hr. f_equal.
  apply toQc_inj; [assumption | apply normal_int |].
  rewrite Hv, toQc_int.
  rewrite (lagrangeSum_exact _ _ (NoDup_map_Zc _ Hnd) (map Zc coeffs)).
  - change 0%Qc with (Zc 0). apply peval_Zc.
  - now rewrite !length_map.
  - rewrite length_map. intros i Hi.
    rewrite nth_xs, nth_ys, peval_Zc. f_equal.
    apply Hon. now apply nth_In.
Qed.


Lemma reconstructAtOrigin_exact_witness :
  NoDup (map Share.x [Share.mk 1 3; Share.mk 2 5; Share.mk 3 7])
  /\ (length [1; 2] <= length [Share.mk 1 3; Share.mk 2 5; Share.mk 3 7])%nat
  /\ (forall s, In s [Share.mk 1 3; Share.mk 2 5; Share.mk 3 7] ->
                Share.y s = pevalZ [1; 2] (Share.x s))
  /\ reconstructAtOrigin [Share.mk 1 3; Share.mk 2 5; Share.mk 3 7]
     = inr (Rational.mk 1 1).
Proof.
  assert (Hnd : NoDup (map Share.x [Share.mk 1 3; Share.mk 2 5; Share.mk 3 7])).
  { repeat constructor; simpl; intuition discriminate. }
  assert (Hon : forall s, In s [Share.mk 1 3; Share.mk 2 5; Share.mk 3 7] ->
                          Share.y s = pevalZ [1; 2] (Share.x s)).
  { intros s [<- | [<- | [<- | []]]]; reflexivity. }
  split; [exact Hnd |]. split; [simpl; lia |]. split; [exact Hon |].
  apply (reconstructAtOrigin_exact [1; 2]); [exact Hnd | simpl; lia | exact Hon].
Defined.

(** ** The two interpolation engines *)

Lemma agree_bind {S T S' T' : Type} (R : S -> T -> Prop) (R' : S' -> T' -> Prop)
  (m1 : result S) (m2 : result T) (k1 : S -> result S') (k2 : T -> result T') :
  agree R m1 m2 ->
  (forall u v, R u v -> agree R' (k1 u) (k2 v)) ->
  agree R' (bind m1 k1) (bind m2 k2).
Proof.
  destruct m1, m2; cbn; intros H Hk; try contradiction; auto.
Qed.

Lemma agree_forLoop {S T : Type} (R : S -> T -> Prop)
  (body1 : nat -> S -> result S) (body2 : nat -> T -> result T) (idx : list nat) :
  (forall i u v, R u v -> agree R (body1 i u) (body2 i v)) ->
  forall u v, R u v -> agree R (forLoop body1 idx u) (forLoop body2 idx v).
Proof.
  intros Hbody. induction idx as [| i idx IH]; intros u v Huv; cbn [forLoop].
  - exact Huv.
  - apply agree_bind with R; [now apply Hbody | exact IH].
Qed.

Lemma agree_new n d : agree sameValue (Fraction.new n d) (Rational.new n d).
Proof.
  rewrite Fraction_new_Rational_new.
  destruct (Rational.new n d); cbn; [exact I | reflexivity].
Qed.

Lemma agree_mul f r g s :
  sameValue f r -> sameValue g s ->
  agree sameValue (Fraction.mul f g) (Rational.mul r s).
Proof. intros -> ->. apply agree_new. Qed.

Lemma agree_add f r g s :
  sameValue f r -> sameValue g s ->
  agree sameValue (Fraction.add f g) (Rational.add r s).
Proof. intros -> ->. apply agree_new. Qed.

Lemma nth_pointOfShare (dataSubset : list Share.t) i :
  nth i (map pointOfShare dataSubset) (0, 0)
  = pointOfShare (nth i dataSubset noShare).
Proof. apply (map_nth pointOfShare dataSubset noShare). Qed.

Lemma engines_agree (dataSubset : list Share.t) :
  agree sameValue (lagrangeAtZeroFraction (map pointOfShare dataSubset))
                  (reconstructAtOrigin dataSubset).
Proof.
  unfold lagrangeAtZeroFraction, reconstructAtOrigin, Rational.zero.
  rewrite length_map.
  apply agree_bind with sameValue; [apply agree_new |].
  apply agree_forLoop. intros i res total Hres.
  rewrite nth_pointOfShare. cbn [pointOfShare fst snd].
  apply agree_bind with sameValue; [apply agree_new |]. intros yi yVal Hy.
  apply agree_bind with sameValue; [apply agree_new |]. intros Li0 basis0 H0.
  apply agree_bind with sameValue.
  - apply agree_forLoop; [| exact H0]. intros j Li basisPoly HLi.
    destruct (j =? i)%nat; [exact HLi |].
    rewrite nth_pointOfShare. cbn [pointOfShare fst].
    rewrite !Rational_new_1. cbn [bind].
    unfold Rational.div. cbn [Rational.num Rational.den].
    rewrite Z.mul_1_r, Z.mul_1_l.
    set (xi := Share.x (nth i dataSubset noShare)).
    set (xj := Share.x (nth j dataSubset noShare)).
    destruct (Z.eqb_spec (xi - xj) 0) as [E | Hne].
    + rewrite E. cbn. exact I.
    + apply agree_bind with sameValue; [apply agree_new |].
      intros f q Hf. now apply agree_mul.
  - intros Li basisPoly HLi.
    apply agree_bind with sameValue; [now apply agree_mul |].
    intros term term' Ht. now apply agree_add.
Qed.

(** C10: on points with pairwise-distinct x-coordinates the Fraction
    engine of the first program and the Rational engine of the second
    both return, and return the same reduced rational: equal numerators
    and equal denominators.  (The list may also be empty.) *)
Theorem lagrangeAtZeroFraction_reconstructAtOrigin (dataSubset : list Share.t) :
  NoDup (map Share.x dataSubset) ->
  exists f r,
    lagrangeAtZeroFraction (map pointOfShare dataSubset) = inr f
    /\ reconstructAtOrigin dataSubset = inr r
    /\ normal r
    /\ Fraction.n f = Rational.num r /\ Fraction.d f = Rational.den r.
Proof.
  intros Hnd.
  destruct (reconstructAtOrigin_distinct dataSubset Hnd) as (r & Hr & Hn & _).
  pose proof (engines_agree dataSubset) as H. rewrite Hr in H.
  destruct (lagrangeAtZeroFraction (map pointOfShare dataSubset)) as [e | f];
    [contradiction |].
  exists f, r. cbn in H. rewrite H.
  split; [reflexivity |]. split; [exact Hr |]. split; [exact Hn |].
  split; reflexivity.
Qed.

Lemma lagrangeAtZeroFraction_reconstructAtOrigin_witness :
  NoDup (map Share.x [Share.mk 1 1; Share.mk 3 2])
  /\ exists f r,
       lagrangeAtZeroFraction (map pointOfShare [Share.mk 1 1; Share.mk 3 2]) = inr f
       /\ reconstructAtOrigin [Share.mk 1 1; Share.mk 3 2] = inr r
       /\ normal r
       /\ Fraction.n f = Rational.num r /\ Fraction.d f = Rational.den r.
Proof.
  assert (Hnd : NoDup (map Share.x [Share.mk 1 1; Share.mk 3 2])).
  { repeat constructor; simpl; intuition discriminate. }
  split; [exact Hnd |].
  apply (lagrangeAtZeroFraction_reconstructAtOrigin _ Hnd).
Defined.

(** ** The [Rational] class *)

Lemma Rational_new_zero d : d <> 0 -> Rational.new 0 d = inr (Rational.mk 0 1).
Proof.
  intros Hd. destruct (Rational_new_spec 0 d Hd) as (r & Hr & Hn & Hx).
  rewrite Hr. f_equal. apply normal_unique; [assumption | apply normal_int |].
  cbn [Rational.num Rational.den]. nia.
Qed.

(** C4: every value produced by the constructor (non-zero denominator) or
    by [add], [sub], [mul], [div] (by a non-zero rational) and [neg] on
    values in normal form is again in normal form: positive denominator,
    numerator and denominator coprime; zero is [0/1]; and two values in
    normal form that denote the same number are structurally equal. *)
Theorem Rational_normal_form (a b : Rational.t) (n d : Z) :
  normal a -> normal b -> d <> 0 ->
  (exists r, Rational.new n d = inr r /\ normal r)
  /\ (exists r, Rational.add a b = inr r /\ normal r)
  /\ (exists r, Rational.sub a b = inr r /\ normal r)
  /\ (exists r, Rational.mul a b = inr r /\ normal r)
  /\ (Rational.num b <> 0 -> exists r, Rational.div a b = inr r /\ normal r)
  /\ (exists r, Rational.neg a = inr r /\ normal r)
  /\ Rational.new 0 d = inr (Rational.mk 0 1)
  /\ (Rational.num a * Rational.den b = Rational.num b * Rational.den a -> a = b).
Proof.
  intros Ha Hb Hd.
  pose proof (represents_self a Ha) as Ra.
  pose proof (represents_self b Hb) as Rb.
  split.
  { destruct (Rational_new_spec n d Hd) as (r & Hr & Hn & _). now exists r. }
  split.
  { destruct (Rational_add_value a b _ _ Ra Rb) as (r & Hr & Hn & _).
    now exists r. }
  split.
  { destruct (Rational_sub_value a b _ _ Ra Rb) as (r & Hr & Hn & _).
    now exists r. }
  split.
  { destruct (Rational_mul_value a b _ _ Ra Rb) as (r & Hr & Hn & _).
    now exists r. }
  split.
  { intros Hnz.
    destruct (Rational_div_value a b _ _ Ra Rb Hnz) as (r & Hr & Hn & _).
    now exists r. }
  split.
  { destruct (Rational_neg_value a _ Ra) as (r & Hr & Hn & _). now exists r. }
  split.
  { now apply Rational_new_zero. }
  now apply normal_unique.
Qed.

Lemma Rational_normal_form_witness :
  normal (Rational.mk (-3) 4) /\ normal (Rational.mk 5 6) /\ -4 <> 0
  /\ (exists r, Rational.new 6 (-4) = inr r /\ normal r)
  /\ (exists r, Rational.add (Rational.mk (-3) 4) (Rational.mk 5 6) = inr r
                /\ normal r)
  /\ (exists r, Rational.div (Rational.mk (-3) 4) (Rational.mk 5 6) = inr r
                /\ normal r).
Proof.
  assert (Ha : normal (Rational.mk (-3) 4)) by (split; [cbn; lia | reflexivity]).
  assert (Hb : normal (Rational.mk 5 6)) by (split; [cbn; lia | reflexivity]).
  assert (Hd : -4 <> 0) by lia.
  destruct (Rational_normal_form (Rational.mk (-3) 4) (Rational.mk 5 6) 6 (-4)
              Ha Hb Hd) as (Hnew & Hadd & _ & _ & Hdiv & _).
  split; [exact Ha |]. split; [exact Hb |]. split; [exact Hd |].
  split; [exact Hnew |]. split; [exact Hadd |].
  apply Hdiv. cbn. lia.
Defined.

Lemma gcd_multiple q m : 0 < m -> Z.gcd (q * m) m = m.
Proof.
  intros Hm. rewrite Z.gcd_comm, Z.mul_comm. apply Z.gcd_mul_diag_l. lia.
Qed.

(** C8: for every integer [n] and non-zero integer [d] of either sign,
    [new Rational(n, d).toIntegerIfExact()] is the exact quotient [q]
    when [n = q * d], and [null] when [d] does not divide [n]; it never
    rounds. *)
Theorem toIntegerIfExact_roundtrip (n d : Z) :
  d <> 0 ->
  exists r, Rational.new n d = inr r
    /\ (forall q, n = q * d -> Rational.toIntegerIfExact r = Some q)
    /\ (~ (d | n) -> Rational.toIntegerIfExact r = None).
Proof.
  intros Hd. destruct (Rational_new_spec n d Hd) as (r & Hr & [Hpos Hg] & Hx).
  exists r. split; [exact Hr |].
  destruct r as [rn rd]. cbn [Rational.num Rational.den] in *.
  unfold Rational.toIntegerIfExact. cbn [Rational.num Rational.den].
  split.
  - intros q ->.
    assert (Hrn : rn = q * rd) by nia.
    assert (Hrd : rd = 1).
    { subst rn. rewrite gcd_multiple in Hg; lia. }
    subst rd. cbn. f_equal. lia.
  - intros Hnd.
    destruct (Z.eqb_spec rd 1) as [-> | Hne].
    + exfalso. apply Hnd. exists rn. lia.
    + destruct (Z.eqb_spec (Z.rem rn rd) 0) as [Hrem | _]; [| reflexivity].
      exfalso. apply Z.rem_divide in Hrem; [| lia].
      apply Hne. destruct Hrem as [c Hc]. subst rn.
      rewrite gcd_multiple in Hg; lia.
Qed.

Lemma toIntegerIfExact_roundtrip_witness :
  -3 <> 0
  /\ exists r, Rational.new 12 (-3) = inr r
       /\ Rational.toIntegerIfExact r = Some (-4).
Proof.
  assert (Hd : -3 <> 0) by lia.
  split; [exact Hd |].
  destruct (toIntegerIfExact_roundtrip 12 (-3) Hd) as (r & Hr & Hint & _).
  exists r. split; [exact Hr |]. apply Hint. reflexivity.
Defined.

(** C7: a zero denominator makes the constructor throw; two points with
    the same x-coordinate make [reconstructAtOrigin] throw 'Divide by
    zero' instead of returning; pairwise-distinct x-coordinates make it
    return a value. *)
Theorem division_by_zero_errors (dataSubset : list Share.t) :
  (forall n, exists e, Rational.new n 0 = inl e /\ DivisionByZeroError e)
  /\ ((exists i j, (i < length dataSubset)%nat /\ (j < length dataSubset)%nat
                   /\ i <> j
                   /\ Share.x (nth i dataSubset noShare)
                      = Share.x (nth j dataSubset noShare)) ->
      exists e, reconstructAtOrigin dataSubset = inl e /\ DivisionByZeroError e)
  /\ (NoDup (map Share.x dataSubset) ->
      exists r, reconstructAtOrigin dataSubset = inr r).
Proof.
  split; [| split].
  - intros n. exists DenominatorZero. split; [reflexivity |].
    right; left; reflexivity.
  - intros (i & j & Hi & Hj & Hne & Heq).
    exists DivideByZero. split; [| right; right; reflexivity].
    apply reconstructAtOrigin_clash. intros Hnd.
    apply Hne. apply (proj1 (NoDup_nth (map Share.x dataSubset) 0) Hnd);
      rewrite ?length_map; try assumption.
    change 0 with (Share.x noShare). rewrite !map_nth. exact Heq.
  - intros Hnd.
    destruct (reconstructAtOrigin_distinct dataSubset Hnd) as (r & Hr & _).
    now exists r.
Qed.

Lemma division_by_zero_errors_witness :
  (exists e, reconstructAtOrigin [Share.mk 1 5; Share.mk 2 7; Share.mk 1 9] = inl e
             /\ DivisionByZeroError e)
  /\ (exists r, reconstructAtOrigin [Share.mk 1 5; Share.mk 2 7] = inr r).
Proof.
  split.
  - apply (division_by_zero_errors [Share.mk 1 5; Share.mk 2 7; Share.mk 1 9]).
    exists 0%nat, 2%nat. simpl. repeat split; lia.
  - apply (division_by_zero_errors [Share.mk 1 5; Share.mk 2 7]).
    repeat constructor; simpl; intuition discriminate.
Defined.


(** ** Subset enumeration *)

Lemma binomial_small n : forall k, (n < k)%nat -> binomial n k = 0%nat.
Proof.
  induction n as [| n IH]; intros [| k] H; try lia; cbn; [reflexivity |].
  rewrite !IH by lia. reflexivity.
Qed.

Lemma binomial_pascal n k :
  binomial (S n) (S k) = (binomial n k + binomial n (S k))%nat.
Proof. reflexivity. Qed.

Lemma binomial_pos n : forall k, (k <= n)%nat -> (0 < binomial n k)%nat.
Proof.
  induction n as [| n IH]; intros [| k] H; cbn; try lia.
  specialize (IH k ltac:(lia)). lia.
Qed.

Lemma ascending_bound n l :
  forall lo, ascending lo l -> Forall (fun i => (i < n)%nat) l ->
             (l = [] \/ lo + length l <= n)%nat.
Proof.
  induction l as [| i l IH]; intros lo Hasc Hall; [now left | right].
  destruct Hasc as [Hlo Hasc]. inversion Hall as [| ? ? Hi Hall']; subst.
  destruct (IH (S i) Hasc Hall') as [-> | Hb]; cbn; lia.
Qed.

Lemma ascending_NoDup l : forall lo, ascending lo l -> NoDup l.
Proof.
  induction l as [| i l IH]; intros lo H; [constructor |].
  destruct H as [_ H]. constructor; [| now apply IH with (S i)].
  clear IH. revert H. generalize (Nat.le_refl (S i)).
  generalize (S i) at 2 3. intros lo' Hlo H Hin.
  revert lo' Hlo H. induction l as [| j l IH]; intros lo' Hlo H; [contradiction |].
  destruct H as [Hj H]. destruct Hin as [-> | Hin]; [lia |].
  apply (IH Hin (S j)); [lia | exact H].
Qed.

Section Enumerate.
Variables n k : nat.

Lemma nth_indices i : (i < n)%nat -> nth i (seq 0 n) 0%nat = i.
Proof. intros Hi. now rewrite seq_nth. Qed.

Lemma backtrack_done depth start chosen :
  length chosen = k ->
  backtrack 0%nat (seq 0 n) k depth start chosen = [chosen].
Proof.
  intros H. destruct depth; cbn [backtrack];
    now replace (length chosen =? k)%nat with true
      by (symmetry; apply Nat.eqb_eq; exact H).
Qed.

Lemma backtrack_step depth todo start chosen :
  (length chosen + S todo = k)%nat ->
  backtrack 0%nat (seq 0 n) k (S depth) start chosen
  = flat_map
      (fun i => backtrack 0%nat (seq 0 n) k depth (i + 1)
                          (chosen ++ [nth i (seq 0 n) 0%nat]))
      (seq start (S n - S todo - start)).
Proof.
  intros H. cbn [backtrack].
  replace (length chosen =? k)%nat with false
    by (symmetry; apply Nat.eqb_neq; lia).
  rewrite length_seq. do 2 f_equal. lia.
Qed.

(** More nesting than [k - chosen.length] levels is never used. *)
Lemma backtrack_depth (todo : nat) :
  forall extra start chosen,
    (length chosen + todo = k)%nat ->
    backtrack 0%nat (seq 0 n) k (todo + extra) start chosen
    = backtrack 0%nat (seq 0 n) k todo start chosen.
Proof.
  induction todo as [| todo IH]; intros extra start chosen Hlen.
  - rewrite !backtrack_done by lia. reflexivity.
  - cbn [Nat.add]. rewrite !(backtrack_step _ todo) by assumption.
    apply flat_map_ext. intros i. apply IH.
    rewrite length_app. cbn [length]. lia.
Qed.

Lemma backtrack_In (todo : nat) :
  forall start chosen c,
    (length chosen + todo = k)%nat ->
    (In c (backtrack 0%nat (seq 0 n) k todo start chosen)
     <-> exists t, c = chosen ++ t /\ length t = todo /\ ascending start t
                   /\ Forall (fun i => (i < n)%nat) t).
Proof.
  induction todo as [| todo IH]; intros start chosen c Hlen.
  - rewrite backtrack_done by lia. split.
    + intros [<- | []]. exists []. rewrite app_nil_r.
      repeat split; constructor.
    + intros (t & -> & Hl & _). destruct t; [| discriminate].
      rewrite app_nil_r. now left.
  - rewrite (backtrack_step _ todo) by assumption.
    assert (Hlen' : forall i, (length (chosen ++ [i]) + todo = k)%nat)
      by (intros i; rewrite length_app; cbn [length]; lia).
    rewrite in_flat_map. split.
    + intros (i & Hi & Hc). apply in_seq in Hi.
      rewrite nth_indices in Hc by lia.
      apply IH in Hc; [| apply Hlen'].
      destruct Hc as (t & -> & Hl & Hasc & Hall).
      exists (i :: t). rewrite <- app_assoc. cbn [app length ascending].
      repeat split; try lia.
      * now rewrite Nat.add_1_r in Hasc.
      * constructor; [lia | assumption].
    + intros (t & -> & Hl & Hasc & Hall).
      destruct t as [| i t]; [discriminate |].
      destruct Hasc as [Hlo Hasc]. inversion Hall as [| ? ? Hi Hall']; subst.
      cbn [length] in Hl. injection Hl as Hl.
      assert (Hb : (S i + length t <= n)%nat).
      { destruct (ascending_bound n t (S i) Hasc Hall') as [-> | Hb];
          [cbn; lia | exact Hb]. }
      exists i. split; [apply in_seq; lia |].
      rewrite nth_indices by lia. apply IH; [apply Hlen' |].
      exists t. rewrite <- app_assoc. cbn [app].
      repeat split; try assumption. now rewrite Nat.add_1_r.
Qed.

Lemma hockey_stick (todo : nat) :
  forall cnt start, cnt = (S n - S todo - start)%nat ->
    list_sum (map (fun i => binomial (n - (i + 1)) todo) (seq start cnt))
    = binomial (n - start) (S todo).
Proof.
  induction cnt as [| cnt IH]; intros start Hcnt; cbn [seq map].
  - symmetry. apply binomial_small. lia.
  - change (list_sum (?a :: ?l)) with (a + list_sum l)%nat.
    rewrite (IH (S start)) by lia.
    replace (n - start)%nat with (S (n - (start + 1)))%nat by lia.
    rewrite binomial_pascal. replace (n - S start)%nat with (n - (start + 1))%nat by lia.
    reflexivity.
Qed.

Lemma backtrack_length (todo : nat) :
  forall start chosen,
    (length chosen + todo = k)%nat ->
    length (backtrack 0%nat (seq 0 n) k todo start chosen)
    = binomial (n - start) todo.
Proof.
  induction todo as [| todo IH]; intros start chosen Hlen.
  - rewrite backtrack_done by lia. now destruct (n - start)%nat.
  - rewrite (backtrack_step _ todo) by assumption.
    rewrite length_flat_map.
    rewrite <- (hockey_stick todo _ start eq_refl).
    f_equal. apply map_ext. intros i. apply IH.
    rewrite length_app. cbn [length]. lia.
Qed.

Lemma NoDup_flat_map {A B : Type} (f : A -> list B) (l : list A) :
  NoDup l ->
  (forall a, In a l -> NoDup (f a)) ->
  (forall a a' b, In a l -> In a' l -> In b (f a) -> In b (f a') -> a = a') ->
  NoDup (flat_map f l).
Proof.
  induction l as [| a l IH]; intros Hnd Hf Hdisj; cbn [flat_map]; [constructor |].
  inversion Hnd as [| ? ? Hnotin Hnd']; subst.
  apply NoDup_app.
  - apply Hf. now left.
  - apply IH; [assumption | |].
    + intros a' Ha'. apply Hf. now right.
    + intros a1 a2 b H1 H2. apply Hdisj; now right.
  - intros b Hb Hb'. apply in_flat_map in Hb'. destruct Hb' as (a' & Ha' & Hb').
    apply Hnotin. rewrite (Hdisj a a' b); try assumption; [now left | now right].
Qed.

Lemma backtrack_NoDup (todo : nat) :
  forall start chosen,
    (length chosen + todo = k)%nat ->
    NoDup (backtrack 0%nat (seq 0 n) k todo start chosen).
Proof.
  induction todo as [| todo IH]; intros start chosen Hlen.
  - rewrite backtrack_done by lia. repeat constructor. intros [].
  - rewrite (backtrack_step _ todo) by assumption.
    assert (Hlen' : forall i, (length (chosen ++ [i]) + todo = k)%nat)
      by (intros i; rewrite length_app; cbn [length]; lia).
    apply NoDup_flat_map.
    + apply seq_NoDup.
    + intros i _. apply IH. apply Hlen'.
    + intros i i' c Hi Hi' Hc Hc'.
      apply in_seq in Hi. apply in_seq in Hi'.
      rewrite nth_indices in Hc by lia. rewrite nth_indices in Hc' by lia.
      apply backtrack_In in Hc; [| apply Hlen'].
      apply backtrack_In in Hc'; [| apply Hlen'].
      destruct Hc as (t & -> & _). destruct Hc' as (t' & E & _).
      rewrite <- !app_assoc in E. apply app_inv_head in E.
      now injection E.
Qed.

End Enumerate.

Lemma chooseCombos_length n k :
  length (chooseCombos 0%nat (seq 0 n) k) = binomial n k.
Proof.
  unfold chooseCombos. rewrite backtrack_length by reflexivity.
  now rewrite Nat.sub_0_r.
Qed.

(** C5: over [n] indices and for every size [k] (in particular for
    1 <= k <= n), [chooseCombos] produces exactly C(n, k) subsets; the
    subsets produced are exactly the strictly increasing sequences of [k]
    indices below [n] (hence of distinct indices); no subset is produced
    twice.  [chooseCombos] being a function of its arguments alone, a
    second run yields the same list in the same order; and the [k]
    levels of nesting it is given are never exhausted: allowing more
    changes nothing. *)
Theorem chooseCombos_enumerates (n k : nat) :
  length (chooseCombos 0%nat (seq 0 n) k) = binomial n k
  /\ (forall c, In c (chooseCombos 0%nat (seq 0 n) k)
                <-> length c = k /\ ascending 0 c
                    /\ Forall (fun i => (i < n)%nat) c)
  /\ (forall c, In c (chooseCombos 0%nat (seq 0 n) k) -> NoDup c)
  /\ NoDup (chooseCombos 0%nat (seq 0 n) k)
  /\ (forall extra, backtrack 0%nat (seq 0 n) k (k + extra) 0 []
                    = chooseCombos 0%nat (seq 0 n) k).
Proof.
  assert (Hin : forall c, In c (chooseCombos 0%nat (seq 0 n) k)
                <-> length c = k /\ ascending 0 c
                    /\ Forall (fun i => (i < n)%nat) c).
  { intros c. unfold chooseCombos. rewrite backtrack_In by reflexivity. split.
    - intros (t & -> & H). exact H.
    - intros H. now exists c. }
  split; [| split; [exact Hin | split; [| split]]].
  - apply chooseCombos_length.
  - intros c Hc. apply Hin in Hc. destruct Hc as (_ & Hasc & _).
    now apply ascending_NoDup with 0%nat.
  - unfold chooseCombos. now apply backtrack_NoDup.
  - intros extra. unfold chooseCombos. now apply backtrack_depth.
Qed.


(** ** The tally *)

Lemma key_eqb_spec (a b : Key) : reflect (a = b) (key_eqb a b).
Proof.
  destruct a as [a1 a2], b as [b1 b2]. unfold key_eqb; cbn [fst snd].
  destruct (Z.eqb_spec a1 b1), (Z.eqb_spec a2 b2); constructor; congruence.
Qed.

Lemma key_eqb_refl (a : Key) : key_eqb a a = true.
Proof. now destruct (key_eqb_spec a a). Qed.

Section MapFacts.
Context {V : Type}.
Implicit Types (m : JsMap V) (key : Key) (v : V).

Lemma mapGet_app m m' key :
  mapGet (m ++ m') key
  = match mapGet m key with Some v => Some v | None => mapGet m' key end.
Proof.
  induction m as [| [k' v'] m IH]; cbn; [reflexivity |].
  now destruct (key_eqb k' key).
Qed.

Lemma mapGet_None_notin m key :
  mapGet m key = None <-> ~ In key (map fst m).
Proof.
  induction m as [| [k' v'] m IH]; cbn.
  - split; [intros _ [] | reflexivity].
  - destruct (key_eqb_spec k' key) as [-> | Hne].
    + split; [discriminate | intros H; exfalso; apply H; now left].
    + rewrite IH. split; [intros H [? | ?]; auto | intros H ?; apply H; now right].
Qed.

Lemma mapSet_absent m key v :
  mapGet m key = None -> mapSet m key v = m ++ [(key, v)].
Proof.
  induction m as [| [k' v'] m IH]; cbn; [reflexivity |].
  destruct (key_eqb k' key); [discriminate |].
  intros H. now rewrite IH.
Qed.

Lemma mapSet_present_keys m key v :
  mapGet m key <> None -> map fst (mapSet m key v) = map fst m.
Proof.
  induction m as [| [k' v'] m IH]; cbn; [congruence |].
  destruct (key_eqb k' key); [reflexivity |].
  intros H. cbn. now rewrite IH.
Qed.

Lemma mapGet_mapSet m key v key' :
  mapGet (mapSet m key v) key'
  = if key_eqb key key' then Some v else mapGet m key'.
Proof.
  induction m as [| [k' v'] m IH]; cbn.
  - reflexivity.
  - destruct (key_eqb_spec k' key) as [E | Hne]; cbn.
    + subst k'. now destruct (key_eqb key key').
    + rewrite IH. destruct (key_eqb_spec key key') as [E | Hne'];
        [subst key' | reflexivity].
      now destruct (key_eqb_spec k' key).
Qed.

Lemma mapGet_In m key v :
  NoDup (map fst m) -> In (key, v) m -> mapGet m key = Some v.
Proof.
  induction m as [| [k' v'] m IH]; cbn; [contradiction |].
  intros Hnd Hin. inversion Hnd as [| ? ? Hnotin Hnd']; subst.
  destruct Hin as [E | Hin].
  - injection E as -> ->. now rewrite key_eqb_refl.
  - destruct (key_eqb_spec k' key) as [-> | _]; [| now apply IH].
    exfalso. apply Hnotin. apply in_map_iff. now exists (key, v).
Qed.
End MapFacts.

Lemma tallyStep_eq shares c st :
  tallyStep shares c st
  = (ks <- candidateOf shares c ;; ret (recordResult st ks)).
Proof.
  unfold tallyStep, candidateOf.
  destruct (reconstructAtOrigin _); reflexivity.
Qed.

Lemma tallyLoop_eq shares allCombos :
  forall st,
    tallyLoop shares allCombos st
    = (rs <- mapM (candidateOf shares) allCombos ;;
       ret (fold_left recordResult rs st)).
Proof.
  induction allCombos as [| c rest IH]; intros st; cbn [tallyLoop mapM].
  - reflexivity.
  - rewrite tallyStep_eq.
    destruct (candidateOf shares c) as [e | ks]; cbn [bind ret];
      [reflexivity |].
    rewrite IH. destruct (mapM (candidateOf shares) rest); reflexivity.
Qed.

Lemma mapM_length {A B : Type} (f : A -> result B) (l : list A) :
  forall bs, mapM f l = inr bs -> length bs = length l.
Proof.
  induction l as [| a l IH]; cbn [mapM]; intros bs H.
  - injection H as <-. reflexivity.
  - destruct (f a) as [e | b]; [discriminate |]. cbn [bind] in H.
    destruct (mapM f l) as [e | bs']; [discriminate |].
    injection H as <-. cbn. f_equal. now apply IH.
Qed.

Lemma countKey_nonneg key keys : 0 <= countKey key keys.
Proof.
  induction keys as [| k' keys IH]; cbn; [lia |].
  destruct (key_eqb k' key); lia.
Qed.

Lemma countKey_app key keys keys' :
  countKey key (keys ++ keys') = countKey key keys + countKey key keys'.
Proof.
  induction keys as [| k' keys IH]; cbn; [reflexivity |]. rewrite IH. lia.
Qed.

Lemma countKey_pos key keys : In key keys <-> 0 < countKey key keys.
Proof.
  induction keys as [| k' keys IH]; cbn; [split; [intros [] | lia] |].
  pose proof (countKey_nonneg key keys).
  destruct (key_eqb_spec k' key) as [-> | Hne].
  - split; [lia | now left].
  - rewrite IH. split; [intros [? | ?]; [contradiction | lia] | intros; right; lia].
Qed.

Lemma firstIdx_In key keys : In key keys <-> (firstIdx key keys < length keys)%nat.
Proof.
  induction keys as [| k' keys IH]; cbn; [split; [intros [] | lia] |].
  destruct (key_eqb_spec k' key) as [-> | Hne].
  - split; [lia | now left].
  - rewrite <- Nat.succ_lt_mono, <- IH.
    split; [intros [? | ?]; [contradiction | assumption] | now right].
Qed.

Lemma firstIdx_snoc key keys k' :
  firstIdx key (keys ++ [k'])
  = if (firstIdx key keys <? length keys)%nat then firstIdx key keys
    else if key_eqb k' key then length keys else S (length keys).
Proof.
  induction keys as [| k0 keys IH]; cbn [app firstIdx length].
  - now destruct (key_eqb k' key).
  - destruct (key_eqb k0 key); [reflexivity |].
    rewrite IH.
    change (S (firstIdx key keys) <? S (length keys))%nat
      with (firstIdx key keys <? length keys)%nat.
    destruct (firstIdx key keys <? length keys)%nat; [reflexivity |].
    now destruct (key_eqb k' key).
Qed.

Lemma StronglySorted_ext_in {A : Type} (R R' : A -> A -> Prop) (l : list A) :
  (forall a b, In a l -> In b l -> R a b -> R' a b) ->
  StronglySorted R l -> StronglySorted R' l.
Proof.
  intros Himp H. induction H as [| a l Hs IH Hall]; constructor.
  - apply IH. intros u v Hu Hv. apply Himp; now right.
  - rewrite Forall_forall in *. intros b Hb.
    apply Himp; [now left | now right | now apply Hall].
Qed.

Lemma StronglySorted_snoc {A : Type} (R : A -> A -> Prop) (l : list A) (x : A) :
  StronglySorted R l -> Forall (fun a => R a x) l -> StronglySorted R (l ++ [x]).
Proof.
  intros H. induction H as [| a l Hs IH Hall]; intros Hx; cbn.
  - repeat constructor.
  - inversion Hx as [| ? ? Hax Hx']; subst. constructor.
    + now apply IH.
    + apply Forall_app. split; [assumption | now constructor].
Qed.

Lemma StronglySorted_tail {A : Type} (R : A -> A -> Prop) (l l' : list A) :
  StronglySorted R (l ++ l') -> StronglySorted R l'.
Proof.
  induction l as [| a l IH]; cbn; [trivial |].
  intros H. apply StronglySorted_inv in H. now apply IH.
Qed.

Lemma tallyInv_empty : tallyInv [] (mkTally [] []).
Proof. repeat split; cbn; constructor. Qed.

Lemma tallyInv_step rs st ks :
  tallyInv rs st -> tallyInv (rs ++ [ks]) (recordResult st ks).
Proof.
  intros (Hfreq & Hsorted & Htrace). destruct ks as [k subset].
  unfold tallyInv, recordResult. cbn [frequency comboTrace fst snd].
  rewrite map_app. cbn [map fst].
  set (keys := map fst rs) in *.
  assert (Hold : forall a, In a (map fst (frequency st)) ->
                   (firstIdx a keys < length keys)%nat).
  { intros a Ha. apply firstIdx_In, countKey_pos.
    pose proof (countKey_nonneg a keys).
    destruct (Z.eqb_spec (countKey a keys) 0) as [E | ?]; [| lia].
    exfalso. revert Ha. apply mapGet_None_notin. now rewrite Hfreq, E. }
  assert (Hkeep : forall a, In a (map fst (frequency st)) ->
                    firstIdx a (keys ++ [k]) = firstIdx a keys).
  { intros a Ha. rewrite firstIdx_snoc.
    now replace (firstIdx a keys <? length keys)%nat with true
      by (symmetry; apply Nat.ltb_lt; auto). }
  split; [| split].
  - intros key. rewrite mapGet_mapSet, countKey_app. cbn [countKey].
    rewrite (Hfreq k).
    pose proof (countKey_nonneg key keys).
    destruct (key_eqb_spec k key) as [-> | Hne].
    + destruct (Z.eqb_spec (countKey key keys) 0) as [E | Hnz].
      * rewrite E. reflexivity.
      * destruct (Z.eqb_spec (countKey key keys + (1 + 0)) 0); [lia |].
        f_equal; lia.
    + rewrite Hfreq. now rewrite !Z.add_0_r.
  - destruct (mapGet (frequency st) k) as [v |] eqn:Hget.
    + rewrite mapSet_present_keys by congruence.
      apply StronglySorted_ext_in with (2 := Hsorted).
      intros a b Ha Hb. now rewrite !Hkeep.
    + rewrite mapSet_absent by assumption. rewrite map_app. cbn [map fst].
      apply StronglySorted_snoc.
      * apply StronglySorted_ext_in with (2 := Hsorted).
        intros a b Ha Hb. now rewrite !Hkeep.
      * apply Forall_forall. intros a Ha. rewrite Hkeep by assumption.
        rewrite (firstIdx_snoc k), key_eqb_refl.
        assert (Hk : ~ In k keys).
        { rewrite Hfreq in Hget. intros Hin. apply countKey_pos in Hin.
          destruct (Z.eqb_spec (countKey k keys) 0); [lia | discriminate]. }
        rewrite firstIdx_In in Hk.
        replace (firstIdx k keys <? length keys)%nat with false
          by (symmetry; apply Nat.ltb_ge; lia).
        now apply Hold.
  - intros key. rewrite mapGet_app. cbn [mapGet].
    unfold mapHas. rewrite (Htrace k).
    destruct (mapGet rs k) as [v0 |] eqn:Hk; cbn [negb].
    + rewrite Htrace. destruct (mapGet rs key) eqn:Hkey; [reflexivity |].
      destruct (key_eqb_spec k key) as [-> | _]; [congruence | reflexivity].
    + rewrite mapGet_mapSet, Htrace.
      destruct (key_eqb_spec k key) as [-> | _].
      * now rewrite Hk.
      * now destruct (mapGet rs key).
Qed.

Lemma tallyInv_fold rs : tallyInv rs (fold_left recordResult rs (mkTally [] [])).
Proof.
  induction rs as [| ks rs IH] using rev_ind.
  - apply tallyInv_empty.
  - rewrite fold_left_app. cbn [fold_left]. now apply tallyInv_step.
Qed.

(** The selection loop keeps the first entry among those of maximal
    count. *)
Lemma selectTop_spec (entries : JsMap Z) :
  forall topKey topCount,
    (selectTop entries topKey topCount = (topKey, topCount)
     /\ Forall (fun e => snd e <= topCount) entries)
    \/ (exists pre w c post,
           entries = pre ++ (w, c) :: post
           /\ selectTop entries topKey topCount = (Some w, c)
           /\ topCount < c
           /\ Forall (fun e => snd e < c) pre
           /\ Forall (fun e => snd e <= c) post).
Proof.
  induction entries as [| [k v] rest IH]; intros topKey topCount;
    cbn [selectTop].
  - left. split; [reflexivity | constructor].
  - destruct (Z.gtb_spec v topCount) as [Hgt | Hle].
    + destruct (IH (Some k) v)
        as [[Hsel Hall] | (pre & w & c & post & E & Hsel & Hlt & Hpre & Hpost)].
      * right. exists [], k, v, rest.
        split; [reflexivity |]. split; [exact Hsel |]. split; [lia |].
        split; [constructor | exact Hall].
      * right. exists ((k, v) :: pre), w, c, post. subst rest.
        split; [reflexivity |]. split; [exact Hsel |]. split; [lia |].
        split; [| exact Hpost]. constructor; [cbn; lia | exact Hpre].
    + destruct (IH topKey topCount)
        as [[Hsel Hall] | (pre & w & c & post & E & Hsel & Hlt & Hpre & Hpost)].
      * left. split; [exact Hsel |]. constructor; [cbn; lia | exact Hall].
      * right. exists ((k, v) :: pre), w, c, post. subst rest.
        split; [reflexivity |]. split; [exact Hsel |]. split; [lia |].
        split; [| exact Hpost]. constructor; [cbn; lia | exact Hpre].
Qed.

Lemma tallyInv_NoDup rs st : tallyInv rs st -> NoDup (map fst (frequency st)).
Proof.
  intros (_ & Hsorted & _). revert Hsorted.
  generalize (map fst (frequency st)) as l. intros l H.
  induction H as [| a l Hs IH Hall]; constructor; [| assumption].
  intros Hin. rewrite Forall_forall in Hall. specialize (Hall a Hin). lia.
Qed.

Lemma tallyInv_entry rs st key v :
  tallyInv rs st -> In (key, v) (frequency st) ->
  v = countKey key (map fst rs) /\ 0 < v.
Proof.
  intros Hinv Hin. pose proof (tallyInv_NoDup rs st Hinv) as Hnd.
  destruct Hinv as (Hfreq & _ & _).
  pose proof (mapGet_In _ _ _ Hnd Hin) as Hget. rewrite Hfreq in Hget.
  pose proof (countKey_nonneg key (map fst rs)).
  destruct (Z.eqb_spec (countKey key (map fst rs)) 0); [discriminate |].
  injection Hget as <-. split; [reflexivity | lia].
Qed.

Lemma tallyInv_has_entry rs st key :
  tallyInv rs st -> In key (map fst rs) ->
  In (key, countKey key (map fst rs)) (frequency st).
Proof.
  intros (Hfreq & _ & _) Hin. specialize (Hfreq key).
  apply countKey_pos in Hin.
  destruct (Z.eqb_spec (countKey key (map fst rs)) 0); [lia |].
  revert Hfreq. generalize (countKey key (map fst rs)) as v. intros v.
  induction (frequency st) as [| [k' v'] m IH]; cbn; [discriminate |].
  destruct (key_eqb_spec k' key) as [-> | _].
  - intros E. injection E as ->. now left.
  - intros E. right. now apply IH.
Qed.

(** The winner of a tally: of maximal count, and first seen among the
    keys of maximal count. *)
Lemma tally_winner rs st :
  tallyInv rs st ->
  match fst (selectTop (frequency st) None (-1)) with
  | None => rs = []
  | Some w =>
      In w (map fst rs)
      /\ (forall key, countKey key (map fst rs) <= countKey w (map fst rs))
      /\ (forall key, key <> w ->
            countKey key (map fst rs) = countKey w (map fst rs) ->
            (firstIdx w (map fst rs) < firstIdx key (map fst rs))%nat)
  end.
Proof.
  intros Hinv.
  destruct (selectTop_spec (frequency st) None (-1))
    as [[Hsel Hall] | (pre & w & c & post & E & Hsel & Hlt & Hpre & Hpost)];
    rewrite Hsel; cbn [fst].
  - destruct rs as [| [k s] rs]; [reflexivity | exfalso].
    pose proof (tallyInv_has_entry _ _ k Hinv (or_introl eq_refl)) as Hin.
    pose proof (tallyInv_entry _ _ _ _ Hinv Hin) as [_ Hpos].
    rewrite Forall_forall in Hall. specialize (Hall _ Hin). cbn [snd] in Hall. lia.
  - assert (Hw : In (w, c) (frequency st))
      by (rewrite E; apply in_or_app; right; now left).
    destruct (tallyInv_entry _ _ _ _ Hinv Hw) as [Hc Hcpos].
    assert (Hcases : forall key, In key (map fst rs) ->
              In (key, countKey key (map fst rs)) pre
              \/ key = w
              \/ In (key, countKey key (map fst rs)) post).
    { intros key Hkey.
      pose proof (tallyInv_has_entry _ _ key Hinv Hkey) as Hin.
      rewrite E in Hin. apply in_app_or in Hin.
      destruct Hin as [? | [Heq | ?]]; auto.
      injection Heq as ->. auto. }
    rewrite Forall_forall in Hpre, Hpost.
    split; [| split].
    + apply countKey_pos. lia.
    + intros key. pose proof (countKey_nonneg key (map fst rs)).
      destruct (Z.eq_dec (countKey key (map fst rs)) 0) as [? | Hnz]; [lia |].
      assert (Hkey : In key (map fst rs)) by (apply countKey_pos; lia).
      destruct (Hcases key Hkey) as [Hin | [-> | Hin]]; [| lia |].
      * specialize (Hpre _ Hin). cbn [snd] in Hpre. lia.
      * specialize (Hpost _ Hin). cbn [snd] in Hpost. lia.
    + intros key Hne Hcount.
      assert (Hkey : In key (map fst rs)) by (apply countKey_pos; lia).
      destruct (Hcases key Hkey) as [Hin | [-> | Hin]]; [| contradiction |].
      * specialize (Hpre _ Hin). cbn [snd] in Hpre. lia.
      * destruct Hinv as (_ & Hsorted & _).
        rewrite E, map_app in Hsorted. cbn [map fst] in Hsorted.
        apply StronglySorted_tail in Hsorted.
        apply StronglySorted_inv in Hsorted. destruct Hsorted as [_ Hall].
        rewrite Forall_forall in Hall. apply Hall.
        apply in_map_iff. now exists (key, countKey key (map fst rs)).
Qed.

(** ** The consensus procedure *)

Lemma insertShare_perm s l : Permutation (insertShare s l) (s :: l).
Proof.
  induction l as [| h l IH]; cbn [insertShare]; [reflexivity |].
  destruct (compareShares s h <=? 0); [reflexivity |].
  rewrite IH. apply perm_swap.
Qed.

Lemma sortShares_perm l : Permutation (sortShares l) l.
Proof.
  induction l as [| s l IH]; cbn; [reflexivity |].
  rewrite insertShare_perm. now constructor.
Qed.

Lemma sortShares_length l : length (sortShares l) = length l.
Proof. apply Permutation_length, sortShares_perm. Qed.

Lemma recoverSecret_eq shares k :
  recoverSecretFromJSON shares k
  = if (length shares <? k)%nat then throw NotEnoughShares else
      rs <- mapM (candidateOf (sortShares shares))
                 (chooseCombos 0%nat (seq 0 (length shares)) k) ;;
      selectSecret (fold_left recordResult rs (mkTally [] [])).
Proof.
  unfold recoverSecretFromJSON. rewrite sortShares_length.
  destruct (length shares <? k)%nat; [reflexivity |].
  rewrite tallyLoop_eq. now destruct (mapM _ _).
Qed.

Lemma mapM_error {A B : Type} (f : A -> result B) (l : list A) e :
  mapM f l = inl e -> exists a, In a l /\ f a = inl e.
Proof.
  induction l as [| a l IH]; cbn [mapM]; [discriminate |].
  destruct (f a) as [e' | b] eqn:Hfa; cbn [bind].
  - intros E. injection E as ->. exists a. split; [now left | assumption].
  - destruct (mapM f l) as [e' | bs]; [| discriminate].
    intros E. injection E as ->. destruct (IH eq_refl) as (a' & Hin & Ha').
    exists a'. split; [now right | assumption].
Qed.

Lemma candidateOf_error shares c e :
  candidateOf shares c = inl e -> e = DivideByZero.
Proof.
  unfold candidateOf.
  pose proof (reconstructAtOrigin_sem (map (fun i => nth i shares noShare) c)) as H.
  destruct (reconstructAtOrigin _) as [e' | r]; [| discriminate].
  intros E. injection E as <-. apply H.
Qed.

Lemma selectSecret_error st e :
  selectSecret st = inl e -> e = NoConsensus \/ e = DenominatorZero.
Proof.
  unfold selectSecret.
  destruct (fst (selectTop (frequency st) None (-1))) as [topKey |].
  - unfold Rational.new. destruct (snd topKey =? 0); cbn [bind throw ret].
    + intros E. injection E as <-. now right.
    + destruct (Rational.toIntegerIfExact _); discriminate.
  - intros E. injection E as <-. now left.
Qed.

(** C3: once the tally over all enumerated subsets is built, the
    selected key has the maximal count; every other key with the same
    count was first produced later in enumeration order (the leader only
    changes on strictly greater counts); and [comboTrace] holds, for every
    key, the first subset in enumeration order that produced it. *)
Theorem consensus_winner (shares : list Share.t) (allCombos : list (list nat))
  (st : Tally) :
  tallyLoop shares allCombos (mkTally [] []) = inr st ->
  exists rs,
    mapM (candidateOf shares) allCombos = inr rs
    /\ (forall key, mapGet (comboTrace st) key = mapGet rs key)
    /\ match fst (selectTop (frequency st) None (-1)) with
       | None => allCombos = []
       | Some w =>
           In w (map fst rs)
           /\ (forall key, countKey key (map fst rs) <= countKey w (map fst rs))
           /\ (forall key, key <> w ->
                 countKey key (map fst rs) = countKey w (map fst rs) ->
                 (firstIdx w (map fst rs) < firstIdx key (map fst rs))%nat)
       end.
Proof.
  rewrite tallyLoop_eq.
  destruct (mapM (candidateOf shares) allCombos) as [e | rs] eqn:Hrs;
    [discriminate |].
  cbn [bind ret]. intros E. injection E as <-.
  exists rs. split; [reflexivity |].
  pose proof (tallyInv_fold rs) as Hinv.
  split; [apply Hinv |].
  pose proof (tally_winner _ _ Hinv) as Hw.
  destruct (fst (selectTop _ None (-1))) as [w |]; [exact Hw |].
  subst rs. apply mapM_length in Hrs.
  destruct allCombos; [reflexivity | discriminate].
Qed.

Lemma consensus_winner_witness :
  exists st,
    tallyLoop [Share.mk 0 7; Share.mk 1 5; Share.mk 2 7; Share.mk 3 9]
              (chooseCombos 0%nat (seq 0 4) 2) (mkTally [] []) = inr st
    /\ fst (selectTop (frequency st) None (-1)) = Some (7, 1)
    /\ exists rs,
         mapM (candidateOf [Share.mk 0 7; Share.mk 1 5; Share.mk 2 7; Share.mk 3 9])
              (chooseCombos 0%nat (seq 0 4) 2) = inr rs
         /\ (forall key, mapGet (comboTrace st) key = mapGet rs key)
         /\ match fst (selectTop (frequency st) None (-1)) with
            | None => chooseCombos 0%nat (seq 0 4) 2 = []
            | Some w =>
                In w (map fst rs)
                /\ (forall key,
                       countKey key (map fst rs) <= countKey w (map fst rs))
                /\ (forall key, key <> w ->
                      countKey key (map fst rs) = countKey w (map fst rs) ->
                      (firstIdx w (map fst rs) < firstIdx key (map fst rs))%nat)
            end.
Proof.
  eexists. split; [vm_compute; reflexivity |].
  split; [vm_compute; reflexivity |].
  apply (consensus_winner
           [Share.mk 0 7; Share.mk 1 5; Share.mk 2 7; Share.mk 3 9]
           (chooseCombos 0%nat (seq 0 4) 2)).
  vm_compute. reflexivity.
Defined.

(** C9: with fewer shares than [k] the procedure throws 'Not enough
    shares in input'; the test comes before the enumeration and before any
    interpolation, so the outcome does not depend on the shares
    themselves. *)
Theorem recoverSecret_not_enough_shares (shares : list Share.t) (k : nat) :
  (length shares < k)%nat ->
  recoverSecretFromJSON shares k = inl NotEnoughShares
  /\ InsufficientSharesError NotEnoughShares.
Proof.
  intros Hlt. split; [| reflexivity].
  unfold recoverSecretFromJSON. rewrite sortShares_length.
  now replace (length shares <? k)%nat with true
    by (symmetry; apply Nat.ltb_lt; exact Hlt).
Qed.

Lemma recoverSecret_not_enough_shares_witness :
  (length [Share.mk 1 5; Share.mk 1 7] < 3)%nat
  /\ recoverSecretFromJSON [Share.mk 1 5; Share.mk 1 7] 3 = inl NotEnoughShares.
Proof.
  assert (H : (length [Share.mk 1 5; Share.mk 1 7] < 3)%nat) by (simpl; lia).
  split; [exact H |].
  apply (recoverSecret_not_enough_shares [Share.mk 1 5; Share.mk 1 7] 3 H).
Defined.

(** C6, as stated, fails: with [k = 0] the single empty subset is
    enumerated, interpolates to 0/1, and the procedure returns the
    integer 0 instead of throwing. *)
Lemma recoverSecret_k0_counterexample :
  recoverSecretFromJSON [Share.mk 1 5; Share.mk 2 7] 0 = inr (Secret 0 (Some []))
  /\ ~ (exists e, recoverSecretFromJSON [Share.mk 1 5; Share.mk 2 7] 0 = inl e
                  /\ NoConsensusError e).
Proof.
  assert (H : recoverSecretFromJSON [Share.mk 1 5; Share.mk 2 7] 0
              = inr (Secret 0 (Some []))) by (vm_compute; reflexivity).
  split; [exact H |]. intros (e & He & _). rewrite H in He. discriminate.
Qed.

(** C6, amended: the selection step throws 'Could not determine
    consensus secret' exactly when the tally it is given is empty, and
    the tally of a list of results is empty exactly when the list is; for
    every share list and every non-negative integer [k] the procedure
    never throws this error, and with [k = 0] it returns the integer
    secret 0 with the empty subset as representative. *)
Theorem recoverSecret_no_consensus (shares : list Share.t) (k : nat)
  (rs : list (Key * list Share.t)) :
  (selectSecret (fold_left recordResult rs (mkTally [] [])) = inl NoConsensus
   <-> frequency (fold_left recordResult rs (mkTally [] [])) = [])
  /\ (frequency (fold_left recordResult rs (mkTally [] [])) = [] <-> rs = [])
  /\ recoverSecretFromJSON shares k <> inl NoConsensus
  /\ recoverSecretFromJSON shares 0 = inr (Secret 0 (Some [])).
Proof.
  assert (Hempty : forall rs',
            frequency (fold_left recordResult rs' (mkTally [] [])) = []
            <-> rs' = []).
  { intros rs'. split; [| now intros ->].
    intros Hf. pose proof (tallyInv_fold rs') as Hinv.
    destruct rs' as [| [key s] rs']; [reflexivity | exfalso].
    pose proof (tallyInv_has_entry _ _ key Hinv (or_introl eq_refl)) as Hin.
    rewrite Hf in Hin. contradiction. }
  assert (Hsel : forall rs',
            selectSecret (fold_left recordResult rs' (mkTally [] []))
            = inl NoConsensus <-> rs' = []).
  { intros rs'. split; [| now intros ->].
    intros Hs. pose proof (tally_winner _ _ (tallyInv_fold rs')) as Hw.
    unfold selectSecret in Hs.
    destruct (fst (selectTop _ None (-1))) as [w |]; [exfalso | exact Hw].
    unfold Rational.new in Hs.
    destruct (snd w =? 0); cbn [bind throw ret] in Hs; [discriminate |].
    destruct (Rational.toIntegerIfExact _); discriminate. }
  split; [| split; [apply Hempty | split]].
  - rewrite Hsel, Hempty. reflexivity.
  - rewrite recoverSecret_eq.
    destruct (Nat.ltb_spec (length shares) k) as [Hlt | Hle]; [discriminate |].
    destruct (mapM _ _) as [e | rs'] eqn:Hrs; cbn [bind].
    + apply mapM_error in Hrs. destruct Hrs as (c & _ & Hc).
      apply candidateOf_error in Hc. subst e. discriminate.
    + intros Hs. apply Hsel in Hs. subst rs'.
      apply mapM_length in Hrs.
      pose proof (binomial_pos _ _ Hle) as Hpos.
      destruct (chooseCombos_length (length shares) k). cbn in Hrs. lia.
  - rewrite recoverSecret_eq. reflexivity.
Qed.

(** ** Three shares on a line and one off it *)

Lemma keyOf_inj r r' : keyOf r = keyOf r' -> r = r'.
Proof. destruct r, r'. unfold keyOf; cbn. congruence. Qed.

Lemma Zc_sub_nonzero u v : u <> v -> (Zc u - Zc v)%Qc <> 0%Qc.
Proof. intros H. rewrite <- Zc_sub. apply Zc_nonzero. lia. Qed.

Lemma reconstruct_pair a b :
  Share.x a <> Share.x b ->
  exists r, reconstructAtOrigin [a; b] = inr r /\ pairKey a b = keyOf r
            /\ represents r (chordAtZero a b).
Proof.
  intros Hne.
  assert (Hnd : NoDup (map Share.x [a; b])).
  { repeat constructor; cbn; [intros [? | []]; congruence | intros []]. }
  destruct (reconstructAtOrigin_distinct [a; b] Hnd) as (r & Hr & Hn & Hv).
  exists r. split; [exact Hr |]. split; [unfold pairKey; now rewrite Hr |].
  split; [exact Hn |]. rewrite Hv.
  unfold lagrangeSum, lagrangeBasis, lagrangeFactor, chordAtZero.
  cbn. ring.
Qed.

Lemma pairKey_eq a b a' b' :
  Share.x a <> Share.x b -> Share.x a' <> Share.x b' ->
  (pairKey a b = pairKey a' b' <-> chordAtZero a b = chordAtZero a' b').
Proof.
  intros H H'.
  destruct (reconstruct_pair a b H) as (r & _ & -> & Hn & Hv).
  destruct (reconstruct_pair a' b' H') as (r' & _ & -> & Hn' & Hv').
  rewrite <- Hv, <- Hv'. split.
  - intros E. apply keyOf_inj in E. now subst.
  - intros E. f_equal. now apply toQc_inj.
Qed.

Lemma chordAtZero_sym a b : chordAtZero a b = chordAtZero b a.
Proof. unfold chordAtZero. ring. Qed.

Lemma pairKey_sym a b : Share.x a <> Share.x b -> pairKey a b = pairKey b a.
Proof.
  intros H. apply pairKey_eq; [assumption | congruence |].
  apply chordAtZero_sym.
Qed.

Lemma onLine_Zc s :
  onLine s -> Zc (Share.y s) = (Zc 2 * Zc (Share.x s) + Zc 3)%Qc.
Proof. unfold onLine. intros ->. now rewrite Zc_add, Zc_mul. Qed.

Lemma pairKey_onLine a b :
  onLine a -> onLine b -> Share.x a <> Share.x b -> pairKey a b = (3, 1).
Proof.
  intros Ha Hb Hne.
  destruct (reconstruct_pair a b Hne) as (r & _ & -> & Hn & Hv).
  change (3, 1) with (keyOf (Rational.mk 3 1)). f_equal.
  apply toQc_inj; [assumption | apply normal_int |].
  rewrite Hv, toQc_int. unfold chordAtZero.
  rewrite (onLine_Zc a Ha), (onLine_Zc b Hb).
  pose proof (Zc_sub_nonzero _ _ Hne).
  pose proof (Zc_sub_nonzero _ _ (not_eq_sym Hne)).
  field. split; assumption.
Qed.

Lemma pairKey_off_line bad g g' :
  onLine g -> onLine g' -> ~ onLine bad -> Share.x bad <> 0 ->
  Share.x bad <> Share.x g -> Share.x bad <> Share.x g' ->
  Share.x g <> Share.x g' ->
  pairKey bad g <> pairKey bad g'.
Proof.
  intros Hg Hg' Hbad Hx0 Hbg Hbg' Hgg' E.
  apply pairKey_eq in E; try assumption.
  unfold chordAtZero in E.
  rewrite (onLine_Zc g Hg), (onLine_Zc g' Hg') in E.
  pose proof (Zc_sub_nonzero _ _ Hbg) as N1.
  pose proof (Zc_sub_nonzero _ _ (not_eq_sym Hbg)) as N2.
  pose proof (Zc_sub_nonzero _ _ Hbg') as N3.
  pose proof (Zc_sub_nonzero _ _ (not_eq_sym Hbg')) as N4.
  set (xb := Zc (Share.x bad)) in *. set (yb := Zc (Share.y bad)) in *.
  set (u := Zc (Share.x g)) in *. set (v := Zc (Share.x g')) in *.
  assert (Hprod : (xb * (u - v) * (Zc 2 * xb + Zc 3 - yb) = 0)%Qc).
  { transitivity
      (((yb * ((0 - u) / (xb - u)) + (Zc 2 * u + Zc 3) * ((0 - xb) / (u - xb)))
        - (yb * ((0 - v) / (xb - v)) + (Zc 2 * v + Zc 3) * ((0 - xb) / (v - xb))))
       * ((xb - u) * (xb - v)))%Qc.
    - field. repeat split; assumption.
    - rewrite E. ring. }
  apply Qcmult_integral in Hprod. destruct Hprod as [Hprod | Hline].
  - apply Qcmult_integral in Hprod. destruct Hprod as [Hxb | Huv].
    + apply Hx0. apply Zc_inj. exact Hxb.
    + apply (Zc_sub_nonzero _ _ Hgg'). exact Huv.
  - apply Hbad. unfold onLine. apply Zc_inj.
    rewrite Zc_add, Zc_mul. fold xb yb.
    transitivity (Zc 2 * xb + Zc 3 - (Zc 2 * xb + Zc 3 - yb))%Qc;
      [ring | rewrite Hline; ring].
Qed.

Lemma candidateOf_pair shares i j :
  Share.x (nth i shares noShare) <> Share.x (nth j shares noShare) ->
  candidateOf shares [i; j]
  = inr (pairKey (nth i shares noShare) (nth j shares noShare),
         [nth i shares noShare; nth j shares noShare]).
Proof.
  intros Hne. unfold candidateOf. cbn [map].
  destruct (reconstruct_pair _ _ Hne) as (r & Hr & Hk & _).
  rewrite Hr, Hk. reflexivity.
Qed.

(** A key produced more often than any other one is selected. *)
Lemma selectSecret_dominant rs w :
  0 < countKey w (map fst rs) ->
  (forall key, key <> w ->
     countKey key (map fst rs) < countKey w (map fst rs)) ->
  fst (selectTop (frequency (fold_left recordResult rs (mkTally [] []))) None (-1))
  = Some w
  /\ exists subset,
       mapGet (comboTrace (fold_left recordResult rs (mkTally [] []))) w
       = Some subset.
Proof.
  intros Hpos Hdom.
  pose proof (tallyInv_fold rs) as Hinv.
  pose proof (tally_winner _ _ Hinv) as Hw.
  destruct (fst (selectTop _ None (-1))) as [w' |].
  - destruct Hw as (_ & Hmax & _).
    assert (w' = w).
    { destruct (key_eqb_spec w' w) as [? | Hne]; [assumption | exfalso].
      specialize (Hdom w' Hne). specialize (Hmax w). lia. }
    subst w'. split; [reflexivity |].
    destruct Hinv as (_ & _ & Htrace). rewrite Htrace.
    destruct (mapGet rs w) as [subset |] eqn:Hget; [now exists subset |].
    exfalso. apply mapGet_None_notin in Hget. apply Hget.
    apply countKey_pos. exact Hpos.
  - subst rs. cbn in Hpos. lia.
Qed.

Lemma dominant_keys (A B C w : Key) (keys : list Key) :
  A <> B -> A <> C -> B <> C ->
  keys = [A; B; C; w; w; w] \/ keys = [A; w; w; B; C; w]
  \/ keys = [w; A; w; B; w; C] \/ keys = [w; w; A; w; B; C] ->
  0 < countKey w keys
  /\ forall key, key <> w -> countKey key keys < countKey w keys.
Proof.
  intros HAB HAC HBC Hkeys.
  assert (Hw : forall key, key <> w -> key_eqb w key = false).
  { intros key Hne. destruct (key_eqb_spec w key); congruence. }
  assert (Hone : forall key,
            (if key_eqb A key then 1 else 0) + (if key_eqb B key then 1 else 0)
            + (if key_eqb C key then 1 else 0) <= 1).
  { intros key.
    destruct (key_eqb_spec A key), (key_eqb_spec B key), (key_eqb_spec C key);
      try lia; congruence. }
  assert (Hnn : 0 <= (if key_eqb A w then 1 else 0)
                     + (if key_eqb B w then 1 else 0)
                     + (if key_eqb C w then 1 else 0)).
  { destruct (key_eqb A w), (key_eqb B w), (key_eqb C w); lia. }
  destruct Hkeys as [-> | [-> | [-> | ->]]]; cbn [countKey];
    rewrite !key_eqb_refl; (split; [lia |]);
    intros key Hne; rewrite !(Hw key Hne); specialize (Hone key); lia.
Qed.

(** C1, as stated, fails on two kinds of share sets: when the wrong
    share sits at x = 0 every subset containing it interpolates to its
    own y, which ties 3 to 3 with the right value and is met first; when
    the wrong share repeats the x of a right one, the subset holding both
    makes the whole procedure throw. *)
Lemma recoverSecret_line_counterexample :
  (onLine (Share.mk 1 5) /\ onLine (Share.mk 2 7) /\ onLine (Share.mk 3 9)
   /\ ~ onLine (Share.mk 0 7)
   /\ recoverSecretFromJSON [Share.mk 1 5; Share.mk 2 7; Share.mk 3 9; Share.mk 0 7] 2
      = inr (Secret 7 (Some [Share.mk 0 7; Share.mk 1 5])))
  /\ (~ onLine (Share.mk 1 9)
      /\ recoverSecretFromJSON [Share.mk 1 5; Share.mk 2 7; Share.mk 3 9; Share.mk 1 9] 2
         = inl DivideByZero).
Proof.
  unfold onLine; cbn [Share.x Share.y].
  repeat split; try lia; try discriminate; vm_compute; reflexivity.
Qed.

(** C1, amended: for four shares with pairwise-distinct x-coordinates,
    three of them on the line y = 2x + 3 and the fourth off the line and
    not at x = 0, the consensus procedure with k = 2 returns the integer
    secret 3. *)
Theorem recoverSecret_line_majority (shares : list Share.t) (bad : Share.t) :
  length shares = 4%nat ->
  NoDup (map Share.x shares) ->
  In bad shares -> ~ onLine bad -> Share.x bad <> 0 ->
  (forall s, In s shares -> s <> bad -> onLine s) ->
  exists subset, recoverSecretFromJSON shares 2 = inr (Secret 3 (Some subset)).
Proof.
  intros Hlen Hnd Hbad Hoff Hx0 Hgood.
  rewrite recoverSecret_eq, Hlen.
  change ((4 <? 2)%nat) with false. cbv iota.
  change (chooseCombos 0%nat (seq 0 4) 2)
    with [[0; 1]; [0; 2]; [0; 3]; [1; 2]; [1; 3]; [2; 3]]%nat.
  pose proof (sortShares_perm shares) as Hperm.
  rewrite <- (sortShares_length shares) in Hlen.
  apply (Permutation_NoDup (Permutation_map Share.x (Permutation_sym Hperm)))
    in Hnd.
  apply (Permutation_in _ (Permutation_sym Hperm)) in Hbad.
  assert (Hgood' : forall s, In s (sortShares shares) -> s <> bad -> onLine s).
  { intros s Hs. apply Hgood. now apply (Permutation_in _ Hperm). }
  clear Hgood Hperm. revert Hlen Hnd Hbad Hgood'.
  generalize (sortShares shares) as sorted. intros sorted Hlen Hnd Hbad Hgood.
  destruct sorted as [| s0 [| s1 [| s2 [| s3 [| ? ?]]]]]; try discriminate.
  clear Hlen. cbn [map] in Hnd.
  inversion Hnd as [| ? ? N0 Hnd1]; subst.
  inversion Hnd1 as [| ? ? N1 Hnd2]; subst.
  inversion Hnd2 as [| ? ? N2 _]; subst.
  assert (H01 : Share.x s0 <> Share.x s1) by (intros E; apply N0; cbn; auto).
  assert (H02 : Share.x s0 <> Share.x s2) by (intros E; apply N0; cbn; auto).
  assert (H03 : Share.x s0 <> Share.x s3) by (intros E; apply N0; cbn; auto).
  assert (H12 : Share.x s1 <> Share.x s2) by (intros E; apply N1; cbn; auto).
  assert (H13 : Share.x s1 <> Share.x s3) by (intros E; apply N1; cbn; auto).
  assert (H23 : Share.x s2 <> Share.x s3) by (intros E; apply N2; cbn; auto).
  clear Hnd Hnd1 Hnd2 N0 N1 N2.
  cbn [mapM].
  rewrite (candidateOf_pair _ 0 1), (candidateOf_pair _ 0 2),
    (candidateOf_pair _ 0 3), (candidateOf_pair _ 1 2),
    (candidateOf_pair _ 1 3), (candidateOf_pair _ 2 3) by (cbn [nth]; assumption).
  cbn [nth bind ret].
  match goal with
  | |- context [fold_left recordResult ?l _] => set (rs := l)
  end.
  assert (Hdom : 0 < countKey (3, 1) (map fst rs)
                 /\ forall key, key <> (3, 1) ->
                      countKey key (map fst rs) < countKey (3, 1) (map fst rs)).
  { subst rs. cbn [map fst].
    assert (G : forall s, In s [s0; s1; s2; s3] ->
                  Share.x s <> Share.x bad -> onLine s).
    { intros s Hs Hne. apply Hgood; [assumption | congruence]. }
    destruct Hbad as [<- | [<- | [<- | [<- | []]]]].
    - assert (G1 : onLine s1) by (apply G; cbn; auto).
      assert (G2 : onLine s2) by (apply G; cbn; auto).
      assert (G3 : onLine s3) by (apply G; cbn; auto).
      rewrite (pairKey_onLine s1 s2), (pairKey_onLine s1 s3),
        (pairKey_onLine s2 s3) by assumption.
      apply (dominant_keys (pairKey s0 s1) (pairKey s0 s2) (pairKey s0 s3));
        [apply pairKey_off_line | apply pairKey_off_line
         | apply pairKey_off_line | ]; auto.
    - assert (G0 : onLine s0) by (apply G; cbn; auto).
      assert (G2 : onLine s2) by (apply G; cbn; auto).
      assert (G3 : onLine s3) by (apply G; cbn; auto).
      rewrite (pairKey_onLine s0 s2), (pairKey_onLine s0 s3),
        (pairKey_onLine s2 s3) by assumption.
      rewrite (pairKey_sym s0 s1) by assumption.
      apply (dominant_keys (pairKey s1 s0) (pairKey s1 s2) (pairKey s1 s3));
        [apply pairKey_off_line | apply pairKey_off_line
         | apply pairKey_off_line | ]; auto.
    - assert (G0 : onLine s0) by (apply G; cbn; auto).
      assert (G1 : onLine s1) by (apply G; cbn; auto).
      assert (G3 : onLine s3) by (apply G; cbn; auto).
      rewrite (pairKey_onLine s0 s1), (pairKey_onLine s0 s3),
        (pairKey_onLine s1 s3) by assumption.
      rewrite (pairKey_sym s0 s2), (pairKey_sym s1 s2) by assumption.
      apply (dominant_keys (pairKey s2 s0) (pairKey s2 s1) (pairKey s2 s3));
        [apply pairKey_off_line | apply pairKey_off_line
         | apply pairKey_off_line | ]; auto 6.
    - assert (G0 : onLine s0) by (apply G; cbn; auto).
      assert (G1 : onLine s1) by (apply G; cbn; auto).
      assert (G2 : onLine s2) by (apply G; cbn; auto).
      rewrite (pairKey_onLine s0 s1), (pairKey_onLine s0 s2),
        (pairKey_onLine s1 s2) by assumption.
      rewrite (pairKey_sym s0 s3), (pairKey_sym s1 s3), (pairKey_sym s2 s3)
        by assumption.
      apply (dominant_keys (pairKey s3 s0) (pairKey s3 s1) (pairKey s3 s2));
        [apply pairKey_off_line | apply pairKey_off_line
         | apply pairKey_off_line | ]; auto 6. }
  destruct Hdom as [Hpos Hdom].
  destruct (selectSecret_dominant rs (3, 1) Hpos Hdom) as (Htop & subset & Hsub).
  exists subset. unfold selectSecret. rewrite Htop. cbn [fst snd].
  rewrite Rational_new_1. cbn [bind]. rewrite Hsub. reflexivity.
Qed.

Lemma recoverSecret_line_majority_witness :
  exists subset,
    recoverSecretFromJSON [Share.mk 1 5; Share.mk 2 7; Share.mk 4 1; Share.mk 3 9] 2
    = inr (Secret 3 (Some subset)).
Proof.
  apply (recoverSecret_line_majority
           [Share.mk 1 5; Share.mk 2 7; Share.mk 4 1; Share.mk 3 9]
           (Share.mk 4 1)).
  - reflexivity.
  - repeat constructor; simpl; intuition discriminate.
  - simpl. auto.
  - unfold onLine. simpl. lia.
  - simpl. lia.
  - unfold onLine. simpl.
    intros s [<- | [<- | [<- | [<- | []]]]] Hne; simpl; try lia.
    congruence.
Defined.

(** * Further properties of the two programs *)

(** ** The gcd functions *)

Lemma gcdLoop_any (steps : nat) a b :
  0 <= a -> 0 <= b -> (gcdSteps a b <= steps)%nat ->
  gcdLoop steps a b = Z.gcd a b.
Proof.
  intros Ha Hb Hsteps. unfold gcdSteps in Hsteps.
  pose proof (Z.log2_nonneg a). pose proof (Z.log2_nonneg b).
  destruct steps as [| steps]; [lia |].
  destruct (Z_le_gt_dec b a) as [Hle | Hgt].
  - apply gcdLoop_enough; [lia | right; lia].
  - rewrite gcdLoop_S. destruct (Z.eqb_spec b 0) as [-> | Hnz]; [lia |].
    rewrite Z.rem_small by lia.
    rewrite gcdLoop_enough; [apply Z.gcd_comm | lia | right; lia].
Qed.

(** [gcdBigInt] (and its copy [bigGcd]) returns the greatest common
    divisor of its arguments whatever their signs: a non-negative common
    divisor that every common divisor divides, 0 only for (0, 0); and the
    iteration bound of the model is never what stops the loop. *)
Theorem gcdBigInt_greatest (a b : Z) :
  0 <= gcdBigInt a b
  /\ (gcdBigInt a b | a) /\ (gcdBigInt a b | b)
  /\ (forall c, (c | a) -> (c | b) -> (c | gcdBigInt a b))
  /\ (gcdBigInt a b = 0 <-> a = 0 /\ b = 0)
  /\ bigGcd a b = gcdBigInt a b
  /\ (forall extra,
        gcdLoop (gcdSteps (Z.abs a) (Z.abs b) + extra) (Z.abs a) (Z.abs b)
        = gcdBigInt a b).
Proof.
  rewrite bigGcd_spec, gcdBigInt_spec.
  split; [apply Z.gcd_nonneg |].
  split; [apply Z.gcd_divide_l |].
  split; [apply Z.gcd_divide_r |].
  split; [intros c; apply Z.gcd_greatest |].
  split; [apply Z.gcd_eq_0 |].
  split; [reflexivity |].
  intros extra. rewrite gcdLoop_any by lia.
  now rewrite Z.gcd_abs_l, Z.gcd_abs_r.
Qed.

(** ** Arithmetic of [Rational] *)

Lemma represents_unique r r' q : represents r q -> represents r' q -> r = r'.
Proof.
  intros [Hn Hv] [Hn' Hv']. apply toQc_inj; try assumption. congruence.
Qed.

Lemma Rational_new_cross n d n' d' :
  d <> 0 -> d' <> 0 ->
  (Rational.new n d = Rational.new n' d' <-> n * d' = n' * d).
Proof.
  intros Hd Hd'.
  destruct (Rational_new_value n d Hd) as (r & Hr & Hrep).
  destruct (Rational_new_value n' d' Hd') as (r' & Hr' & Hrep').
  rewrite Hr, Hr'.
  pose proof (Zc_nonzero d Hd) as Nd. pose proof (Zc_nonzero d' Hd') as Nd'.
  split.
  - intros E. injection E as <-.
    destruct Hrep as [_ Hv], Hrep' as [_ Hv'].
    apply Zc_inj. rewrite !Zc_mul.
    transitivity (Zc n / Zc d * (Zc d * Zc d'))%Qc; [field; assumption |].
    rewrite <- Hv, Hv'. field. assumption.
  - intros E. f_equal. apply (represents_unique _ _ _ Hrep).
    destruct Hrep' as [Hn' Hv']. split; [assumption |]. rewrite Hv'.
    apply (f_equal Zc) in E. rewrite !Zc_mul in E.
    transitivity (Zc n' * Zc d / (Zc d * Zc d'))%Qc; [field; now split |].
    rewrite <- E. field. now split.
Qed.

(** Two constructions give the same object exactly when the fractions
    are equal: [new Rational(n, d)] and [new Rational(n', d')] coincide
    iff [n * d' = n' * d].  In particular a common factor or a common
    sign change of numerator and denominator is invisible, and rebuilding
    a value from its own fields returns it unchanged (which is what the
    consensus procedure does with the winning key). *)
Theorem Rational_new_canonical (n d n' d' c : Z) (r : Rational.t) :
  d <> 0 -> d' <> 0 -> c <> 0 -> normal r ->
  (Rational.new n d = Rational.new n' d' <-> n * d' = n' * d)
  /\ Rational.new (c * n) (c * d) = Rational.new n d
  /\ Rational.new (- n) (- d) = Rational.new n d
  /\ Rational.new (Rational.num r) (Rational.den r) = inr r.
Proof.
  intros Hd Hd' Hc Hr.
  split; [now apply Rational_new_cross |].
  split; [apply Rational_new_cross; [nia | assumption | ring] |].
  split; [apply Rational_new_cross; [lia | assumption | ring] |].
  assert (Hden : Rational.den r <> 0) by (destruct Hr; lia).
  destruct (Rational_new_spec (Rational.num r) _ Hden) as (r' & Hr' & Hn' & Hx).
  rewrite Hr'. f_equal. now apply normal_unique.
Qed.

Lemma Rational_new_canonical_witness :
  12 <> 0 /\ -6 <> 0 /\ 5 <> 0 /\ normal (Rational.mk (-2) 3)
  /\ (Rational.new (-8) 12 = Rational.new 4 (-6) <-> -8 * -6 = 4 * 12)
  /\ Rational.new (Rational.num (Rational.mk (-2) 3))
                  (Rational.den (Rational.mk (-2) 3))
     = inr (Rational.mk (-2) 3).
Proof.
  assert (H1 : 12 <> 0) by lia. assert (H2 : -6 <> 0) by lia.
  assert (H3 : 5 <> 0) by lia.
  assert (Hn : normal (Rational.mk (-2) 3)) by (split; [cbn; lia | reflexivity]).
  destruct (Rational_new_canonical (-8) 12 4 (-6) 5 _ H1 H2 H3 Hn)
    as (Hiff & _ & _ & Hid).
  split; [exact H1 |]. split; [exact H2 |]. split; [exact H3 |].
  split; [exact Hn |]. split; [exact Hiff | exact Hid].
Defined.

Section RationalLaws.
Variables a b c : Rational.t.
Hypothesis Ha : normal a.
Hypothesis Hb : normal b.
Hypothesis Hc : normal c.

Lemma Rational_add_assoc :
  (ab <- Rational.add a b ;; Rational.add ab c)
  = (bc <- Rational.add b c ;; Rational.add a bc).
Proof.
  destruct (Rational_add_value a b _ _ (represents_self a Ha) (represents_self b Hb))
    as (ab & Hab & Rab).
  destruct (Rational_add_value b c _ _ (represents_self b Hb) (represents_self c Hc))
    as (bc & Hbc & Rbc).
  rewrite Hab, Hbc. cbn [bind].
  destruct (Rational_add_value ab c _ _ Rab (represents_self c Hc)) as (l & Hl & Rl).
  destruct (Rational_add_value a bc _ _ (represents_self a Ha) Rbc) as (r & Hr & Rr).
  rewrite Hl, Hr. f_equal. apply (represents_unique _ _ _ Rl).
  destruct Rr as [Hn Hv]. split; [assumption |]. rewrite Hv. ring.
Qed.

Lemma Rational_mul_assoc :
  (ab <- Rational.mul a b ;; Rational.mul ab c)
  = (bc <- Rational.mul b c ;; Rational.mul a bc).
Proof.
  destruct (Rational_mul_value a b _ _ (represents_self a Ha) (represents_self b Hb))
    as (ab & Hab & Rab).
  destruct (Rational_mul_value b c _ _ (represents_self b Hb) (represents_self c Hc))
    as (bc & Hbc & Rbc).
  rewrite Hab, Hbc. cbn [bind].
  destruct (Rational_mul_value ab c _ _ Rab (represents_self c Hc)) as (l & Hl & Rl).
  destruct (Rational_mul_value a bc _ _ (represents_self a Ha) Rbc) as (r & Hr & Rr).
  rewrite Hl, Hr. f_equal. apply (represents_unique _ _ _ Rl).
  destruct Rr as [Hn Hv]. split; [assumption |]. rewrite Hv. ring.
Qed.

Lemma Rational_mul_add_distr :
  (bc <- Rational.add b c ;; Rational.mul a bc)
  = (ab <- Rational.mul a b ;; ac <- Rational.mul a c ;; Rational.add ab ac).
Proof.
  destruct (Rational_add_value b c _ _ (represents_self b Hb) (represents_self c Hc))
    as (bc & Hbc & Rbc).
  destruct (Rational_mul_value a b _ _ (represents_self a Ha) (represents_self b Hb))
    as (ab & Hab & Rab).
  destruct (Rational_mul_value a c _ _ (represents_self a Ha) (represents_self c Hc))
    as (ac & Hac & Rac).
  rewrite Hbc, Hab. cbn [bind]. rewrite Hac. cbn [bind].
  destruct (Rational_mul_value a bc _ _ (represents_self a Ha) Rbc) as (l & Hl & Rl).
  destruct (Rational_add_value ab ac _ _ Rab Rac) as (r & Hr & Rr).
  rewrite Hl, Hr. f_equal. apply (represents_unique _ _ _ Rl).
  destruct Rr as [Hn Hv]. split; [assumption |]. rewrite Hv. ring.
Qed.
End RationalLaws.

(** On values in normal form [add] and [mul] are commutative and
    associative and [mul] distributes over [add], as equalities of the
    objects returned (same numerator, same denominator), whatever
    reductions happen on the way. *)
Theorem Rational_ring_laws (a b c : Rational.t) :
  normal a -> normal b -> normal c ->
  Rational.add a b = Rational.add b a
  /\ Rational.mul a b = Rational.mul b a
  /\ (ab <- Rational.add a b ;; Rational.add ab c)
     = (bc <- Rational.add b c ;; Rational.add a bc)
  /\ (ab <- Rational.mul a b ;; Rational.mul ab c)
     = (bc <- Rational.mul b c ;; Rational.mul a bc)
  /\ (bc <- Rational.add b c ;; Rational.mul a bc)
     = (ab <- Rational.mul a b ;; ac <- Rational.mul a c ;; Rational.add ab ac).
Proof.
  intros Ha Hb Hc.
  split; [unfold Rational.add; f_equal; ring |].
  split; [unfold Rational.mul; f_equal; ring |].
  split; [now apply Rational_add_assoc |].
  split; [now apply Rational_mul_assoc |].
  now apply Rational_mul_add_distr.
Qed.

Lemma Rational_ring_laws_witness :
  normal (Rational.mk 1 2) /\ normal (Rational.mk (-2) 3) /\ normal (Rational.mk 5 6)
  /\ (ab <- Rational.add (Rational.mk 1 2) (Rational.mk (-2) 3) ;;
      Rational.add ab (Rational.mk 5 6))
     = (bc <- Rational.add (Rational.mk (-2) 3) (Rational.mk 5 6) ;;
        Rational.add (Rational.mk 1 2) bc).
Proof.
  assert (H1 : normal (Rational.mk 1 2)) by (split; [cbn; lia | reflexivity]).
  assert (H2 : normal (Rational.mk (-2) 3)) by (split; [cbn; lia | reflexivity]).
  assert (H3 : normal (Rational.mk 5 6)) by (split; [cbn; lia | reflexivity]).
  split; [exact H1 |]. split; [exact H2 |]. split; [exact H3 |].
  apply (Rational_ring_laws _ _ _ H1 H2 H3).
Defined.

Lemma Rational_zero_eq : Rational.zero = inr (Rational.mk 0 1).
Proof. apply Rational_new_1. Qed.

Lemma Rational_fromBigInt_eq n : Rational.fromBigInt n = inr (Rational.mk n 1).
Proof. apply Rational_new_1. Qed.

Lemma Zc_0 : Zc 0 = 0%Qc.
Proof. reflexivity. Qed.

Lemma Zc_1 : Zc 1 = 1%Qc.
Proof. reflexivity. Qed.

(** Zero and one are neutral, [neg] gives the opposite, [sub] is [add]
    of the opposite, and [div] undoes [mul]: all as equalities of the
    returned objects, for operands in normal form. *)
Theorem Rational_inverse_laws (a b : Rational.t) :
  normal a -> normal b ->
  (z <- Rational.zero ;; Rational.add a z) = inr a
  /\ (o <- Rational.fromBigInt 1 ;; Rational.mul a o) = inr a
  /\ (m <- Rational.neg a ;; Rational.add a m) = Rational.zero
  /\ Rational.sub a b = (m <- Rational.neg b ;; Rational.add a m)
  /\ Rational.sub a a = Rational.zero
  /\ (Rational.num b <> 0 ->
      (q <- Rational.div a b ;; Rational.mul q b) = inr a
      /\ (p <- Rational.mul a b ;; Rational.div p b) = inr a
      /\ Rational.div b b = Rational.fromBigInt 1)
  /\ (Rational.num b = 0 -> Rational.div a b = inl DivideByZero).
Proof.
  intros Ha Hb.
  pose proof (represents_self a Ha) as Ra.
  pose proof (represents_self b Hb) as Rb.
  rewrite Rational_zero_eq, !Rational_fromBigInt_eq. cbn [bind].
  split.
  { destruct (Rational_add_value a _ _ _ Ra (represents_int 0)) as (r & Hr & Rr).
    rewrite Hr. f_equal. apply (represents_unique _ _ _ Rr).
    split; [assumption |]. rewrite Zc_0. ring. }
  split.
  { destruct (Rational_mul_value a _ _ _ Ra (represents_int 1)) as (r & Hr & Rr).
    rewrite Hr. f_equal. apply (represents_unique _ _ _ Rr).
    split; [assumption |]. rewrite Zc_1. ring. }
  destruct (Rational_neg_value a _ Ra) as (na & Hna & Rna).
  destruct (Rational_neg_value b _ Rb) as (nb & Hnb & Rnb).
  split.
  { rewrite Hna. cbn [bind].
    destruct (Rational_add_value a na _ _ Ra Rna) as (r & Hr & Rr).
    rewrite Hr. f_equal. apply (represents_unique _ _ _ Rr).
    split; [apply normal_int |]. rewrite toQc_int, Zc_0. ring. }
  split.
  { rewrite Hnb. cbn [bind].
    destruct (Rational_sub_value a b _ _ Ra Rb) as (l & Hl & Rl).
    destruct (Rational_add_value a nb _ _ Ra Rnb) as (r & Hr & Rr).
    rewrite Hl, Hr. f_equal. apply (represents_unique _ _ _ Rl).
    destruct Rr as [Hn Hv]. split; [assumption |]. rewrite Hv. ring. }
  split.
  { destruct (Rational_sub_value a a _ _ Ra Ra) as (r & Hr & Rr).
    rewrite Hr. f_equal. apply (represents_unique _ _ _ Rr).
    split; [apply normal_int |]. rewrite toQc_int, Zc_0. ring. }
  split.
  - intros Hnz.
    assert (Hqb : toQc b <> 0%Qc).
    { destruct Hb as [Hpos _]. rewrite (toQc_frac b Hpos). intros E.
      apply (Zc_nonzero _ Hnz).
      transitivity (Zc (Rational.num b) / Zc (Rational.den b)
                    * Zc (Rational.den b))%Qc;
        [field; apply Zc_nonzero; lia | rewrite E; ring]. }
    split; [| split].
    + destruct (Rational_div_value a b _ _ Ra Rb Hnz) as (q & Hq & Rq).
      rewrite Hq. cbn [bind].
      destruct (Rational_mul_value q b _ _ Rq Rb) as (r & Hr & Rr).
      rewrite Hr. f_equal. apply (represents_unique _ _ _ Rr).
      split; [assumption |]. field. assumption.
    + destruct (Rational_mul_value a b _ _ Ra Rb) as (p & Hp & Rp).
      rewrite Hp. cbn [bind].
      destruct (Z.eq_dec (Rational.num p) 0) as [Hz | Hpnz].
      * (* a = 0: the product is 0/1 and 0 / b = 0 *)
        unfold Rational.div.
        destruct (Z.eqb_spec (Rational.num b) 0) as [? | _]; [contradiction |].
        rewrite Hz, Z.mul_0_l.
        assert (Hdn : Rational.den p * Rational.num b <> 0)
          by (destruct Rp as [[? _] _]; nia).
        rewrite (Rational_new_zero _ Hdn). f_equal.
        apply (represents_unique (Rational.mk 0 1) a (toQc a));
          [| assumption].
        split; [apply normal_int |]. rewrite toQc_int, Zc_0.
        destruct Rp as [[Hpd _] Hpv]. rewrite (toQc_frac p Hpd), Hz, Zc_0 in Hpv.
        assert (E : (toQc a * toQc b = 0)%Qc).
        { rewrite <- Hpv. field. apply Zc_nonzero. lia. }
        apply Qcmult_integral in E. destruct E as [E | E]; [now rewrite E |].
        contradiction.
      * destruct (Rational_div_value p b _ _ Rp Rb Hnz) as (r & Hr & Rr).
        rewrite Hr. f_equal. apply (represents_unique _ _ _ Rr).
        split; [assumption |]. field. assumption.
    + destruct (Rational_div_value b b _ _ Rb Rb Hnz) as (r & Hr & Rr).
      rewrite Hr. f_equal. apply (represents_unique _ _ _ Rr).
      split; [apply normal_int |]. rewrite toQc_int, Zc_1. field. assumption.
  - intros Hz. unfold Rational.div. now rewrite Hz.
Qed.

Lemma Rational_inverse_laws_witness :
  normal (Rational.mk (-3) 4) /\ normal (Rational.mk 5 6)
  /\ (q <- Rational.div (Rational.mk (-3) 4) (Rational.mk 5 6) ;;
      Rational.mul q (Rational.mk 5 6)) = inr (Rational.mk (-3) 4)
  /\ Rational.sub (Rational.mk (-3) 4) (Rational.mk 5 6)
     = (m <- Rational.neg (Rational.mk 5 6) ;; Rational.add (Rational.mk (-3) 4) m).
Proof.
  assert (Ha : normal (Rational.mk (-3) 4)) by (split; [cbn; lia | reflexivity]).
  assert (Hb : normal (Rational.mk 5 6)) by (split; [cbn; lia | reflexivity]).
  destruct (Rational_inverse_laws _ _ Ha Hb)
    as (_ & _ & _ & Hsub & _ & Hdiv & _).
  split; [exact Ha |]. split; [exact Hb |].
  split; [| exact Hsub]. apply Hdiv. cbn. lia.
Defined.

(** On a value in normal form [toIntegerIfExact] returns the numerator
    exactly when the denominator is 1 and [null] otherwise: the second
    test of the source ([num % den === 0n]) never succeeds, and no
    rounding happens.  [isZero] holds for [0/1] only, and [fromBigInt]
    followed by [toIntegerIfExact] is the identity. *)
Theorem toIntegerIfExact_normal (r : Rational.t) (v : Z) :
  normal r ->
  (Rational.toIntegerIfExact r = Some v <-> r = Rational.mk v 1)
  /\ (Rational.toIntegerIfExact r = None <-> Rational.den r <> 1)
  /\ (Rational.den r <> 1 -> Z.rem (Rational.num r) (Rational.den r) <> 0)
  /\ (Rational.isZero r = true <-> r = Rational.mk 0 1)
  /\ (x <- Rational.fromBigInt v ;; ret (Rational.toIntegerIfExact x))
     = inr (Some v).
Proof.
  intros [Hpos Hg].
  assert (Hrem : Rational.den r <> 1 ->
                 Z.rem (Rational.num r) (Rational.den r) <> 0).
  { intros Hne Hrem. apply Z.rem_divide in Hrem; [| lia].
    destruct Hrem as [q Hq]. rewrite Hq, gcd_multiple in Hg by lia. lia. }
  destruct r as [rn rd]. cbn [Rational.num Rational.den] in *.
  unfold Rational.toIntegerIfExact, Rational.isZero.
  cbn [Rational.num Rational.den].
  split; [| split; [| split; [exact Hrem | split]]].
  - destruct (Z.eqb_spec rd 1) as [-> | Hne].
    + split; [intros E; injection E as ->; reflexivity
             | intros E; injection E as ->; reflexivity].
    + split; [| intros E; injection E; intros; lia].
      destruct (Z.eqb_spec (Z.rem rn rd) 0) as [E | _]; [| discriminate].
      now apply Hrem in E.
  - destruct (Z.eqb_spec rd 1) as [-> | Hne]; [split; [discriminate | lia] |].
    destruct (Z.eqb_spec (Z.rem rn rd) 0) as [E | _];
      [now apply Hrem in E | split; auto].
  - split.
    + intros E. apply Z.eqb_eq in E. subst rn.
      rewrite Z.gcd_0_l, Z.abs_eq in Hg by lia. now subst rd.
    + intros E. injection E as -> ->. reflexivity.
  - rewrite Rational_fromBigInt_eq. reflexivity.
Qed.

Lemma toIntegerIfExact_normal_witness :
  normal (Rational.mk 7 2)
  /\ (Rational.toIntegerIfExact (Rational.mk 7 2) = None
      <-> Rational.den (Rational.mk 7 2) <> 1).
Proof.
  assert (Hn : normal (Rational.mk 7 2)) by (split; [cbn; lia | reflexivity]).
  split; [exact Hn |].
  apply (toIntegerIfExact_normal (Rational.mk 7 2) 0 Hn).
Defined.

(** [fromBigInt] embeds the integers: sums, differences, products and
    opposites of embedded integers are the embedded results, and the
    quotient of two embedded integers is the reduced fraction. *)
Theorem Rational_fromBigInt_hom (m n : Z) :
  (x <- Rational.fromBigInt m ;; y <- Rational.fromBigInt n ;; Rational.add x y)
  = Rational.fromBigInt (m + n)
  /\ (x <- Rational.fromBigInt m ;; y <- Rational.fromBigInt n ;; Rational.sub x y)
     = Rational.fromBigInt (m - n)
  /\ (x <- Rational.fromBigInt m ;; y <- Rational.fromBigInt n ;; Rational.mul x y)
     = Rational.fromBigInt (m * n)
  /\ (x <- Rational.fromBigInt m ;; Rational.neg x) = Rational.fromBigInt (- m)
  /\ (x <- Rational.fromBigInt m ;; y <- Rational.fromBigInt n ;; Rational.div x y)
     = if n =? 0 then inl DivideByZero else Rational.new m n.
Proof.
  rewrite !Rational_fromBigInt_eq. cbn [bind].
  unfold Rational.add, Rational.sub, Rational.mul, Rational.neg, Rational.div.
  cbn [Rational.num Rational.den].
  rewrite !Z.mul_1_r, !Z.mul_1_l, !Rational_new_1.
  repeat split.
Qed.

(** ** The [Fraction] class of the first program *)

Lemma normal_den_1 r q :
  normal r -> Rational.num r = q * Rational.den r -> r = Rational.mk q 1.
Proof.
  intros [Hpos Hg] Hq. rewrite Hq, gcd_multiple in Hg by lia.
  destruct r as [rn rd]. cbn in *. subst rd. f_equal. lia.
Qed.

(** [new Fraction(n, d)] with [d <> 0] is the fraction in lowest terms
    with a positive denominator, and [asIntegerIfWhole] on it answers
    [whole] with the exact quotient when [d] divides [n] and hands the
    fraction back otherwise; a zero denominator makes the constructor
    throw. *)
Theorem Fraction_new_asIntegerIfWhole (n d : Z) :
  d <> 0 ->
  Fraction.new n 0 = inl DenominatorCannotBeZero
  /\ exists f,
       Fraction.new n d = inr f
       /\ 0 < Fraction.d f /\ Z.gcd (Fraction.n f) (Fraction.d f) = 1
       /\ Fraction.n f * d = n * Fraction.d f
       /\ (forall q, n = q * d -> Fraction.asIntegerIfWhole f = inl q)
       /\ (~ (d | n) -> Fraction.asIntegerIfWhole f = inr f).
Proof.
  intros Hd. split; [reflexivity |].
  rewrite Fraction_new_Rational_new.
  destruct (Rational_new_spec n d Hd) as (r & Hr & Hn & Hx). rewrite Hr.
  exists (Fraction.mk (Rational.num r) (Rational.den r)).
  split; [reflexivity |]. cbn [Fraction.n Fraction.d].
  destruct Hn as [Hpos Hg].
  split; [exact Hpos |]. split; [exact Hg |]. split; [exact Hx |].
  unfold Fraction.asIntegerIfWhole. cbn [Fraction.n Fraction.d]. split.
  - intros q ->.
    assert (E : r = Rational.mk q 1)
      by (apply normal_den_1; [now split | nia]).
    subst r. reflexivity.
  - intros Hnd.
    destruct (Z.eqb_spec (Rational.den r) 1) as [E | Hne].
    + exfalso. apply Hnd. exists (Rational.num r). rewrite E in Hx. lia.
    + destruct (Z.eqb_spec (Z.rem (Rational.num r) (Rational.den r)) 0)
        as [Hrem | _]; [| reflexivity].
      exfalso. apply Z.rem_divide in Hrem; [| lia].
      destruct Hrem as [c Hc]. apply Hne.
      rewrite Hc, gcd_multiple in Hg by lia. exact Hg.
Qed.

Lemma Fraction_new_asIntegerIfWhole_witness :
  -4 <> 0
  /\ exists f, Fraction.new 6 (-4) = inr f
       /\ Fraction.n f * -4 = 6 * Fraction.d f
       /\ Fraction.asIntegerIfWhole f = inr f.
Proof.
  assert (Hd : -4 <> 0) by lia. split; [exact Hd |].
  destruct (Fraction_new_asIntegerIfWhole 6 (-4) Hd)
    as (_ & f & Hf & _ & _ & Hx & _ & Hfrac).
  exists f. split; [exact Hf |]. split; [exact Hx |].
  apply Hfrac. intros [c Hc]. lia.
Defined.

(** [add] and [mul] of [Fraction] never throw on fractions with positive
    denominators (as the constructor makes them): they return the sum and
    the product in lowest terms with a positive denominator; [fromBigInt]
    returns the integer over 1. *)
Theorem Fraction_add_mul (f g : Fraction.t) (z : Z) :
  0 < Fraction.d f -> 0 < Fraction.d g ->
  Fraction.fromBigInt z = inr (Fraction.mk z 1)
  /\ exists s p,
       Fraction.add f g = inr s /\ Fraction.mul f g = inr p
       /\ 0 < Fraction.d s /\ Z.gcd (Fraction.n s) (Fraction.d s) = 1
       /\ Fraction.n s * (Fraction.d f * Fraction.d g)
          = (Fraction.n f * Fraction.d g + Fraction.n g * Fraction.d f)
            * Fraction.d s
       /\ 0 < Fraction.d p /\ Z.gcd (Fraction.n p) (Fraction.d p) = 1
       /\ Fraction.n p * (Fraction.d f * Fraction.d g)
          = Fraction.n f * Fraction.n g * Fraction.d p.
Proof.
  intros Hf Hg. split.
  - unfold Fraction.fromBigInt. rewrite Fraction_new_Rational_new.
    now rewrite Rational_new_1.
  - assert (Hd : Fraction.d f * Fraction.d g <> 0) by nia.
    unfold Fraction.add, Fraction.mul. rewrite !Fraction_new_Rational_new.
    destruct (Rational_new_spec
                (Fraction.n f * Fraction.d g + Fraction.n g * Fraction.d f)
                _ Hd) as (s & -> & [Hs1 Hs2] & Hs3).
    destruct (Rational_new_spec (Fraction.n f * Fraction.n g) _ Hd)
      as (p & -> & [Hp1 Hp2] & Hp3).
    exists (Fraction.mk (Rational.num s) (Rational.den s)),
           (Fraction.mk (Rational.num p) (Rational.den p)).
    cbn [Fraction.n Fraction.d]. intuition.
Qed.

Lemma Fraction_add_mul_witness :
  exists s p,
    Fraction.add (Fraction.mk 1 6) (Fraction.mk 1 3) = inr s
    /\ Fraction.mul (Fraction.mk 1 6) (Fraction.mk 1 3) = inr p
    /\ Fraction.n s * (6 * 3) = (1 * 3 + 1 * 6) * Fraction.d s
    /\ Fraction.n p * (6 * 3) = 1 * 1 * Fraction.d p.
Proof.
  destruct (Fraction_add_mul (Fraction.mk 1 6) (Fraction.mk 1 3) 0)
    as (_ & s & p & Hs & Hp & _ & _ & Hsv & _ & _ & Hpv);
    [cbn; lia | cbn; lia |].
  exists s, p. cbn [Fraction.n Fraction.d] in Hsv, Hpv.
  split; [exact Hs |]. split; [exact Hp |]. split; [exact Hsv | exact Hpv].
Defined.

(** ** More on [reconstructAtOrigin] *)

Lemma reconstructAtOrigin_on_polynomial (coeffs : list Z) (dataSubset : list Share.t) :
  NoDup (map Share.x dataSubset) ->
  (length coeffs <= length dataSubset)%nat ->
  (forall s, In s dataSubset -> Share.y s = pevalZ coeffs (Share.x s)) ->
  reconstructAtOrigin dataSubset = inr (Rational.mk (pevalZ coeffs 0) 1).
Proof.
  intros Hnd Hlen Hon.
  destruct (reconstructAtOrigin_distinct dataSubset Hnd) as (r & Hr & Hn & Hv).
  rewrite Hr. f_equal.
  apply toQc_inj; [assumption | apply normal_int |].
  rewrite Hv, toQc_int.
  rewrite (lagrangeSum_exact _ _ (NoDup_map_Zc _ Hnd) (map Zc coeffs)).
  - change 0%Qc with (Zc 0). apply peval_Zc.
  - now rewrite !length_map.
  - rewrite length_map. intros i Hi.
    rewrite nth_xs, nth_ys, peval_Zc. f_equal.
    apply Hon. now apply nth_In.
Qed.

Lemma lagrangeSum_permutation (pts pts' : list Share.t) (t : Qc) :
  Permutation pts pts' -> NoDup (map Share.x pts) ->
  lagrangeSum (map (fun s => Zc (Share.x s)) pts)
              (map (fun s => Zc (Share.y s)) pts) t
  = lagrangeSum (map (fun s => Zc (Share.x s)) pts')
                (map (fun s => Zc (Share.y s)) pts') t.
Proof.
  intros Hperm Hnd.
  assert (Hnd' : NoDup (map Share.x pts'))
    by (apply (Permutation_NoDup (Permutation_map Share.x Hperm)); exact Hnd).
  set (X := map (fun s => Zc (Share.x s)) pts).
  set (Y := map (fun s => Zc (Share.y s)) pts).
  set (X' := map (fun s => Zc (Share.x s)) pts').
  set (Y' := map (fun s => Zc (Share.y s)) pts').
  assert (HlX : length X = length pts) by apply length_map.
  assert (HlX' : length X' = length pts).
  { unfold X'. rewrite length_map. symmetry. now apply Permutation_length. }
  assert (H0 : (lagrangeSum X Y t + (- (1)) * lagrangeSum X' Y' t = 0)%Qc).
  { apply (polyfun_roots X
             (fun u => lagrangeSum X Y u + (- (1)) * lagrangeSum X' Y' u)%Qc).
    - apply NoDup_map_Zc. exact Hnd.
    - apply polyfun_add.
      + unfold lagrangeSum. apply polyfun_sum.
        intros i Hi. apply in_seq in Hi. lia.
      + apply polyfun_scale. rewrite HlX, <- HlX'.
        unfold lagrangeSum. apply polyfun_sum.
        intros i Hi. apply in_seq in Hi. lia.
    - intros x Hx. destruct (In_nth X x 0%Qc Hx) as (m & Hm & <-).
      rewrite (lagrangeSum_node X Y (NoDup_map_Zc _ Hnd) m Hm).
      rewrite HlX in Hm.
      assert (Hin : In (nth m pts noShare) pts') by
        (apply (Permutation_in _ Hperm); now apply nth_In).
      destruct (In_nth pts' _ noShare Hin) as (m' & Hm' & E).
      unfold X at 1, Y. rewrite nth_xs, nth_ys, <- E.
      rewrite <- (nth_xs pts' m'), <- (nth_ys pts' m'). fold X' Y'.
      rewrite (lagrangeSum_node X' Y' (NoDup_map_Zc _ Hnd') m')
        by (rewrite HlX'; rewrite (Permutation_length Hperm); exact Hm').
      ring. }
  transitivity (lagrangeSum X Y t + - (1) * lagrangeSum X' Y' t
                + lagrangeSum X' Y' t)%Qc; [ring | rewrite H0; ring].
Qed.

(** The order of the shares inside a subset does not matter:
    [reconstructAtOrigin] returns the same object, or throws the same
    error, on every rearrangement of its argument. *)
Theorem reconstructAtOrigin_order_irrelevant (pts pts' : list Share.t) :
  Permutation pts pts' -> reconstructAtOrigin pts = reconstructAtOrigin pts'.
Proof.
  intros Hperm.
  pose proof (reconstructAtOrigin_sem pts) as H.
  destruct (reconstructAtOrigin pts) as [e | r] eqn:Hr.
  - destruct H as [-> Hclash]. symmetry. apply reconstructAtOrigin_clash.
    intros Hnd'. apply (Permutation_NoDup
                          (Permutation_map Share.x (Permutation_sym Hperm))) in Hnd'.
    apply anyClash_false_iff in Hnd'. congruence.
  - destruct H as [Hclash Hrep]. apply anyClash_false_iff in Hclash.
    assert (Hnd' : NoDup (map Share.x pts'))
      by (apply (Permutation_NoDup (Permutation_map Share.x Hperm)); exact Hclash).
    destruct (reconstructAtOrigin_distinct pts' Hnd') as (r' & Hr' & Hrep').
    rewrite Hr'. f_equal. apply (represents_unique _ _ _ Hrep).
    rewrite (lagrangeSum_permutation pts pts' _ Hperm Hclash). exact Hrep'.
Qed.


Lemma reconstructAtOrigin_order_irrelevant_witness :
  Permutation [Share.mk 1 1; Share.mk 3 2; Share.mk 4 9]
              [Share.mk 4 9; Share.mk 1 1; Share.mk 3 2]
  /\ reconstructAtOrigin [Share.mk 1 1; Share.mk 3 2; Share.mk 4 9]
     = reconstructAtOrigin [Share.mk 4 9; Share.mk 1 1; Share.mk 3 2].
Proof.
  assert (H : Permutation [Share.mk 1 1; Share.mk 3 2; Share.mk 4 9]
                          [Share.mk 4 9; Share.mk 1 1; Share.mk 3 2]).
  { apply Permutation_sym.
    apply (Permutation_cons_app [Share.mk 1 1; Share.mk 3 2] [] (Share.mk 4 9)).
    rewrite app_nil_r. apply Permutation_refl. }
  split; [exact H |].
  apply (reconstructAtOrigin_order_irrelevant _ _ H).
Defined.

(** Edge cases of [reconstructAtOrigin]: the empty subset gives 0/1,
    and a single share gives its own y whatever its x. *)
Theorem reconstructAtOrigin_edges (s : Share.t) :
  reconstructAtOrigin [] = inr (Rational.mk 0 1)
  /\ reconstructAtOrigin [s] = inr (Rational.mk (Share.y s) 1).
Proof.
  split; [reflexivity |].
  rewrite (reconstructAtOrigin_on_polynomial [Share.y s] [s]).
  - cbn [pevalZ]. do 2 f_equal. lia.
  - repeat constructor. intros [].
  - reflexivity.
  - intros u [<- | []]. cbn. lia.
Qed.

(** A share added to a subset that already determines the polynomial
    changes nothing, as long as it lies on that polynomial at a new x. *)
Theorem reconstructAtOrigin_redundant_share (s : Share.t) (coeffs : list Z)
  (dataSubset : list Share.t) :
  NoDup (map Share.x (s :: dataSubset)) ->
  (length coeffs <= length dataSubset)%nat ->
  (forall u, In u (s :: dataSubset) -> Share.y u = pevalZ coeffs (Share.x u)) ->
  reconstructAtOrigin (s :: dataSubset) = reconstructAtOrigin dataSubset.
Proof.
  intros Hnd Hlen Hon.
  rewrite (reconstructAtOrigin_on_polynomial coeffs (s :: dataSubset)),
    (reconstructAtOrigin_on_polynomial coeffs dataSubset); auto.
  - cbn [map] in Hnd. now inversion Hnd.
  - intros u Hu. apply Hon. now right.
  - cbn [length]. lia.
Qed.

Lemma reconstructAtOrigin_redundant_share_witness :
  NoDup (map Share.x [Share.mk 4 11; Share.mk 1 5; Share.mk 2 7])
  /\ reconstructAtOrigin [Share.mk 4 11; Share.mk 1 5; Share.mk 2 7]
     = reconstructAtOrigin [Share.mk 1 5; Share.mk 2 7].
Proof.
  assert (Hnd : NoDup (map Share.x [Share.mk 4 11; Share.mk 1 5; Share.mk 2 7])).
  { repeat constructor; simpl; intuition discriminate. }
  assert (Hon : forall u, In u [Share.mk 4 11; Share.mk 1 5; Share.mk 2 7] ->
                          Share.y u = pevalZ [3; 2] (Share.x u)).
  { intros u [<- | [<- | [<- | []]]]; reflexivity. }
  assert (Hlen : (length [3; 2] <= length [Share.mk 1 5; Share.mk 2 7])%nat)
    by (simpl; lia).
  split; [exact Hnd |].
  apply (reconstructAtOrigin_redundant_share _ [3; 2] _ Hnd Hlen Hon).
Defined.

(** ** More on [chooseCombos] *)

Lemma map_flat_map {A B C : Type} (f : B -> C) (g : A -> list B) (l : list A) :
  map f (flat_map g l) = flat_map (fun a => map f (g a)) l.
Proof.
  induction l as [| a l IH]; cbn; [reflexivity |].
  now rewrite map_app, IH.
Qed.

Lemma flat_map_ext_in {A B : Type} (f g : A -> list B) (l : list A) :
  (forall a, In a l -> f a = g a) -> flat_map f l = flat_map g l.
Proof.
  induction l as [| a l IH]; intros H; cbn; [reflexivity |].
  rewrite H by now left. rewrite IH; [reflexivity |].
  intros a' Ha'. apply H. now right.
Qed.

Lemma map_nth_indices {A : Type} (d : A) (l : list A) :
  map (fun i => nth i l d) (seq 0 (length l)) = l.
Proof.
  induction l as [| a l IH]; [reflexivity |].
  cbn [length seq map nth]. f_equal.
  rewrite <- seq_shift, map_map. exact IH.
Qed.

Lemma firstn_seq k : forall s n, (k <= n)%nat -> firstn k (seq s n) = seq s k.
Proof.
  induction k as [| k IH]; intros s n Hle; [reflexivity |].
  destruct n as [| n]; [lia |]. cbn. f_equal. apply IH. lia.
Qed.

Lemma binomial_diag n : binomial n n = 1%nat.
Proof.
  induction n as [| n IH]; [reflexivity |].
  cbn [binomial]. rewrite IH, binomial_small by lia. reflexivity.
Qed.

Lemma ascending_full l :
  forall lo, ascending lo l -> Forall (fun i => (i < lo + length l)%nat) l ->
             l = seq lo (length l).
Proof.
  induction l as [| i l IH]; intros lo Hasc Hall; [reflexivity |].
  destruct Hasc as [Hlo Hasc]. inversion Hall as [| ? ? Hi Hall']; subst.
  cbn [length] in *.
  destruct (ascending_bound (lo + S (length l)) l (S i) Hasc Hall') as [-> | Hb].
  - cbn in *. f_equal. lia.
  - assert (i = lo) by lia. subst i. cbn [seq]. f_equal.
    apply IH; [assumption |].
    eapply Forall_impl; [| exact Hall']. cbn. intros; lia.
Qed.

Section CombosOfArray.
Context {A : Type}.
Variable undefined : A.
Variable arr : list A.
Variable k : nat.

Lemma backtrack_by_index (depth : nat) :
  forall start ci,
    (length ci <= k)%nat ->
    backtrack undefined arr k depth start (map (fun i => nth i arr undefined) ci)
    = map (map (fun i => nth i arr undefined))
          (backtrack 0%nat (seq 0 (length arr)) k depth start ci).
Proof.
  induction depth as [| depth IH]; intros start ci Hlen; cbn [backtrack];
    rewrite length_map;
    destruct (Nat.eqb_spec (length ci) k) as [E | Hne]; try reflexivity.
  rewrite map_flat_map, length_seq. apply flat_map_ext_in.
  intros i Hi. apply in_seq in Hi.
  rewrite seq_nth by lia. cbn [Nat.add].
  rewrite <- IH by (rewrite length_app; cbn [length]; lia).
  now rewrite map_app.
Qed.

Lemma backtrack_head (todo : nat) :
  forall start chosen,
    (length chosen + todo = k)%nat -> (start + todo <= length arr)%nat ->
    exists rest,
      backtrack 0%nat (seq 0 (length arr)) k todo start chosen
      = (chosen ++ seq start todo) :: rest.
Proof.
  induction todo as [| todo IH]; intros start chosen Hlen Hfit.
  - rewrite backtrack_done by lia. exists []. now rewrite app_nil_r.
  - rewrite (backtrack_step _ _ _ todo) by assumption.
    replace (S (length arr) - S todo - start)%nat
      with (S (length arr - S todo - start)) by lia.
    cbn [seq flat_map]. rewrite seq_nth by lia. cbn [Nat.add].
    destruct (IH (start + 1)%nat (chosen ++ [start])) as (rest & Hrest).
    + rewrite length_app. cbn [length]. lia.
    + lia.
    + rewrite Hrest. eexists. cbn [app]. rewrite <- app_assoc.
      cbn [app]. rewrite Nat.add_1_r. reflexivity.
Qed.
End CombosOfArray.

(** [chooseCombos] on any array is [chooseCombos] on its indices followed
    by the lookup of each index: the subsets of an array come in the order
    of the index subsets, each in array order.  This is how
    [recoverSecretFromJSON] uses it. *)
Theorem chooseCombos_by_index {A : Type} (undefined : A) (arr : list A) (k : nat) :
  chooseCombos undefined arr k
  = map (map (fun i => nth i arr undefined))
        (chooseCombos 0%nat (seq 0 (length arr)) k)
  /\ length (chooseCombos undefined arr k) = binomial (length arr) k
  /\ (forall c, In c (chooseCombos undefined arr k) -> length c = k).
Proof.
  assert (E : chooseCombos undefined arr k
              = map (map (fun i => nth i arr undefined))
                    (chooseCombos 0%nat (seq 0 (length arr)) k)).
  { unfold chooseCombos.
    apply (backtrack_by_index undefined arr k k 0%nat []). cbn. lia. }
  split; [exact E |]. rewrite E. split.
  - rewrite length_map. apply chooseCombos_length.
  - intros c Hc. apply in_map_iff in Hc. destruct Hc as (ci & <- & Hci).
    rewrite length_map. unfold chooseCombos in Hci.
    apply backtrack_In in Hci; [| reflexivity].
    destruct Hci as (t & -> & Hl & _). exact Hl.
Qed.

(** Edge cases of [chooseCombos]: size 0 gives the single empty subset,
    a size above the length gives no subset at all, the full size gives
    the array itself, and whenever there is a subset the first one
    enumerated is the first [k] elements of the array. *)
Theorem chooseCombos_edges {A : Type} (undefined : A) (arr : list A) (k : nat) :
  chooseCombos undefined arr 0 = [[]]
  /\ ((length arr < k)%nat -> chooseCombos undefined arr k = [])
  /\ chooseCombos undefined arr (length arr) = [arr]
  /\ ((k <= length arr)%nat ->
      exists rest, chooseCombos undefined arr k = firstn k arr :: rest).
Proof.
  assert (E : forall k',
             chooseCombos undefined arr k'
             = map (map (fun i => nth i arr undefined))
                   (chooseCombos 0%nat (seq 0 (length arr)) k')).
  { intros k'. unfold chooseCombos.
    apply (backtrack_by_index undefined arr k' k' 0%nat []). cbn. lia. }
  split; [reflexivity |]. split; [| split].
  - intros Hlt. rewrite E.
    pose proof (chooseCombos_length (length arr) k) as Hl.
    rewrite binomial_small in Hl by lia.
    now destruct (chooseCombos 0%nat (seq 0 (length arr)) k).
  - rewrite E.
    pose proof (chooseCombos_length (length arr) (length arr)) as Hl.
    rewrite binomial_diag in Hl.
    destruct (chooseCombos 0%nat (seq 0 (length arr)) (length arr))
      as [| c [| ? ?]] eqn:Hc; try discriminate.
    assert (Hin : In c (chooseCombos 0%nat (seq 0 (length arr)) (length arr)))
      by (rewrite Hc; now left).
    unfold chooseCombos in Hin. apply backtrack_In in Hin; [| reflexivity].
    destruct Hin as (t & -> & Hlen & Hasc & Hall). cbn [app].
    rewrite (ascending_full t 0 Hasc) by (now rewrite Hlen).
    rewrite Hlen. cbn [map]. now rewrite map_nth_indices.
  - intros Hle. rewrite E. unfold chooseCombos at 1.
    destruct (backtrack_head arr k k 0%nat []) as (rest & Hrest);
      [reflexivity | lia |].
    rewrite Hrest. cbn [app map]. eexists. f_equal.
    rewrite <- (firstn_seq k 0 (length arr)) by assumption.
    rewrite <- firstn_map. now rewrite map_nth_indices.
Qed.

Lemma chooseCombos_edges_witness :
  (length [10; 20; 30] < 4)%nat /\ (2 <= length [10; 20; 30])%nat
  /\ chooseCombos 0 [10; 20; 30] 4 = []
  /\ exists rest, chooseCombos 0 [10; 20; 30] 2 = firstn 2 [10; 20; 30] :: rest.
Proof.
  assert (H1 : (length [10; 20; 30] < 4)%nat) by (simpl; lia).
  assert (H2 : (2 <= length [10; 20; 30])%nat) by (simpl; lia).
  split; [exact H1 |]. split; [exact H2 |]. split.
  - apply (chooseCombos_edges 0 [10; 20; 30] 4). exact H1.
  - apply (chooseCombos_edges 0 [10; 20; 30] 2). exact H2.
Defined.

(** ** More on the consensus procedure *)

Lemma Rational_new_id r :
  normal r -> Rational.new (Rational.num r) (Rational.den r) = inr r.
Proof.
  intros Hr.
  assert (Hden : Rational.den r <> 0) by (destruct Hr; lia).
  destruct (Rational_new_spec (Rational.num r) _ Hden) as (r' & Hr' & Hn' & Hx).
  rewrite Hr'. f_equal. now apply normal_unique.
Qed.

Lemma toIntegerIfExact_den r :
  normal r ->
  Rational.toIntegerIfExact r
  = if Rational.den r =? 1 then Some (Rational.num r) else None.
Proof.
  intros [Hpos Hg]. unfold Rational.toIntegerIfExact.
  destruct (Z.eqb_spec (Rational.den r) 1) as [E | Hne]; [reflexivity |].
  destruct (Z.eqb_spec (Z.rem (Rational.num r) (Rational.den r)) 0)
    as [Hrem | _]; [| reflexivity].
  exfalso. apply Z.rem_divide in Hrem; [| lia].
  destruct Hrem as [q Hq]. rewrite Hq, gcd_multiple in Hg by lia. lia.
Qed.

Lemma mapM_In {A B : Type} (f : A -> result B) (l : list A) :
  forall bs b, mapM f l = inr bs -> In b bs ->
               exists a, In a l /\ f a = inr b.
Proof.
  induction l as [| a l IH]; cbn [mapM]; intros bs b H Hb.
  - injection H as <-. contradiction.
  - destruct (f a) as [e | b0] eqn:Hfa; [discriminate |]. cbn [bind] in H.
    destruct (mapM f l) as [e | bs'] eqn:Hl; [discriminate |].
    injection H as <-. destruct Hb as [<- | Hb].
    + exists a. split; [now left | assumption].
    + destruct (IH bs' b eq_refl Hb) as (a' & Ha' & Hfa').
      exists a'. split; [now right | assumption].
Qed.

Lemma mapM_map {A B : Type} (f : A -> result B) (g : A -> B) (l : list A) :
  (forall a, In a l -> f a = inr (g a)) -> mapM f l = inr (map g l).
Proof.
  induction l as [| a l IH]; intros H; cbn [mapM map]; [reflexivity |].
  rewrite H by now left. cbn [bind].
  rewrite IH; [reflexivity |]. intros a' Ha'. apply H. now right.
Qed.

Lemma mapM_first_error {A B : Type} (f : A -> result B) (l : list A) a e :
  In a l -> f a = inl e ->
  exists a' e', In a' l /\ f a' = inl e' /\ mapM f l = inl e'.
Proof.
  induction l as [| a0 l IH]; intros Hin Hfa; [contradiction |].
  cbn [mapM]. destruct (f a0) as [e0 | b0] eqn:Hfa0.
  - exists a0, e0. repeat split; [now left | assumption].
  - destruct Hin as [-> | Hin]; [congruence |].
    destruct (IH Hin Hfa) as (a' & e' & Ha' & Hfa' & Hm).
    exists a', e'. split; [now right |]. split; [assumption |].
    cbn [bind]. now rewrite Hm.
Qed.

Lemma mapGet_Some_In {V : Type} (m : JsMap V) key v :
  mapGet m key = Some v -> In (key, v) m.
Proof.
  induction m as [| [k' v'] m IH]; cbn; [discriminate |].
  destruct (key_eqb_spec k' key) as [-> | _].
  - intros E. injection E as ->. now left.
  - intros E. right. now apply IH.
Qed.

Lemma candidateOf_inv shares c w subset :
  candidateOf shares c = inr (w, subset) ->
  subset = map (fun i => nth i shares noShare) c
  /\ exists cand, reconstructAtOrigin subset = inr cand
                  /\ normal cand /\ w = keyOf cand.
Proof.
  unfold candidateOf.
  pose proof (reconstructAtOrigin_sem (map (fun i => nth i shares noShare) c)) as H.
  destruct (reconstructAtOrigin _) as [e | cand] eqn:Hc; [discriminate |].
  cbn [bind ret]. intros E. injection E as <- <-.
  split; [reflexivity |]. exists cand.
  split; [exact Hc |]. split; [apply H | reflexivity].
Qed.

(** What the selection returns on the tally of a non-empty list of
    results, each of which pairs a subset with the key of its
    interpolation. *)
Lemma selectSecret_tally (rs : list (Key * list Share.t)) :
  rs <> [] ->
  (forall w subset, In (w, subset) rs ->
     exists cand, reconstructAtOrigin subset = inr cand
                  /\ normal cand /\ w = keyOf cand) ->
  exists subset cand,
    In (keyOf cand, subset) rs
    /\ mapGet rs (keyOf cand) = Some subset
    /\ reconstructAtOrigin subset = inr cand /\ normal cand
    /\ fst (selectTop (frequency (fold_left recordResult rs (mkTally [] [])))
                      None (-1)) = Some (keyOf cand)
    /\ selectSecret (fold_left recordResult rs (mkTally [] []))
       = inr (match Rational.toIntegerIfExact cand with
              | Some v => Secret v (Some subset)
              | None => SecretFraction cand (Some subset)
              end).
Proof.
  intros Hne Hrs.
  pose proof (tallyInv_fold rs) as Hinv.
  pose proof (tally_winner _ _ Hinv) as Hw.
  unfold selectSecret.
  destruct (fst (selectTop _ None (-1))) as [w |]; [| contradiction].
  destruct Hw as (Hin & _ & _).
  destruct Hinv as (_ & _ & Htrace). rewrite Htrace.
  destruct (mapGet rs w) as [subset |] eqn:Hget;
    [| exfalso; apply mapGet_None_notin in Hget; contradiction].
  pose proof (mapGet_Some_In _ _ _ Hget) as Hin'.
  destruct (Hrs _ _ Hin') as (cand & Hc & Hn & ->).
  exists subset, cand.
  split; [exact Hin' |]. split; [exact Hget |]. split; [exact Hc |].
  split; [exact Hn |]. split; [reflexivity |].
  cbn [keyOf fst snd]. rewrite (Rational_new_id cand Hn). cbn [bind].
  now destruct (Rational.toIntegerIfExact cand).
Qed.

Lemma candidates_wellformed shares allCombos rs :
  mapM (candidateOf shares) allCombos = inr rs ->
  forall w subset, In (w, subset) rs ->
    (exists c, In c allCombos /\ subset = map (fun i => nth i shares noShare) c)
    /\ exists cand, reconstructAtOrigin subset = inr cand
                    /\ normal cand /\ w = keyOf cand.
Proof.
  intros Hrs w subset Hin.
  destruct (mapM_In _ _ _ _ Hrs Hin) as (c & Hc & Hcand).
  apply candidateOf_inv in Hcand. destruct Hcand as [Hsub Hcand].
  split; [now exists c | exact Hcand].
Qed.

Lemma index_subset_incl (shares : list Share.t) n k c :
  n = length shares ->
  In c (chooseCombos 0%nat (seq 0 n) k) ->
  length c = k /\ NoDup c /\ Forall (fun i => (i < n)%nat) c
  /\ incl (map (fun i => nth i shares noShare) c) shares.
Proof.
  intros -> Hc. unfold chooseCombos in Hc.
  apply backtrack_In in Hc; [| reflexivity].
  destruct Hc as (t & -> & Hl & Hasc & Hall). cbn [app].
  split; [exact Hl |]. split; [now apply ascending_NoDup with 0%nat |].
  split; [exact Hall |].
  intros s Hs. apply in_map_iff in Hs. destruct Hs as (i & <- & Hi).
  rewrite Forall_forall in Hall. apply nth_In. now apply Hall.
Qed.

(** The answer is what the returned subset interpolates to: whenever
    [recoverSecretFromJSON] returns, its [subset] field is one of the
    size-[k] subsets of the sorted shares (so [k] shares of the input),
    and interpolating that subset gives exactly the returned value; the
    fraction shape is used only when the denominator is not 1. *)
Theorem recoverSecretFromJSON_sound (shares : list Share.t) (k : nat)
  (out : Outcome) :
  recoverSecretFromJSON shares k = inr out ->
  exists subset,
    In subset (chooseCombos noShare (sortShares shares) k)
    /\ length subset = k /\ incl subset shares
    /\ match out with
       | Secret v s =>
           s = Some subset
           /\ reconstructAtOrigin subset = inr (Rational.mk v 1)
       | SecretFraction r s =>
           s = Some subset
           /\ reconstructAtOrigin subset = inr r /\ normal r
           /\ Rational.den r <> 1
       end.
Proof.
  rewrite recoverSecret_eq.
  destruct (length shares <? k)%nat; [discriminate |].
  destruct (mapM _ _) as [e | rs] eqn:Hrs; [discriminate |]. cbn [bind].
  intros Hout.
  assert (Hne : rs <> []).
  { intros ->. discriminate. }
  pose proof (candidates_wellformed _ _ _ Hrs) as Hwf.
  destruct (selectSecret_tally rs Hne (fun w s H => proj2 (Hwf w s H)))
    as (subset & cand & Hin & _ & Hc & Hn & _ & Hsel).
  rewrite Hsel in Hout. injection Hout as <-.
  destruct (proj1 (Hwf _ _ Hin)) as (c & Hcin & Hsub).
  destruct (index_subset_incl (sortShares shares) _ _ _
              (eq_sym (sortShares_length shares)) Hcin)
    as (Hlen & _ & _ & Hincl).
  exists subset. split; [| split; [| split]].
  - unfold chooseCombos.
    pose proof (backtrack_by_index noShare (sortShares shares) k k 0%nat []) as E.
    cbn [map length] in E. rewrite E by lia.
    apply in_map_iff. exists c. rewrite sortShares_length.
    split; [now rewrite Hsub | exact Hcin].
  - rewrite Hsub, length_map. exact Hlen.
  - rewrite Hsub. intros s Hs.
    apply (Permutation_in _ (sortShares_perm shares)). now apply Hincl.
  - rewrite (toIntegerIfExact_den cand Hn).
    destruct (Z.eqb_spec (Rational.den cand) 1) as [E | Hne1].
    + split; [reflexivity |]. rewrite Hc. f_equal.
      destruct cand as [cn cd]. cbn in E |- *. now subst cd.
    + split; [reflexivity |]. split; [exact Hc |].
      split; [exact Hn | exact Hne1].
Qed.

Lemma recoverSecretFromJSON_sound_witness :
  exists out subset,
    recoverSecretFromJSON [Share.mk 3 2; Share.mk 1 1; Share.mk 2 9] 2 = inr out
    /\ In subset (chooseCombos noShare
                    (sortShares [Share.mk 3 2; Share.mk 1 1; Share.mk 2 9]) 2)
    /\ length subset = 2%nat
    /\ incl subset [Share.mk 3 2; Share.mk 1 1; Share.mk 2 9].
Proof.
  eexists.
  assert (H : recoverSecretFromJSON [Share.mk 3 2; Share.mk 1 1; Share.mk 2 9] 2
              = inr (Secret (-7) (Some [Share.mk 1 1; Share.mk 2 9])))
    by (vm_compute; reflexivity).
  destruct (recoverSecretFromJSON_sound _ _ _ H) as (subset & H1 & H2 & H3 & _).
  exists subset. split; [exact H |]. split; [exact H1 |].
  split; [exact H2 | exact H3].
Defined.

Lemma compareShares_le s h :
  (compareShares s h <=? 0) = (Share.x s <=? Share.x h).
Proof.
  unfold compareShares.
  destruct (Z.ltb_spec (Share.x s) (Share.x h)),
    (Z.gtb_spec (Share.x s) (Share.x h)), (Z.leb_spec (Share.x s) (Share.x h));
    cbn; lia || reflexivity.
Qed.

Lemma insertShare_sorted s l :
  StronglySorted (fun a b => Share.x a <= Share.x b) l ->
  StronglySorted (fun a b => Share.x a <= Share.x b) (insertShare s l).
Proof.
  intros H. induction H as [| h l Hs IH Hall]; cbn [insertShare].
  - repeat constructor.
  - rewrite compareShares_le.
    destruct (Z.leb_spec (Share.x s) (Share.x h)) as [Hle | Hgt].
    + constructor; [now constructor |].
      constructor; [exact Hle |].
      eapply Forall_impl; [| exact Hall]. cbn. intros; lia.
    + constructor; [exact IH |].
      apply Forall_forall. intros u Hu.
      apply (Permutation_in _ (insertShare_perm s l)) in Hu.
      destruct Hu as [<- | Hu]; [lia |].
      rewrite Forall_forall in Hall. now apply Hall.
Qed.

Lemma sortShares_sorted l :
  StronglySorted (fun a b => Share.x a <= Share.x b) (sortShares l).
Proof.
  induction l as [| s l IH]; cbn; [constructor |].
  now apply insertShare_sorted.
Qed.

Lemma NoDup_map_inj_in {A B : Type} (f : A -> B) (l : list A) a b :
  NoDup (map f l) -> In a l -> In b l -> f a = f b -> a = b.
Proof.
  induction l as [| h l IH]; cbn; [contradiction |].
  intros Hnd Ha Hb E. inversion Hnd as [| ? ? Hnotin Hnd']; subst.
  destruct Ha as [<- | Ha], Hb as [<- | Hb]; auto.
  - exfalso. apply Hnotin. rewrite E. now apply in_map.
  - exfalso. apply Hnotin. rewrite <- E. now apply in_map.
Qed.

Lemma sorted_unique (l : list Share.t) :
  forall l',
    StronglySorted (fun a b => Share.x a <= Share.x b) l ->
    StronglySorted (fun a b => Share.x a <= Share.x b) l' ->
    Permutation l l' -> NoDup (map Share.x l) -> l = l'.
Proof.
  induction l as [| a l IH]; intros l' Hs Hs' Hperm Hnd.
  - apply Permutation_nil in Hperm. now subst.
  - destruct l' as [| b l'];
      [apply Permutation_sym, Permutation_nil in Hperm; discriminate |].
    apply StronglySorted_inv in Hs. destruct Hs as [Hs Hall].
    apply StronglySorted_inv in Hs'. destruct Hs' as [Hs' Hall'].
    rewrite Forall_forall in Hall, Hall'.
    assert (Hab : a = b).
    { assert (Hb : In b (a :: l))
        by (apply (Permutation_in _ (Permutation_sym Hperm)); now left).
      assert (Ha : In a (b :: l'))
        by (apply (Permutation_in _ Hperm); now left).
      apply (NoDup_map_inj_in Share.x (a :: l)); [assumption | now left | exact Hb |].
      destruct Hb as [-> | Hb]; [reflexivity |].
      destruct Ha as [-> | Ha]; [reflexivity |].
      specialize (Hall _ Hb). specialize (Hall' _ Ha). lia. }
    subst b. f_equal. apply IH; try assumption.
    + now apply Permutation_cons_inv in Hperm.
    + cbn [map] in Hnd. now inversion Hnd.
Qed.

(** The order in which the shares are given does not matter when their
    x-coordinates are pairwise distinct: the sort puts them in one order,
    so the procedure returns the same result on every rearrangement of
    its input.  (With a repeated x the stable sort keeps the given order
    of the shares that share it.) *)
Theorem recoverSecretFromJSON_input_order (shares shares' : list Share.t)
  (k : nat) :
  Permutation shares shares' -> NoDup (map Share.x shares) ->
  sortShares shares = sortShares shares'
  /\ StronglySorted (fun a b => Share.x a < Share.x b) (sortShares shares)
  /\ recoverSecretFromJSON shares k = recoverSecretFromJSON shares' k.
Proof.
  intros Hperm Hnd.
  assert (Hnd' : NoDup (map Share.x (sortShares shares))).
  { apply (Permutation_NoDup
             (Permutation_map Share.x (Permutation_sym (sortShares_perm shares)))).
    exact Hnd. }
  assert (E : sortShares shares = sortShares shares').
  { apply sorted_unique; try apply sortShares_sorted; [| exact Hnd'].
    rewrite (sortShares_perm shares), Hperm.
    symmetry. apply sortShares_perm. }
  split; [exact E |]. split.
  - pose proof (sortShares_sorted shares) as Hs. revert Hs Hnd'.
    generalize (sortShares shares) as l. intros l Hs.
    induction Hs as [| a l Hs IH Hall]; intros Hnd'; constructor.
    + apply IH. cbn [map] in Hnd'. now inversion Hnd'.
    + cbn [map] in Hnd'. inversion Hnd' as [| ? ? Hnotin _]; subst.
      rewrite Forall_forall in *. intros b Hb. specialize (Hall b Hb).
      assert (Share.x a <> Share.x b)
        by (intros Eq; apply Hnotin; rewrite Eq; now apply in_map).
      lia.
  - unfold recoverSecretFromJSON. now rewrite E.
Qed.

Lemma recoverSecretFromJSON_input_order_witness :
  Permutation [Share.mk 3 2; Share.mk 1 1; Share.mk 2 9]
              [Share.mk 2 9; Share.mk 3 2; Share.mk 1 1]
  /\ NoDup (map Share.x [Share.mk 3 2; Share.mk 1 1; Share.mk 2 9])
  /\ recoverSecretFromJSON [Share.mk 3 2; Share.mk 1 1; Share.mk 2 9] 2
     = recoverSecretFromJSON [Share.mk 2 9; Share.mk 3 2; Share.mk 1 1] 2.
Proof.
  assert (Hp : Permutation [Share.mk 3 2; Share.mk 1 1; Share.mk 2 9]
                           [Share.mk 2 9; Share.mk 3 2; Share.mk 1 1]).
  { apply Permutation_sym.
    apply (Permutation_cons_app [Share.mk 3 2; Share.mk 1 1] [] (Share.mk 2 9)).
    rewrite app_nil_r. apply Permutation_refl. }
  assert (Hnd : NoDup (map Share.x [Share.mk 3 2; Share.mk 1 1; Share.mk 2 9])).
  { repeat constructor; simpl; intuition discriminate. }
  split; [exact Hp |]. split; [exact Hnd |].
  apply (recoverSecretFromJSON_input_order _ _ 2 Hp Hnd).
Defined.

Lemma subset_x_NoDup (shares : list Share.t) (c : list nat) :
  NoDup (map Share.x shares) -> NoDup c ->
  Forall (fun i => (i < length shares)%nat) c ->
  NoDup (map Share.x (map (fun i => nth i shares noShare) c)).
Proof.
  intros Hnd Hc Hall. rewrite map_map.
  apply NoDup_map_NoDup_ForallPairs; [| exact Hc].
  intros i j Hi Hj E. rewrite Forall_forall in Hall.
  apply (proj1 (NoDup_nth (map Share.x shares) 0) Hnd);
    rewrite ?length_map; auto.
  change 0 with (Share.x noShare). now rewrite !map_nth.
Qed.

Lemma mapM_ok {A B : Type} (f : A -> result B) (l : list A) :
  (forall a, In a l -> exists b, f a = inr b) ->
  exists bs, mapM f l = inr bs.
Proof.
  induction l as [| a l IH]; intros H; cbn [mapM]; [now exists [] |].
  destruct (H a (or_introl eq_refl)) as (b & Hb). rewrite Hb. cbn [bind].
  destruct IH as (bs & Hbs); [intros a' Ha'; apply H; now right |].
  rewrite Hbs. now exists (b :: bs).
Qed.

Lemma candidateOf_ok shares c :
  NoDup (map Share.x (map (fun i => nth i shares noShare) c)) ->
  exists ks, candidateOf shares c = inr ks.
Proof.
  intros Hnd. unfold candidateOf.
  destruct (reconstructAtOrigin_distinct _ Hnd) as (r & Hr & _).
  rewrite Hr. cbn [bind ret]. now eexists.
Qed.

Lemma sorted_adjacent_dup (l : list Share.t) :
  StronglySorted (fun a b => Share.x a <= Share.x b) l ->
  ~ NoDup (map Share.x l) ->
  exists i, (S i < length l)%nat
            /\ Share.x (nth i l noShare) = Share.x (nth (S i) l noShare).
Proof.
  intros Hs. induction Hs as [| a l Hs IH Hall]; intros Hdup.
  - exfalso. apply Hdup. constructor.
  - destruct (in_dec Z.eq_dec (Share.x a) (map Share.x l)) as [Hin | Hnotin].
    + destruct l as [| b l]; [contradiction |].
      exists 0%nat. split; [cbn; lia |]. cbn [nth].
      apply in_map_iff in Hin. destruct Hin as (u & Hu & Hin).
      apply StronglySorted_inv in Hs. destruct Hs as [_ Hallb].
      rewrite Forall_forall in Hall, Hallb.
      pose proof (Hall b (or_introl eq_refl)).
      destruct Hin as [<- | Hin]; [lia |].
      specialize (Hallb u Hin). lia.
    + destruct IH as (i & Hi & E).
      * intros Hnd. apply Hdup. cbn [map]. now constructor.
      * exists (S i). split; [cbn [length]; lia | exact E].
Qed.

Lemma ascending_seq k : forall lo s, (lo <= s)%nat -> ascending lo (seq s k).
Proof.
  induction k as [| k IH]; intros lo s Hle; cbn; [exact I |].
  split; [exact Hle |]. apply IH. lia.
Qed.

Lemma nth_map_seq {B : Type} (g : nat -> B) s k p d :
  (p < k)%nat -> nth p (map g (seq s k)) d = g (s + p)%nat.
Proof.
  intros Hp. rewrite (nth_indep _ d (g 0%nat))
    by (now rewrite length_map, length_seq).
  now rewrite map_nth, seq_nth.
Qed.

Lemma window_clash (shares : list Share.t) (k i : nat) :
  (2 <= k <= length shares)%nat -> (S i < length shares)%nat ->
  Share.x (nth i shares noShare) = Share.x (nth (S i) shares noShare) ->
  exists c, In c (chooseCombos 0%nat (seq 0 (length shares)) k)
            /\ candidateOf shares c = inl DivideByZero.
Proof.
  intros Hk Hi E.
  set (s := Nat.min i (length shares - k)).
  exists (seq s k). split.
  - unfold chooseCombos. apply backtrack_In; [reflexivity |].
    exists (seq s k). split; [reflexivity |]. split; [apply length_seq |].
    split; [apply ascending_seq; lia |].
    apply Forall_forall. intros j Hj. apply in_seq in Hj. lia.
  - unfold candidateOf. rewrite reconstructAtOrigin_clash; [reflexivity |].
    intros Hnd.
    assert (Hidx : (i - s = S i - s)%nat).
    { rewrite map_map in Hnd.
      apply (proj1 (NoDup_nth _ 0) Hnd);
        rewrite ?length_map, ?length_seq; try lia.
      rewrite !nth_map_seq by lia.
      replace (s + (i - s))%nat with i by lia.
      replace (s + (S i - s))%nat with (S i) by lia. exact E. }
    lia.
Qed.

(** Every way [recoverSecretFromJSON] can end, for [n] shares: with
    [n < k] it throws 'Not enough shares in input'; with [2 <= k <= n] and
    a repeated x-coordinate it throws 'Divide by zero' (the sort makes the
    two shares neighbours and some subset holds both); in every other case
    it returns a secret.  No other error is ever thrown. *)
Theorem recoverSecretFromJSON_outcomes (shares : list Share.t) (k : nat) :
  ((length shares < k)%nat ->
   recoverSecretFromJSON shares k = inl NotEnoughShares)
  /\ ((2 <= k <= length shares)%nat -> ~ NoDup (map Share.x shares) ->
      recoverSecretFromJSON shares k = inl DivideByZero)
  /\ ((k <= length shares)%nat ->
      NoDup (map Share.x shares) \/ (k <= 1)%nat ->
      exists out, recoverSecretFromJSON shares k = inr out).
Proof.
  rewrite recoverSecret_eq. split; [| split].
  - intros Hlt. now replace (length shares <? k)%nat with true
      by (symmetry; apply Nat.ltb_lt; exact Hlt).
  - intros Hk Hdup.
    replace (length shares <? k)%nat with false
      by (symmetry; apply Nat.ltb_ge; lia).
    assert (Hdup' : ~ NoDup (map Share.x (sortShares shares))).
    { intros Hnd. apply Hdup.
      apply (Permutation_NoDup
               (Permutation_map Share.x (sortShares_perm shares))). exact Hnd. }
    destruct (sorted_adjacent_dup _ (sortShares_sorted shares) Hdup')
      as (i & Hi & E).
    destruct (window_clash (sortShares shares) k i) as (c & Hc & Hcand);
      [rewrite sortShares_length; exact Hk | exact Hi | exact E |].
    rewrite sortShares_length in Hc.
    destruct (mapM_first_error _ _ _ _ Hc Hcand) as (c' & e' & _ & He' & Hm).
    rewrite Hm. cbn [bind]. apply candidateOf_error in He'. now subst e'.
  - intros Hk Hcase.
    replace (length shares <? k)%nat with false
      by (symmetry; apply Nat.ltb_ge; lia).
    destruct (mapM_ok (candidateOf (sortShares shares))
                (chooseCombos 0%nat (seq 0 (length shares)) k)) as (rs & Hrs).
    { intros c Hc. apply candidateOf_ok.
      destruct (index_subset_incl (sortShares shares) _ _ _
                  (eq_sym (sortShares_length shares)) Hc)
        as (Hlen & Hcnd & Hall & _).
      destruct Hcase as [Hnd | Hk1].
      - apply subset_x_NoDup; [| exact Hcnd |].
        + apply (Permutation_NoDup
                   (Permutation_map Share.x
                      (Permutation_sym (sortShares_perm shares)))). exact Hnd.
        + rewrite sortShares_length. exact Hall.
      - destruct c as [| i [| j c]]; cbn [map];
          [constructor | repeat constructor; intros [] | cbn in Hlen; lia]. }
    rewrite Hrs. cbn [bind].
    assert (Hne : rs <> []).
    { intros ->. apply mapM_length in Hrs.
      rewrite chooseCombos_length in Hrs.
      pose proof (binomial_pos _ _ Hk). cbn in Hrs. lia. }
    pose proof (candidates_wellformed _ _ _ Hrs) as Hwf.
    destruct (selectSecret_tally rs Hne (fun w s H => proj2 (Hwf w s H)))
      as (subset & cand & _ & _ & _ & _ & _ & Hsel).
    rewrite Hsel. now eexists.
Qed.

Lemma recoverSecretFromJSON_outcomes_witness :
  recoverSecretFromJSON [Share.mk 2 7; Share.mk 1 5; Share.mk 2 8] 2
  = inl DivideByZero
  /\ exists out,
       recoverSecretFromJSON [Share.mk 2 7; Share.mk 1 5; Share.mk 2 8] 1
       = inr out.
Proof.
  split.
  - apply (recoverSecretFromJSON_outcomes
             [Share.mk 2 7; Share.mk 1 5; Share.mk 2 8] 2).
    + simpl. lia.
    + intros Hnd. simpl in Hnd. inversion Hnd as [| ? ? Hnotin _].
      apply Hnotin. simpl. auto.
  - apply (recoverSecretFromJSON_outcomes
             [Share.mk 2 7; Share.mk 1 5; Share.mk 2 8] 1).
    + simpl. lia.
    + right. lia.
Defined.

Lemma firstn_by_index (shares : list Share.t) (k : nat) :
  (k <= length shares)%nat ->
  map (fun i => nth i shares noShare) (seq 0 k) = firstn k shares.
Proof.
  intros Hk. rewrite <- (firstn_seq k 0 (length shares)) by assumption.
  rewrite <- firstn_map. now rewrite map_nth_indices.
Qed.

Lemma candidateOf_on_polynomial (coeffs : list Z) (shares : list Share.t)
  (k : nat) (c : list nat) :
  NoDup (map Share.x shares) ->
  (forall s, In s shares -> Share.y s = pevalZ coeffs (Share.x s)) ->
  (length coeffs <= k)%nat ->
  In c (chooseCombos 0%nat (seq 0 (length shares)) k) ->
  candidateOf shares c
  = inr ((pevalZ coeffs 0, 1), map (fun i => nth i shares noShare) c).
Proof.
  intros Hnd Hon Hlen Hc.
  destruct (index_subset_incl shares _ _ _ eq_refl Hc)
    as (Hl & Hcnd & Hall & Hincl).
  unfold candidateOf.
  rewrite (reconstructAtOrigin_on_polynomial coeffs).
  - reflexivity.
  - now apply subset_x_NoDup.
  - rewrite length_map. lia.
  - intros s Hs. apply Hon. now apply Hincl.
Qed.

(** When no share is wrong the procedure returns the secret: if all the
    shares lie on one polynomial with integer coefficients of degree less
    than [k], with pairwise-distinct x-coordinates and at least [k] of
    them, every subset interpolates to the constant term, which is
    returned as an integer together with the [k] shares of smallest x. *)
Theorem recoverSecretFromJSON_consistent (shares : list Share.t)
  (coeffs : list Z) (k : nat) :
  NoDup (map Share.x shares) ->
  (forall s, In s shares -> Share.y s = pevalZ coeffs (Share.x s)) ->
  (length coeffs <= k <= length shares)%nat ->
  recoverSecretFromJSON shares k
  = inr (Secret (pevalZ coeffs 0) (Some (firstn k (sortShares shares)))).
Proof.
  intros Hnd Hon [Hlen Hk].
  pose proof (sortShares_perm shares) as Hperm.
  assert (Hnd' : NoDup (map Share.x (sortShares shares)))
    by (apply (Permutation_NoDup
                 (Permutation_map Share.x (Permutation_sym Hperm))); exact Hnd).
  assert (Hon' : forall s, In s (sortShares shares) ->
                           Share.y s = pevalZ coeffs (Share.x s))
    by (intros s Hs; apply Hon; now apply (Permutation_in _ Hperm)).
  rewrite recoverSecret_eq.
  replace (length shares <? k)%nat with false
    by (symmetry; apply Nat.ltb_ge; lia).
  rewrite <- (sortShares_length shares) in Hk |- *.
  revert Hnd' Hon' Hk. generalize (sortShares shares) as sorted.
  intros sorted Hnd' Hon' Hk.
  rewrite (mapM_map _ (fun c => ((pevalZ coeffs 0, 1),
                                 map (fun i => nth i sorted noShare) c)))
    by (intros c Hc; apply (candidateOf_on_polynomial coeffs sorted k);
        assumption).
  cbn [bind].
  destruct (backtrack_head sorted k k 0%nat []) as (rest & Hrest);
    [reflexivity | lia |].
  unfold chooseCombos. rewrite Hrest. cbn [app map].
  rewrite (firstn_by_index sorted k Hk).
  set (w := (pevalZ coeffs 0, 1)).
  match goal with
  | |- context [fold_left recordResult ?l _] => set (rs := l)
  end.
  pose proof (tallyInv_fold rs) as Hinv.
  pose proof (tally_winner _ _ Hinv) as Hw.
  unfold selectSecret.
  destruct (fst (selectTop _ None (-1))) as [w' |]; [| discriminate].
  destruct Hw as (Hin & _ & _).
  assert (w' = w).
  { subst rs. cbn [map fst] in Hin. destruct Hin as [<- | Hin]; [reflexivity |].
    rewrite map_map in Hin. apply in_map_iff in Hin.
    destruct Hin as (c & <- & _). reflexivity. }
  subst w'. destruct Hinv as (_ & _ & Htrace). rewrite Htrace.
  subst rs w. cbn [mapGet fst snd]. rewrite key_eqb_refl.
  rewrite Rational_new_1. reflexivity.
Qed.

Lemma recoverSecretFromJSON_consistent_witness :
  NoDup (map Share.x [Share.mk 3 19; Share.mk 1 5; Share.mk 4 29; Share.mk 2 11])
  /\ (length [1; 3; 1] <= 3 <= length [Share.mk 3 19; Share.mk 1 5;
                                       Share.mk 4 29; Share.mk 2 11])%nat
  /\ recoverSecretFromJSON
       [Share.mk 3 19; Share.mk 1 5; Share.mk 4 29; Share.mk 2 11] 3
     = inr (Secret 1 (Some [Share.mk 1 5; Share.mk 2 11; Share.mk 3 19])).
Proof.
  assert (Hnd : NoDup (map Share.x [Share.mk 3 19; Share.mk 1 5;
                                    Share.mk 4 29; Share.mk 2 11])).
  { repeat constructor; simpl; intuition discriminate. }
  assert (Hon : forall s, In s [Share.mk 3 19; Share.mk 1 5;
                                Share.mk 4 29; Share.mk 2 11] ->
                          Share.y s = pevalZ [1; 3; 1] (Share.x s)).
  { intros s [<- | [<- | [<- | [<- | []]]]]; reflexivity. }
  assert (Hk : (length [1; 3; 1] <= 3 <= length [Share.mk 3 19; Share.mk 1 5;
                                                 Share.mk 4 29; Share.mk 2 11])%nat)
    by (simpl; lia).
  split; [exact Hnd |]. split; [exact Hk |].
  apply (recoverSecretFromJSON_consistent _ [1; 3; 1] 3 Hnd Hon Hk).
Defined.

(** ** Digit characters and digit strings *)

Lemma charToDigitCheck_all ch : charToDigitCheck ch = true.
Proof.
  destruct ch as [[] [] [] [] [] [] [] []]; vm_compute; reflexivity.
Qed.

Lemma charToDigit_inr ch d :
  IndexJs.charToDigit ch = inr d ->
  isAlnum ch = true /\ d = digitValue ch /\ 0 <= d <= 35
  /\ charCode (toLowerCase ch) = (if d <? 10 then d + 48 else d + 87)
  /\ SecretJs.charToDigit ch = inr d
  /\ IndexJs.charToDigit (toLowerCase ch) = inr d.
Proof.
  intros H. pose proof (charToDigitCheck_all ch) as C.
  unfold charToDigitCheck in C. rewrite H in C.
  destruct (SecretJs.charToDigit ch) as [e | d1];
    [rewrite !andb_false_r in C; cbn in C; discriminate |].
  destruct (IndexJs.charToDigit (toLowerCase ch)) as [e | d2];
    [rewrite !andb_false_r in C; discriminate |].
  repeat (apply andb_true_iff in C; destruct C as [C ?]).
  repeat match goal with
         | H : (_ =? _) = true |- _ => apply Z.eqb_eq in H
         | H : (_ <=? _) = true |- _ => apply Z.leb_le in H
         end.
  subst d1 d2. repeat split; auto; lia.
Qed.

Lemma charToDigit_inl ch e :
  IndexJs.charToDigit ch = inl e ->
  isAlnum ch = false /\ e = InvalidDigitChar ch
  /\ SecretJs.charToDigit ch = inl (InvalidDigitChar (toLowerCase ch)).
Proof.
  intros H. pose proof (charToDigitCheck_all ch) as C.
  unfold charToDigitCheck in C. rewrite H in C.
  destruct e as [c | c b]; [| discriminate].
  destruct (SecretJs.charToDigit ch) as [[c' | c' b'] | d1];
    try (rewrite !andb_false_r in C; discriminate).
  repeat (apply andb_true_iff in C; destruct C as [C ?]).
  repeat match goal with
         | H : Ascii.eqb _ _ = true |- _ => apply Ascii.eqb_eq in H
         end.
  subst. apply negb_true_iff in C. repeat split; auto.
Qed.

Lemma charToDigit_alnum ch :
  isAlnum ch = true -> IndexJs.charToDigit ch = inr (digitValue ch).
Proof.
  intros H. destruct (IndexJs.charToDigit ch) as [e | d] eqn:E.
  - apply charToDigit_inl in E. destruct E as [E _]. congruence.
  - apply charToDigit_inr in E. destruct E as (_ & -> & _). reflexivity.
Qed.

(** [charToDigit] accepts exactly the ASCII digits and letters; the
    digit is the character's rank (0-9, then a/A = 10 up to z/Z = 35), so
    case does not matter; the two programs read the same digit from every
    accepted character; on a rejected character the first program reports
    the character itself and the second one its lower-case form. *)
Theorem charToDigit_accepts (ch : ascii) :
  (isAlnum ch = true ->
   IndexJs.charToDigit ch = inr (digitValue ch)
   /\ SecretJs.charToDigit ch = inr (digitValue ch)
   /\ IndexJs.charToDigit (toLowerCase ch) = inr (digitValue ch)
   /\ 0 <= digitValue ch <= 35)
  /\ (isAlnum ch = false ->
      IndexJs.charToDigit ch = inl (InvalidDigitChar ch)
      /\ SecretJs.charToDigit ch = inl (InvalidDigitChar (toLowerCase ch))).
Proof.
  split; intros H.
  - pose proof (charToDigit_alnum ch H) as E.
    destruct (charToDigit_inr _ _ E) as (_ & _ & Hr & _ & H2 & H3).
    repeat split; auto; lia.
  - destruct (IndexJs.charToDigit ch) as [e | d] eqn:E.
    + destruct (charToDigit_inl _ _ E) as (_ & -> & H2). now split.
    + apply charToDigit_inr in E. destruct E as [E _]. congruence.
Qed.

Lemma charToDigit_accepts_witness :
  isAlnum "F" = true /\ isAlnum "_" = false
  /\ IndexJs.charToDigit "F" = inr 15
  /\ SecretJs.charToDigit "_" = inl (InvalidDigitChar "_").
Proof.
  assert (H1 : isAlnum "F" = true) by reflexivity.
  assert (H2 : isAlnum "_" = false) by reflexivity.
  split; [exact H1 |]. split; [exact H2 |]. split.
  - apply (charToDigit_accepts "F"). exact H1.
  - apply (charToDigit_accepts "_"). exact H2.
Defined.

Lemma parseLoop_app b (s1 s2 : string) :
  forall acc,
    IndexJs.parseLoop b (s1 ++ s2)%string acc
    = match IndexJs.parseLoop b s1 acc with
      | inl e => inl e
      | inr v => IndexJs.parseLoop b s2 v
      end.
Proof.
  induction s1 as [| ch s1 IH]; intros acc; cbn; [reflexivity |].
  destruct (IndexJs.charToDigit ch) as [e | d]; [reflexivity |].
  destruct (d >=? b); [reflexivity | apply IH].
Qed.

Lemma parseLoop_acc b (s : string) :
  forall acc,
    IndexJs.parseLoop b s acc
    = match IndexJs.parseLoop b s 0 with
      | inl e => inl e
      | inr v => inr (acc * b ^ Z.of_nat (String.length s) + v)
      end.
Proof.
  induction s as [| ch s IH]; intros acc; cbn [IndexJs.parseLoop String.length].
  - f_equal. cbn. lia.
  - destruct (IndexJs.charToDigit ch) as [e | d]; [reflexivity |].
    destruct (d >=? b); [reflexivity |].
    rewrite (IH (acc * b + d)), (IH (0 * b + d)).
    destruct (IndexJs.parseLoop b s 0) as [e | v]; [reflexivity |].
    f_equal. rewrite Nat2Z.inj_succ, Z.pow_succ_r by lia. ring.
Qed.

Lemma parseLoop_bounds b (s : string) :
  forall v, IndexJs.parseLoop b s 0 = inr v ->
            0 <= v < b ^ Z.of_nat (String.length s).
Proof.
  induction s as [| ch s IH]; intros v; cbn [IndexJs.parseLoop String.length].
  - intros E. injection E as <-. cbn. lia.
  - destruct (IndexJs.charToDigit ch) as [e | d] eqn:Hd; [discriminate |].
    destruct (Z.geb_spec d b) as [? | Hlt]; [discriminate |].
    rewrite parseLoop_acc.
    destruct (IndexJs.parseLoop b s 0) as [e | v'] eqn:Hs; [discriminate |].
    intros E. injection E as <-.
    apply charToDigit_inr in Hd. destruct Hd as (_ & _ & Hr & _).
    specialize (IH v' eq_refl).
    rewrite Nat2Z.inj_succ, Z.pow_succ_r by lia. nia.
Qed.

(** [parseBigIntInBase] reads a positional numeral: the empty string is
    0, a parsed value is non-negative and below [base ^ length], and
    parsing a concatenation is parsing the two parts and shifting the
    first one, the first error met (left to right) being the one
    reported. *)
Theorem parseBigIntInBase_positional (s1 s2 : string) (base : Z) :
  IndexJs.parseBigIntInBase EmptyString base = inr 0
  /\ (forall v, IndexJs.parseBigIntInBase s1 base = inr v ->
                0 <= v < base ^ Z.of_nat (String.length s1))
  /\ IndexJs.parseBigIntInBase (s1 ++ s2)%string base
     = match IndexJs.parseBigIntInBase s1 base with
       | inl e => inl e
       | inr v1 =>
           match IndexJs.parseBigIntInBase s2 base with
           | inl e => inl e
           | inr v2 => inr (v1 * base ^ Z.of_nat (String.length s2) + v2)
           end
       end.
Proof.
  unfold IndexJs.parseBigIntInBase.
  split; [reflexivity |]. split; [apply parseLoop_bounds |].
  rewrite parseLoop_app.
  destruct (IndexJs.parseLoop base s1 0) as [e | v1]; [reflexivity |].
  apply parseLoop_acc.
Qed.

Lemma parseBigIntInBase_positional_witness :
  IndexJs.parseBigIntInBase "ff" 16 = inr 255
  /\ 0 <= 255 < 16 ^ Z.of_nat (String.length "ff")
  /\ IndexJs.parseBigIntInBase ("ff" ++ "0z") 16
     = inl (DigitNotBelowBase "z" 16).
Proof.
  assert (H : IndexJs.parseBigIntInBase "ff" 16 = inr 255) by reflexivity.
  destruct (parseBigIntInBase_positional "ff" "0z" 16) as (_ & Hb & Happ).
  split; [exact H |]. split; [exact (Hb 255 H) |].
  rewrite Happ. reflexivity.
Defined.








Lemma parseLoop_decimal_acc (d : Decimal.uint) :
  forall acc : positive,
    IndexJs.parseLoop 10 (NilEmpty.string_of_uint d) (Z.pos acc)
    = inr (Z.pos (Pos.of_uint_acc d acc)).
Proof.
  induction d; intros acc; cbn [NilEmpty.string_of_uint Pos.of_uint_acc];
    try reflexivity;
    cbn [IndexJs.parseLoop];
    match goal with
    | |- context [IndexJs.charToDigit ?c] =>
        let r := eval vm_compute in (IndexJs.charToDigit c) in
        change (IndexJs.charToDigit c) with r
    end;
    cbn [Z.geb Z.compare Pos.compare Pos.compare_cont];
    rewrite <- IHd; f_equal; lia.
Qed.

Lemma parseLoop_decimal (d : Decimal.uint) :
  IndexJs.parseLoop 10 (NilEmpty.string_of_uint d) 0
  = inr (Z.of_N (Pos.of_uint d)).
Proof.
  induction d; cbn [NilEmpty.string_of_uint Pos.of_uint];
    try reflexivity;
    cbn [IndexJs.parseLoop];
    match goal with
    | |- context [IndexJs.charToDigit ?c] =>
        let r := eval vm_compute in (IndexJs.charToDigit c) in
        change (IndexJs.charToDigit c) with r
    end;
    cbn [Z.geb Z.compare Pos.compare Pos.compare_cont Z.mul Z.add];
    try exact IHd; apply parseLoop_decimal_acc.
Qed.

(** Reading back what [toString] wrote: the decimal rendering of a
    non-negative [BigInt] parses, in base 10, to that number; the
    rendering of a negative one is rejected at its minus sign. *)
Theorem parseBigIntInBase_showZ (z : Z) :
  IndexJs.parseBigIntInBase (showZ z) 10
  = if z <? 0 then inl (InvalidDigitChar "-") else inr z.
Proof.
  unfold IndexJs.parseBigIntInBase, showZ.
  destruct z as [| p | p]; [reflexivity | |].
  - cbn [Z.to_int NilZero.string_of_int Z.ltb Z.compare].
    unfold NilZero.string_of_uint.
    pose proof (Unsigned.to_uint_nonnil p) as Hnn.
    destruct (Pos.to_uint p) eqn:E; try contradiction;
      rewrite <- E, parseLoop_decimal, Unsigned.of_to; reflexivity.
  - reflexivity.
Qed.









Lemma showZ_inj (a b : Z) : showZ a = showZ b -> a = b.
Proof.
  unfold showZ. intros H. apply to_int_inj.
  assert (Hnn : forall z, Z.to_int z <> Decimal.Pos Decimal.Nil
                          /\ Z.to_int z <> Decimal.Neg Decimal.Nil).
  { intros [| p | p]; split; cbn; try discriminate;
      intros E; injection E as E; now apply (Unsigned.to_uint_nonnil p). }
  apply (f_equal NilZero.int_of_string) in H.
  rewrite !NilZero.isi in H by apply Hnn. now injection H.
Qed.

Lemma string_of_uint_no_slash (d : Decimal.uint) :
  allChars (fun ch => ch <> "/"%char) (NilEmpty.string_of_uint d).
Proof.
  induction d; cbn [NilEmpty.string_of_uint allChars]; auto;
    split; auto; discriminate.
Qed.

Lemma showZ_no_slash (z : Z) : allChars (fun ch => ch <> "/"%char) (showZ z).
Proof.
  assert (Hu : forall d, allChars (fun ch => ch <> "/"%char)
                                  (NilZero.string_of_uint d)).
  { intros d. unfold NilZero.string_of_uint.
    destruct d; try apply string_of_uint_no_slash.
    cbn. split; [discriminate | exact I]. }
  unfold showZ. destruct z as [| p | p]; cbn [Z.to_int NilZero.string_of_int].
  - apply Hu.
  - apply Hu.
  - cbn [allChars]. split; [discriminate | apply Hu].
Qed.

Lemma slash_split (a b : string) :
  allChars (fun ch => ch <> "/"%char) a ->
  allChars (fun ch => ch <> "/"%char) b ->
  SecretJs.split "/" (a ++ "/" ++ b) = [a; b].
Proof.
  intros Ha Hb.
  assert (Hb' : SecretJs.split "/" b = [b]).
  { clear Ha. induction b as [| ch b IH]; [reflexivity |].
    cbn [allChars] in Hb. destruct Hb as [Hc Hb].
    cbn [SecretJs.split]. apply Ascii.eqb_neq in Hc. rewrite Hc.
    now rewrite IH. }
  induction a as [| ch a IH].
  - cbn [append SecretJs.split]. rewrite Ascii.eqb_refl. now rewrite Hb'.
  - cbn [allChars] in Ha. destruct Ha as [Hc Ha].
    cbn [append SecretJs.split]. apply Ascii.eqb_neq in Hc. rewrite Hc.
    cbn [append] in IH. now rewrite IH.
Qed.

(** The tally key of [recoverSecretFromJSON] stands for the candidate:
    [split('/')] gives back the renderings of its numerator and
    denominator, the key is never the empty string (so [!topKey] holds
    for [null] only), and two candidates with the same key are the same
    pair of numbers. *)
Theorem keyString_faithful (candidate other : Rational.t) :
  SecretJs.split "/" (SecretJs.keyString candidate)
  = [showZ (Rational.num candidate); showZ (Rational.den candidate)]
  /\ SecretJs.keyString candidate <> EmptyString
  /\ (SecretJs.keyString candidate = SecretJs.keyString other <->
      keyOf candidate = keyOf other).
Proof.
  assert (Hsplit : forall r, SecretJs.split "/" (SecretJs.keyString r)
                   = [showZ (Rational.num r); showZ (Rational.den r)]).
  { intros r. apply slash_split; apply showZ_no_slash. }
  split; [apply Hsplit |]. split.
  - intros H. pose proof (Hsplit candidate) as Hs. rewrite H in Hs.
    discriminate.
  - unfold keyOf. split.
    + intros H. pose proof (Hsplit candidate) as Hs. rewrite H, Hsplit in Hs.
      injection Hs as Hn Hd. apply showZ_inj in Hn, Hd. congruence.
    + intros H. injection H as Hn Hd. unfold SecretJs.keyString.
      now rewrite Hn, Hd.
Qed.

Lemma no_slash_append (s a b : string) :
  allChars (fun ch => ch <> "/"%char) s -> s <> (a ++ "/" ++ b)%string.
Proof.
  revert s. induction a as [| ch a IH]; intros [| c s]; cbn [allChars append];
    try discriminate.
  - intros [Hc _] E. injection E as E _. contradiction.
  - intros [_ Hs] E. injection E as _ E. now apply (IH s).
Qed.

Lemma rendering_inj (n d n' d' : Z) :
  (if d =? 1 then showZ n else (showZ n ++ "/" ++ showZ d)%string)
  = (if d' =? 1 then showZ n' else (showZ n' ++ "/" ++ showZ d')%string) ->
  n = n' /\ d = d'.
Proof.
  destruct (Z.eqb_spec d 1) as [-> | Hd], (Z.eqb_spec d' 1) as [-> | Hd'];
    intros H.
  - split; [now apply showZ_inj | reflexivity].
  - exfalso. now apply (no_slash_append _ _ _ (showZ_no_slash n)) in H.
  - exfalso. symmetry in H.
    now apply (no_slash_append _ _ _ (showZ_no_slash n')) in H.
  - apply (f_equal (SecretJs.split "/")) in H.
    rewrite !slash_split in H by apply showZ_no_slash.
    injection H as Hn Hdd. split; now apply showZ_inj.
Qed.

(** [toString] of either class loses nothing: two fractions that render
    to the same text have the same numerator and the same denominator. *)
Theorem toString_injective :
  (forall r r' : Rational.t,
      SecretJs.toString r = SecretJs.toString r' -> r = r')
  /\ (forall f f' : Fraction.t,
         IndexJs.toString f = IndexJs.toString f' -> f = f').
Proof.
  split.
  - intros [n d] [n' d']. unfold SecretJs.toString. cbn [Rational.num Rational.den].
    intros H. apply rendering_inj in H. destruct H as [-> ->]. reflexivity.
  - intros [n d] [n' d']. unfold IndexJs.toString. cbn [Fraction.n Fraction.d].
    intros H. apply rendering_inj in H. destruct H as [-> ->]. reflexivity.
Qed.

Lemma toString_injective_witness :
  SecretJs.toString (Rational.mk (-7) 2) = "-7/2"%string
  /\ forall r, SecretJs.toString r = "-7/2"%string -> r = Rational.mk (-7) 2.
Proof.
  assert (H : SecretJs.toString (Rational.mk (-7) 2) = "-7/2"%string)
    by reflexivity.
  split; [exact H |]. intros r Hr.
  apply (proj1 toString_injective). now rewrite Hr.
Defined.

Lemma insertPoint_share (s : Share.t) (l : list Share.t) :
  IndexJs.insertPoint (pointOfShare s) (map pointOfShare l)
  = map pointOfShare (insertShare s l).
Proof.
  induction l as [| h l IH]; [reflexivity |].
  cbn [map IndexJs.insertPoint insertShare]. cbn [pointOfShare fst].
  assert (E : (Share.x s - Share.x h <=? 0) = (compareShares s h <=? 0)).
  { unfold compareShares.
    destruct (Z.ltb_spec (Share.x s) (Share.x h));
      [| destruct (Z.gtb_spec (Share.x s) (Share.x h))];
      cbn [Z.leb Z.compare Z.opp];
      first [apply Z.leb_le; lia | apply Z.leb_gt; lia]. }
  rewrite E. destruct (compareShares s h <=? 0); [reflexivity |].
  cbn [map]. f_equal. exact IH.
Qed.

Lemma sortPoints_shares (l : list Share.t) :
  IndexJs.sortPoints (map pointOfShare l) = map pointOfShare (sortShares l).
Proof.
  induction l as [| s l IH]; [reflexivity |].
  cbn [map IndexJs.sortPoints sortShares fold_right].
  change (fold_right IndexJs.insertPoint [] (map pointOfShare l))
    with (IndexJs.sortPoints (map pointOfShare l)).
  rewrite IH. apply insertPoint_share.
Qed.

Lemma bind_error {A B : Type} (P : Error -> Prop) (m : result A)
  (k : A -> result B) :
  (forall e, m = inl e -> P e) ->
  (forall a e, k a = inl e -> P e) ->
  forall e, bind m k = inl e -> P e.
Proof.
  destruct m as [e0 | a]; cbn; intros Hm Hk e H; [| now apply (Hk a)].
  injection H as <-. now apply Hm.
Qed.

Lemma forLoop_error {S : Type} (P : Error -> Prop)
  (body : nat -> S -> result S) (idx : list nat) :
  (forall i s e, body i s = inl e -> P e) ->
  forall s e, forLoop body idx s = inl e -> P e.
Proof.
  intros Hbody. induction idx as [| i idx IH]; intros s e; cbn [forLoop].
  - discriminate.
  - apply bind_error; [apply Hbody | exact IH].
Qed.

Lemma Fraction_new_error n d e :
  Fraction.new n d = inl e -> e = DenominatorCannotBeZero.
Proof.
  unfold Fraction.new. destruct (d =? 0); [| discriminate].
  intros H. now injection H.
Qed.

Lemma lagrangeAtZeroFraction_error pointsSubset e :
  lagrangeAtZeroFraction pointsSubset = inl e -> e = DenominatorCannotBeZero.
Proof.
  set (P := fun e : Error => e = DenominatorCannotBeZero).
  assert (Hnew : forall n d e, Fraction.new n d = inl e -> P e)
    by exact Fraction_new_error.
  change (lagrangeAtZeroFraction pointsSubset = inl e -> P e).
  unfold lagrangeAtZeroFraction. revert e.
  apply (bind_error P); [apply Hnew |]. intros res0.
  apply (forLoop_error P). intros i res.
  apply (bind_error P); [apply Hnew |]. intros yi.
  apply (bind_error P); [apply Hnew |]. intros Li0.
  apply (bind_error P).
  - apply (forLoop_error P). intros j Li.
    destruct (j =? i)%nat; [discriminate |].
    apply (bind_error P); [apply Hnew |]. intros f. apply Hnew.
  - intros Li. apply (bind_error P); [apply Hnew |]. intros term. apply Hnew.
Qed.

Lemma whole_toString (r : Rational.t) :
  normal r ->
  match Fraction.asIntegerIfWhole (fractionOfRational r) with
  | inl value => showZ value
  | inr _ => IndexJs.toString (fractionOfRational r)
  end = SecretJs.toString r.
Proof.
  intros [Hpos Hg]. destruct r as [n d].
  unfold Fraction.asIntegerIfWhole, IndexJs.toString, SecretJs.toString,
    fractionOfRational.
  cbn [Fraction.n Fraction.d Rational.num Rational.den] in *.
  destruct (Z.eqb_spec d 1) as [-> | Hd]; [reflexivity |].
  destruct (Z.eqb_spec (Z.rem n d) 0) as [Hr | Hr]; [exfalso | reflexivity].
  apply Z.rem_divide in Hr; [| lia].
  apply Z.divide_gcd_iff in Hr; [| lia].
  rewrite Z.gcd_comm in Hr. lia.
Qed.

Lemma readPoints_ok (entries : list IndexJs.Entry) (shares : list Share.t) :
  Forall2 (fun e s =>
             IndexJs.key e = Share.x s
             /\ IndexJs.parseBigIntInBase (IndexJs.value e) (IndexJs.base e)
                = inr (Share.y s)) entries shares ->
  IndexJs.readPoints entries = inr (map pointOfShare shares).
Proof.
  induction 1 as [| e s entries shares [Hk Hv] _ IH]; [reflexivity |].
  cbn [IndexJs.readPoints map]. rewrite Hv, IH. unfold pointOfShare.
  now rewrite Hk.
Qed.

Lemma readPoints_error (pre post : list IndexJs.Entry) (bad : IndexJs.Entry)
  (shares : list Share.t) (err : ParseError) :
  Forall2 (fun e s =>
             IndexJs.key e = Share.x s
             /\ IndexJs.parseBigIntInBase (IndexJs.value e) (IndexJs.base e)
                = inr (Share.y s)) pre shares ->
  IndexJs.parseBigIntInBase (IndexJs.value bad) (IndexJs.base bad) = inl err ->
  IndexJs.readPoints (pre ++ bad :: post) = inl err.
Proof.
  intros Hpre Hbad.
  induction Hpre as [| e s pre shares [Hk Hv] _ IH].
  - cbn [app IndexJs.readPoints]. now rewrite Hbad.
  - cbn [app IndexJs.readPoints]. now rewrite Hv, IH.
Qed.

Lemma processFile_engine (entries : list IndexJs.Entry)
  (shares : list Share.t) (k : nat) :
  IndexJs.readPoints entries = inr (map pointOfShare shares) ->
  (k <= length shares)%nat ->
  IndexJs.processFile entries k
  = match reconstructAtOrigin (firstn k (sortShares shares)) with
    | inl _ => inl (IndexJs.FractionError DenominatorCannotBeZero)
    | inr r => inr (SecretJs.toString r)
    end.
Proof.
  intros Hread Hk. unfold IndexJs.processFile. rewrite Hread.
  rewrite sortPoints_shares, length_map, sortShares_length.
  destruct (Nat.ltb_spec (length shares) k) as [? | _]; [lia |].
  rewrite firstn_map.
  pose proof (engines_agree (firstn k (sortShares shares))) as Hag.
  pose proof (reconstructAtOrigin_sem (firstn k (sortShares shares))) as Hsem.
  destruct (lagrangeAtZeroFraction _) as [e | f] eqn:Ef;
    destruct (reconstructAtOrigin _) as [e' | r]; cbn [agree] in Hag;
    try contradiction.
  - apply lagrangeAtZeroFraction_error in Ef. now subst e.
  - unfold sameValue in Hag. subst f. destruct Hsem as [_ [Hn _]].
    rewrite <- (whole_toString r Hn).
    destruct (Fraction.asIntegerIfWhole (fractionOfRational r)); reflexivity.
Qed.

(** What [processFile] does with the entries of a file.  A value that
    does not parse stops it with the digit error, before the points are
    counted.  When all values parse: with fewer than [k] points it throws
    'Not enough points', and otherwise it prints [toString] of what
    [reconstructAtOrigin] of the second program returns on the [k] points
    of smallest [x], or throws 'Denominator cannot be 0' where that one
    throws. *)
Theorem processFile_outcomes (entries post : list IndexJs.Entry)
  (bad : IndexJs.Entry) (shares : list Share.t) (k : nat) (err : ParseError) :
  Forall2 (fun e s =>
             IndexJs.key e = Share.x s
             /\ IndexJs.parseBigIntInBase (IndexJs.value e) (IndexJs.base e)
                = inr (Share.y s)) entries shares ->
  (IndexJs.parseBigIntInBase (IndexJs.value bad) (IndexJs.base bad) = inl err ->
   IndexJs.processFile (entries ++ bad :: post) k = inl (IndexJs.DigitError err))
  /\ ((length shares < k)%nat ->
      IndexJs.processFile entries k
      = inl (IndexJs.NotEnoughPoints (length shares) k))
  /\ ((k <= length shares)%nat ->
      IndexJs.processFile entries k
      = match reconstructAtOrigin (firstn k (sortShares shares)) with
        | inl _ => inl (IndexJs.FractionError DenominatorCannotBeZero)
        | inr r => inr (SecretJs.toString r)
        end).
Proof.
  intros Hent. split; [| split].
  - intros Hbad. unfold IndexJs.processFile.
    now rewrite (readPoints_error entries post bad shares err Hent Hbad).
  - intros Hk. unfold IndexJs.processFile.
    rewrite (readPoints_ok entries shares Hent).
    rewrite sortPoints_shares, length_map, sortShares_length.
    destruct (Nat.ltb_spec (length shares) k) as [_ | ?]; [reflexivity | lia].
  - apply processFile_engine. now apply readPoints_ok.
Qed.

Lemma processFile_outcomes_witness :
  IndexJs.processFile
    [IndexJs.mkEntry 2 10 "7"; IndexJs.mkEntry 1 2 "101"] 2 = inr "3"%string
  /\ IndexJs.processFile
       [IndexJs.mkEntry 2 10 "7"; IndexJs.mkEntry 1 2 "102"] 1
     = inl (IndexJs.DigitError (DigitNotBelowBase "2" 2)).
Proof.
  assert (H2 : Forall2 (fun e s =>
             IndexJs.key e = Share.x s
             /\ IndexJs.parseBigIntInBase (IndexJs.value e) (IndexJs.base e)
                = inr (Share.y s))
            [IndexJs.mkEntry 2 10 "7"; IndexJs.mkEntry 1 2 "101"]
            [Share.mk 2 7; Share.mk 1 5]).
  { constructor; [split; reflexivity |].
    constructor; [split; reflexivity | constructor]. }
  assert (H1 : Forall2 (fun e s =>
             IndexJs.key e = Share.x s
             /\ IndexJs.parseBigIntInBase (IndexJs.value e) (IndexJs.base e)
                = inr (Share.y s))
            [IndexJs.mkEntry 2 10 "7"] [Share.mk 2 7]).
  { constructor; [split; reflexivity | constructor]. }
  split.
  - destruct (processFile_outcomes _ [] (IndexJs.mkEntry 0 10 "0") _ 2
                (InvalidDigitChar "0") H2) as (_ & _ & H).
    rewrite H; [reflexivity | cbn; lia].
  - destruct (processFile_outcomes _ [] (IndexJs.mkEntry 1 2 "102") _ 1
                (DigitNotBelowBase "2" 2) H1) as (H & _ & _).
    apply H. reflexivity.
Defined.

(** With [k] at least the number of coefficients of a polynomial with
    integer coefficients, [processFile] prints the polynomial's constant
    term as soon as the [k] points of smallest [x] have distinct [x] and
    lie on the polynomial; the other points are not looked at. *)
Theorem processFile_consistent (entries : list IndexJs.Entry)
  (shares : list Share.t) (coeffs : list Z) (k : nat) :
  Forall2 (fun e s =>
             IndexJs.key e = Share.x s
             /\ IndexJs.parseBigIntInBase (IndexJs.value e) (IndexJs.base e)
                = inr (Share.y s)) entries shares ->
  (length coeffs <= k <= length shares)%nat ->
  NoDup (map Share.x (firstn k (sortShares shares))) ->
  (forall s, In s (firstn k (sortShares shares)) ->
             Share.y s = pevalZ coeffs (Share.x s)) ->
  IndexJs.processFile entries k = inr (showZ (pevalZ coeffs 0)).
Proof.
  intros Hent [Hlen Hk] Hnd Hon.
  rewrite (processFile_engine entries shares k (readPoints_ok _ _ Hent) Hk).
  rewrite (reconstructAtOrigin_on_polynomial coeffs); auto.
  rewrite length_firstn, sortShares_length. lia.
Qed.

Lemma processFile_consistent_witness :
  IndexJs.processFile
    [IndexJs.mkEntry 9 10 "0"; IndexJs.mkEntry 2 10 "7"; IndexJs.mkEntry 1 2 "101"] 2
  = inr (showZ (pevalZ [3; 2] 0)).
Proof.
  apply (processFile_consistent _ [Share.mk 9 0; Share.mk 2 7; Share.mk 1 5]).
  - constructor; [split; reflexivity |].
    constructor; [split; reflexivity |].
    constructor; [split; reflexivity | constructor].
  - cbn. lia.
  - cbn. repeat constructor; cbn; intuition discriminate.
  - cbn. intros s [<- | [<- | []]]; reflexivity.
Defined.
